(** * Chroma key compositor: shallow embedding and verified properties

    The development follows [chroma_key_core.py] (the per-frame compositor
    [perform_chroma_key]) and the parts of [chroma_key_gui.py] that feed it
    ([ChromaKeyApp.apply_chroma_key], the background stepping and
    [_load_background_video_worker]), then the other handlers of the
    window: the loaders, the slider callbacks, [update_preview], the
    preview, the export, and the colour picker [_pick_color_callback].

    Modelling conventions.
    - A raster is a list of rows of BGR pixels; a channel is an integer that
      a [uint8] array holds when it lies in 0..255.
    - NumPy [float32] values are IEEE binary32 numbers, taken from the
      Standard Library's executable specification [SpecFloat] at precision 24
      and maximal exponent 128 (round to nearest, ties to even); the
      [float64] of [np.mean] and of Python's [float] is binary64, precision
      53 and maximal exponent 1024.
    - The hue bounds [target_hsv[0] - tolerance] and
      [target_hsv[0] + tolerance] combine a [uint8] scalar with a Python
      [int].  What NumPy makes of that depends on its version, which the
      repository does not fix, so the compositor takes the promotion rule
      as a parameter ([np.promotion]): before NumPy 2 both operands become
      [int64]; from NumPy 2 on the integer is taken as a [uint8], the
      arithmetic wraps around modulo 256, and an integer outside 0..255
      is refused with [OverflowError] ([np.fits]).
    - OpenCV is an external library.  Its integer routines ([cvtColor] to
      HSV on 8-bit data, [inRange], [convertScaleAbs]) are written out; the
      two resampling filters ([resize], [GaussianBlur]) are parameters of
      the compositor, known in the section [Compositor] only through the
      shortcuts OpenCV takes for an unchanged size and for a 1x1 kernel,
      and through the shape of their result; what the blur does to a hard
      matte beyond that is stated where it is used
      ([fractional_on_edges]).
    - The compositor is embedded twice: as a function on values
      ([perform_chroma_key]), and, to follow what a call does to the
      arrays it is handed, on a store of arrays ([Heap.perform_chroma_key]),
      which also fails where the source raises. *)

From Stdlib Require Import String ZArith List Bool Lia SpecFloat.
Import ListNotations.
Local Open Scope Z_scope.

(** ** Rasters *)

Record pixel := BGR { chB : Z; chG : Z; chR : Z }.

Definition raster := list (list pixel).

Definition channel_ok (c : Z) : Prop := 0 <= c <= 255.

Definition pixel_ok (p : pixel) : Prop :=
  channel_ok (chB p) /\ channel_ok (chG p) /\ channel_ok (chR p).

Definition raster_ok (r : raster) : Prop := Forall (Forall pixel_ok) r.

(** [frame.shape[:2]]: number of rows, then number of columns. *)
Definition shape {A} (r : list (list A)) : nat * nat :=
  (length r, length (hd [] r)).

(** All rows have [w] columns and there are [h] rows. *)
Definition has_shape {A} (h w : nat) (r : list (list A)) : Prop :=
  length r = h /\ Forall (fun row => length row = w) r.

Definition at_ {A} (r : list (list A)) (i j : nat) : option A :=
  match nth_error r i with
  | Some row => nth_error row j
  | None => None
  end.

(** Element-wise combination of two arrays of the same shape. *)
Fixpoint map2 {A B C} (f : A -> B -> C) (l : list A) (m : list B) : list C :=
  match l, m with
  | a :: l', b :: m' => f a b :: map2 f l' m'
  | _, _ => []
  end.

Definition map2d {A B} (f : A -> B) (r : list (list A)) : list (list B) :=
  map (map f) r.

Definition zip2d {A B C} (f : A -> B -> C)
  (r : list (list A)) (s : list (list B)) : list (list C) :=
  map2 (map2 f) r s.

(** ** binary32 arithmetic *)

Module F32.

Definition prec : Z := 24.
Definition emax : Z := 128.

Definition t := spec_float.

Definition of_Z (n : Z) : t := binary_normalize prec emax n 0 false.

Definition add : t -> t -> t := SFadd prec emax.
Definition sub : t -> t -> t := SFsub prec emax.
Definition mul : t -> t -> t := SFmul prec emax.
Definition div : t -> t -> t := SFdiv prec emax.
Definition abs : t -> t := SFabs.
Definition ltb : t -> t -> bool := SFltb.

Definition zero : t := of_Z 0.
Definition one : t := of_Z 1.

(** [np.clip(x, lo, hi)], that is [minimum(maximum(x, lo), hi)]; a NaN
    passes through. *)
Definition clip (x lo hi : t) : t :=
  match x with
  | S754_nan => S754_nan
  | _ => if ltb x lo then lo else if ltb hi x then hi else x
  end.

(** Integer part, rounding toward zero (a C cast to an integer type);
    [None] when there is none (NaN, infinities). *)
Definition trunc (x : t) : option Z :=
  match x with
  | S754_zero _ => Some 0
  | S754_finite s m e =>
      let a := if 0 <=? e then Z.shiftl (Zpos m) e
               else Z.shiftr (Zpos m) (- e) in
      Some (if s then - a else a)
  | _ => None
  end.

(** Nearest integer, ties to even ([cvRound]). *)
Definition round_even (x : t) : option Z :=
  match x with
  | S754_zero _ => Some 0
  | S754_finite s m e =>
      let a :=
        if 0 <=? e then Z.shiftl (Zpos m) e
        else
          let q := Z.shiftr (Zpos m) (- e) in
          let r := Zpos m - Z.shiftl q (- e) in
          let half := Z.shiftl 1 (- e - 1) in
          if r <? half then q
          else if half <? r then q + 1
          else if Z.even q then q else q + 1 in
      Some (if s then - a else a)
  | _ => None
  end.

(** [.astype(np.uint8)] on a [float32] array: the value is truncated and
    kept modulo 256; the conversion of a NaN or an infinity is left to the
    platform, and is taken as 0 here. *)
Definition astype_uint8 (x : t) : Z :=
  match trunc x with
  | Some n => n mod 256
  | None => 0
  end.

End F32.

(** ** NumPy: a [uint8] scalar combined with a Python integer *)

Module np.

(** The two promotion rules.  [Legacy] is the value-based rule of NumPy
    before version 2: for two scalars both operands become [int64].
    [Weak] is the rule of NumPy 2 (NEP 50): the Python integer is taken
    as a value of the scalar's own type, [uint8], and so is the result. *)
Inductive promotion := Legacy | Weak.

Definition int64 (z : Z) : Z := (z + 2 ^ 63) mod 2 ^ 64 - 2 ^ 63.

Definition uint8 (z : Z) : Z := z mod 256.

(** The Python integers that the type chosen by the rule can hold.  Under
    [Weak] NumPy raises [OverflowError] for the others, before any
    arithmetic is done; under [Legacy] an integer beyond [int64] takes
    another type, which is not followed here. *)
Definition fits (rule : promotion) (n : Z) : bool :=
  match rule with
  | Legacy => (- 2 ^ 63 <=? n) && (n <? 2 ^ 63)
  | Weak => (0 <=? n) && (n <=? 255)
  end.

(** [x - n] and [x + n] for a [uint8] scalar [x] and a Python integer [n]
    that fits; an overflow wraps around (NumPy warns and goes on).
    [int64] is the default integer of NumPy on 64-bit Linux and macOS. *)
Definition sub (rule : promotion) (x n : Z) : Z :=
  match rule with
  | Legacy => int64 (x - n)
  | Weak => uint8 (x - n)
  end.

Definition add (rule : promotion) (x n : Z) : Z :=
  match rule with
  | Legacy => int64 (x + n)
  | Weak => uint8 (x + n)
  end.

End np.

(** ** OpenCV routines on 8-bit data *)

Module cv2.

Definition hsv_shift : Z := 12.

(** Nearest integer to [n / d], ties to even ([saturate_cast<int>] of the
    double quotient), for the division tables. *)
Definition round_div (n d : Z) : Z :=
  let q := n / d in
  let r := n mod d in
  if 2 * r <? d then q
  else if d <? 2 * r then q + 1
  else if Z.even q then q else q + 1.

Definition sdiv_table (i : Z) : Z :=
  if i =? 0 then 0 else round_div (Z.shiftl 255 hsv_shift) i.

Definition hdiv_table180 (i : Z) : Z :=
  if i =? 0 then 0 else round_div (Z.shiftl 180 hsv_shift) (6 * i).

(** [cvtColor(., COLOR_BGR2HSV)] on one 8-bit pixel: the result is
    (hue, saturation, value), hue in half degrees. *)
Definition bgr2hsv (p : pixel) : Z * Z * Z :=
  let b := chB p in
  let g := chG p in
  let r := chR p in
  let v := Z.max (Z.max b g) r in
  let vmin := Z.min (Z.min b g) r in
  let diff := v - vmin in
  let s := Z.shiftr (diff * sdiv_table v + Z.shiftl 1 (hsv_shift - 1)) hsv_shift in
  let h0 :=
    if v =? r then g - b
    else if v =? g then b - r + 2 * diff
    else r - g + 4 * diff in
  let h1 := Z.shiftr (h0 * hdiv_table180 diff + Z.shiftl 1 (hsv_shift - 1)) hsv_shift in
  let h := if h1 <? 0 then h1 + 180 else h1 in
  (h, s, v).

Definition cvtColor_BGR2HSV (r : raster) : list (list (Z * Z * Z)) :=
  map2d bgr2hsv r.

(** [inRange] on one three-channel element: 255 when every channel lies
    between its two bounds, bounds included, and 0 otherwise. *)
Definition inRange1 (x lo hi : Z * Z * Z) : Z :=
  let '(x0, x1, x2) := x in
  let '(l0, l1, l2) := lo in
  let '(u0, u1, u2) := hi in
  if (l0 <=? x0) && (x0 <=? u0) && (l1 <=? x1) && (x1 <=? u1)
     && (l2 <=? x2) && (x2 <=? u2)
  then 255 else 0.

Definition inRange (a : list (list (Z * Z * Z))) (lo hi : Z * Z * Z)
  : list (list Z) :=
  map2d (fun x => inRange1 x lo hi) a.

(** [saturate_cast<uchar>] of a float: nearest integer, then clamped. *)
Definition saturate_uchar (x : F32.t) : Z :=
  match F32.round_even x with
  | Some n => Z.max 0 (Z.min 255 n)
  | None => 0
  end.

(** [convertScaleAbs(src, alpha, beta)] on one 8-bit channel:
    [saturate_cast<uchar>(|src * alpha + beta|)], computed in binary32. *)
Definition convertScaleAbs1 (alpha beta : F32.t) (x : Z) : Z :=
  saturate_uchar (F32.abs (F32.add (F32.mul (F32.of_Z x) alpha) beta)).

Definition convertScaleAbs (src : raster) (alpha beta : F32.t) : raster :=
  map2d (fun p => BGR (convertScaleAbs1 alpha beta (chB p))
                      (convertScaleAbs1 alpha beta (chG p))
                      (convertScaleAbs1 alpha beta (chR p))) src.

(** A [VideoCapture]: the decodable frames and the position of the next
    one.  [read] hands out the frame at the position and advances; past
    the end it reports failure.  [set_pos_frames] is
    [set(CAP_PROP_POS_FRAMES, n)]. *)
Record VideoCapture := Capture { cap_frames : list raster; cap_pos : nat }.

Definition read (c : VideoCapture) : option raster * VideoCapture :=
  match nth_error (cap_frames c) (cap_pos c) with
  | Some f => (Some f, Capture (cap_frames c) (S (cap_pos c)))
  | None => (None, c)
  end.

Definition set_pos_frames (c : VideoCapture) (n : nat) : VideoCapture :=
  Capture (cap_frames c) n.

End cv2.

(** ** The compositor: [perform_chroma_key] *)

(** The pair ([bg_source], [bg_is_video]) of the source, as its docstring
    describes it: no source, an image (a NumPy array, flag off) or a video
    capture (flag on). *)
Inductive background :=
  | NoBackground
  | ImageBackground (img : raster)
  | VideoBackground (cap : cv2.VideoCapture).

(** A pixel of the [float32] array [combined]. *)
Record fpixel := FBGR { fB : F32.t; fG : F32.t; fR : F32.t }.

Definition f255 : F32.t := F32.of_Z 255.

Section CompositorDefs.

(** The promotion rule of the NumPy that runs the code. *)
Variable rule : np.promotion.

(** [resize src w h] is [cv2.resize(src, (w, h))]. *)
Variable resize : raster -> nat -> nat -> raster.

(** [GaussianBlur a k] is [cv2.GaussianBlur(a, (k, k), 0)]. *)
Variable GaussianBlur : list (list F32.t) -> Z -> list (list F32.t).

(** Lines 55-60: the binary mask, 255 on the pixels to replace.
    [target_hsv[0]] is a [uint8] scalar and [tolerance] a Python integer;
    where [np.fits rule tolerance] is false the source has no mask to
    give (under [np.Weak] it raises [OverflowError] at line 58). *)
Definition key_mask (frame : raster) (bg_color_bgr : pixel) (tolerance : Z)
  : list (list Z) :=
  let hsv := cv2.cvtColor_BGR2HSV frame in
  let target_hsv := cv2.bgr2hsv bg_color_bgr in
  let target_h := fst (fst target_hsv) in
  let lower_bound := (Z.max 0 (np.sub rule target_h tolerance), 50, 50) in
  let upper_bound := (Z.min 180 (np.add rule target_h tolerance), 255, 255) in
  cv2.inRange hsv lower_bound upper_bound.

Definition blur_size (softness : Z) : Z := Z.max 1 (softness * 4 + 1).

(** Lines 62-64: the mask as a [float32] matte, then feathered. *)
Definition alpha_map (mask : list (list Z)) (softness : Z)
  : list (list F32.t) :=
  let alpha := map2d (fun m => F32.div (F32.of_Z m) f255) mask in
  GaussianBlur alpha (blur_size softness).

(** Lines 66-69 on one channel: [alpha * bg + (1.0 - alpha) * frame]. *)
Definition blend1 (a : F32.t) (bg fg : Z) : F32.t :=
  F32.add (F32.mul a (F32.of_Z bg))
          (F32.mul (F32.sub F32.one a) (F32.of_Z fg)).

Definition blend_pixel (a : F32.t) (bg fg : pixel) : fpixel :=
  FBGR (blend1 a (chB bg) (chB fg))
       (blend1 a (chG bg) (chG fg))
       (blend1 a (chR bg) (chR fg)).

Definition blend (alpha : list (list F32.t)) (bg_resized frame : raster)
  : list (list fpixel) :=
  zip2d (fun a bf => blend_pixel a (fst bf) (snd bf))
        alpha (zip2d pair bg_resized frame).

(** Lines 71-72: the flat reduction of channel 1 over the whole array. *)
Definition spill1 (color_spill : Z) (c : fpixel) : fpixel :=
  if 0 <? color_spill
  then FBGR (fB c)
            (F32.clip (F32.sub (fG c) (F32.of_Z color_spill)) F32.zero f255)
            (fR c)
  else c.

(** Line 74 on one channel and on one pixel. *)
Definition to_uint8 (x : F32.t) : Z :=
  F32.astype_uint8 (F32.clip x F32.zero f255).

Definition finish1 (c : fpixel) : pixel :=
  BGR (to_uint8 (fB c)) (to_uint8 (fG c)) (to_uint8 (fR c)).

(** Lines 55-74, once the background has the size of the frame. *)
Definition composite (frame bg_resized : raster) (bg_color_bgr : pixel)
  (tolerance softness color_spill : Z) : raster :=
  let mask := key_mask frame bg_color_bgr tolerance in
  let alpha := alpha_map mask softness in
  let combined := blend alpha bg_resized frame in
  map2d (fun c => finish1 (spill1 color_spill c)) combined.

(** The whole function.  The second component is the background source
    after the call: a video capture is read from, and so changes. *)
Definition perform_chroma_key (frame : raster) (bg_source : background)
  (bg_color_bgr : pixel) (tolerance softness color_spill : Z)
  : raster * background :=
  match bg_source with
  | NoBackground => (frame, bg_source)
  | ImageBackground img =>
      let '(h, w) := shape frame in
      let bg_resized := resize img w h in
      (composite frame bg_resized bg_color_bgr tolerance softness color_spill,
       bg_source)
  | VideoBackground cap =>
      let '(h, w) := shape frame in
      let '(ret, cap1) := cv2.read cap in
      let '(ret', cap2) :=
        match ret with
        | Some _ => (ret, cap1)
        | None => cv2.read (cv2.set_pos_frames cap1 0)
        end in
      match ret' with
      | None => (frame, VideoBackground cap2)
      | Some bg_frame =>
          let bg_resized := resize bg_frame w h in
          (composite frame bg_resized bg_color_bgr tolerance softness
             color_spill,
           VideoBackground cap2)
      end
  end.

End CompositorDefs.

(** ** The application state and the background stepping *)

(** The fields of [ChromaKeyApp] that compositing reads or writes.
    [bg_color] is kept as (R, G, B), as the colour picker stores it;
    [reverse_bg_check] is the enabled state of the check box. *)
Record ChromaKeyApp := App {
  bg_color : Z * Z * Z;
  tolerance : Z;
  softness : Z;
  color_spill : Z;
  fg_brightness : Z;
  fg_contrast : F32.t;
  bg_brightness : Z;
  bg_contrast : F32.t;
  bg_image : option raster;
  bg_is_video : bool;
  bg_video_is_reversed : bool;
  bg_total_frames : Z;
  bg_index : Z;
  bg_frames : list raster;
  reverse_bg_check : bool
}.

Definition set_bg_index (self : ChromaKeyApp) (i : Z) : ChromaKeyApp :=
  App (bg_color self) (tolerance self) (softness self) (color_spill self)
      (fg_brightness self) (fg_contrast self) (bg_brightness self)
      (bg_contrast self) (bg_image self) (bg_is_video self)
      (bg_video_is_reversed self) (bg_total_frames self) i (bg_frames self)
      (reverse_bg_check self).

(** The check box bound to [bg_video_is_reversed]. *)
Definition set_reversed (self : ChromaKeyApp) (b : bool) : ChromaKeyApp :=
  App (bg_color self) (tolerance self) (softness self) (color_spill self)
      (fg_brightness self) (fg_contrast self) (bg_brightness self)
      (bg_contrast self) (bg_image self) (bg_is_video self)
      b (bg_total_frames self) (bg_index self) (bg_frames self)
      (reverse_bg_check self).

Definition set_reverse_bg_check (self : ChromaKeyApp) (b : bool)
  : ChromaKeyApp :=
  App (bg_color self) (tolerance self) (softness self) (color_spill self)
      (fg_brightness self) (fg_contrast self) (bg_brightness self)
      (bg_contrast self) (bg_image self) (bg_is_video self)
      (bg_video_is_reversed self) (bg_total_frames self) (bg_index self)
      (bg_frames self) b.

(** [l[i]] on a Python list: a negative index counts from the end, an
    index outside [-len, len) raises [IndexError] ([None]). *)
Definition py_getitem {A} (l : list A) (i : Z) : option A :=
  let n := Z.of_nat (length l) in
  if (0 <=? i) && (i <? n) then nth_error l (Z.to_nat i)
  else if (- n <=? i) && (i <? 0) then nth_error l (Z.to_nat (n + i))
  else None.

(** Lines 436-443 of the GUI: the cursor moves first, by one step in the
    play direction, and wraps at either end. *)
Definition advance_bg_index (reversed : bool) (total idx : Z) : Z :=
  if reversed then
    let i := idx - 1 in
    if i <? 0 then total - 1 else i
  else
    let i := idx + 1 in
    if total <=? i then 0 else i.

Definition is_empty {A} (l : list A) : bool :=
  match l with [] => true | _ => false end.

Section AppDefs.

Variable rule : np.promotion.
Variable resize : raster -> nat -> nat -> raster.
Variable GaussianBlur : list (list F32.t) -> Z -> list (list F32.t).

(** The call to the core at the end of [apply_chroma_key]: the flag is
    always off, the colour is handed over as (B, G, R). *)
Definition call_core (self : ChromaKeyApp) (adjusted_foreground : raster)
  (bg_source : raster) : raster :=
  let '(r, g, b) := bg_color self in
  fst (perform_chroma_key rule resize GaussianBlur adjusted_foreground
         (ImageBackground bg_source) (BGR b g r)
         (tolerance self) (softness self) (color_spill self)).

(** [ChromaKeyApp.apply_chroma_key]; [None] is an [IndexError]. *)
Definition apply_chroma_key (self : ChromaKeyApp) (frame : raster)
  : option (raster * ChromaKeyApp) :=
  let adjusted_foreground :=
    cv2.convertScaleAbs frame (fg_contrast self)
      (F32.of_Z (fg_brightness self)) in
  if bg_is_video self && negb (is_empty (bg_frames self)) then
    let self' :=
      set_bg_index self
        (advance_bg_index (bg_video_is_reversed self)
           (bg_total_frames self) (bg_index self)) in
    match py_getitem (bg_frames self') (bg_index self') with
    | None => None
    | Some raw_bg =>
        let adjusted_bg :=
          cv2.convertScaleAbs raw_bg (bg_contrast self')
            (F32.of_Z (bg_brightness self')) in
        Some (call_core self' adjusted_foreground adjusted_bg, self')
    end
  else
    match bg_image self with
    | Some img =>
        let adjusted_bg :=
          cv2.convertScaleAbs img (bg_contrast self)
            (F32.of_Z (bg_brightness self)) in
        Some (call_core self adjusted_foreground adjusted_bg, self)
    | None => Some (adjusted_foreground, self)
    end.

(** What a step shows for the foreground [frame] over the raw background
    frame [raw_bg]: both adjusted, then composited. *)
Definition render (self : ChromaKeyApp) (frame raw_bg : raster) : raster :=
  call_core self
    (cv2.convertScaleAbs frame (fg_contrast self)
       (F32.of_Z (fg_brightness self)))
    (cv2.convertScaleAbs raw_bg (bg_contrast self)
       (F32.of_Z (bg_brightness self))).

(** A playback: before each foreground frame the user may have toggled
    the reverse check box. *)
Fixpoint play (self : ChromaKeyApp) (steps : list (bool * raster))
  : option (list raster * ChromaKeyApp) :=
  match steps with
  | [] => Some ([], self)
  | (rev, frame) :: rest =>
      match apply_chroma_key (set_reversed self rev) frame with
      | None => None
      | Some (out, self') =>
          match play self' rest with
          | None => None
          | Some (outs, self'') => Some (out :: outs, self'')
          end
      end
  end.

End AppDefs.

(** ** Playback: the cursor along a run of steps *)

(** A video background is installed: the flag is on, the frame list is not
    empty, [bg_total_frames] is its length [n] and the cursor is inside. *)
Definition video_ready (self : ChromaKeyApp) (n : Z) : Prop :=
  bg_is_video self = true /\ bg_frames self <> [] /\
  Z.of_nat (length (bg_frames self)) = n /\ bg_total_frames self = n /\
  0 <= bg_index self < n.

(** The cursor positions read along a run of steps, given the play
    direction chosen before each step ([true] is reverse). *)
Fixpoint cursor_trace (n : Z) (dirs : list bool) (i : Z) : list Z :=
  match dirs with
  | [] => []
  | d :: ds =>
      let i' := advance_bg_index d n i in
      i' :: cursor_trace n ds i'
  end.

Definition cursor_after (n : Z) (dirs : list bool) (i : Z) : Z :=
  fold_left (fun k d => advance_bg_index d n k) dirs i.

(** ** Loading a background *)

(** What the loading thread reports through [_finish_loading]. *)
Inductive load_report :=
  | LoadInfo (msg : string)
  | LoadError (msg : string).

(** [_load_background_video_worker].  [decoded] is what the decoder gives
    for the path: [None] when the file cannot be opened, otherwise the
    frames read until the first failed [read]. *)
Definition _load_background_video_worker (self : ChromaKeyApp)
  (decoded : option (list raster)) : ChromaKeyApp * load_report :=
  match decoded with
  | None =>
      (set_reverse_bg_check self false,
       LoadError "Failed to open background video.")
  | Some temp_frames =>
      if (Z.of_nat (length temp_frames) <? 1) then
        (set_reverse_bg_check self false,
         LoadError "Background video has no valid frames.")
      else
        (App (bg_color self) (tolerance self) (softness self)
             (color_spill self) (fg_brightness self) (fg_contrast self)
             (bg_brightness self) (bg_contrast self) (bg_image self)
             true (bg_video_is_reversed self)
             (Z.of_nat (length temp_frames)) 0 temp_frames true,
         LoadInfo "Background video loaded successfully.")
  end.

(** [load_bg_image], after the file dialog; [img] is what [imread] gave. *)
Definition load_bg_image (self : ChromaKeyApp) (img : option raster)
  : ChromaKeyApp * load_report :=
  match img with
  | None =>
      (set_reverse_bg_check self false, LoadError "Failed to load image.")
  | Some i =>
      (App (bg_color self) (tolerance self) (softness self)
           (color_spill self) (fg_brightness self) (fg_contrast self)
           (bg_brightness self) (bg_contrast self) (Some i)
           false (bg_video_is_reversed self)
           (bg_total_frames self) (bg_index self) (bg_frames self) false,
       LoadInfo "Background image loaded successfully.")
  end.

(** The state [__init__] sets up. *)
Definition initial_app : ChromaKeyApp :=
  App (0, 255, 0) 25 0 0 0 F32.one 0 F32.one None false false 0 0 [] false.

(** The GUI never breaks its own state: when the video flag is on, a
    video background is installed. *)
Definition app_inv (self : ChromaKeyApp) : Prop :=
  bg_is_video self = true -> video_ready self (bg_total_frames self).

(** ** The adjustment in the words of the specification

    [clamp(originalChannel * contrastMultiplier + brightnessOffset, 0, 255)],
    here for an integer multiplier. *)
Definition clamp_affine (contrast brightness x : Z) : Z :=
  Z.max 0 (Z.min 255 (x * contrast + brightness)).

Definition set_fg_brightness (self : ChromaKeyApp) (b : Z) : ChromaKeyApp :=
  App (bg_color self) (tolerance self) (softness self) (color_spill self)
      b (fg_contrast self) (bg_brightness self)
      (bg_contrast self) (bg_image self) (bg_is_video self)
      (bg_video_is_reversed self) (bg_total_frames self) (bg_index self)
      (bg_frames self) (reverse_bg_check self).

(** ** Reference resampling filters

    Two executable stand-ins for the OpenCV filters, used to run the
    compositor on concrete frames.  Both take the shortcut OpenCV takes:
    [resize] copies a source that already has the requested size, and
    [GaussianBlur] copies its source for a 1x1 kernel.  Otherwise
    [resize_ref] samples the nearest source pixel and [blur_ref] mixes each
    value evenly with the mean of its row. *)

Definition has_shapeb {A} (h w : nat) (r : list (list A)) : bool :=
  Nat.eqb (length r) h && forallb (fun row => Nat.eqb (length row) w) r.

Definition resize_ref (src : raster) (w h : nat) : raster :=
  if has_shapeb h w src then src
  else
    let '(h0, w0) := shape src in
    map (fun i =>
           map (fun j =>
                  nth (j * w0 / w) (nth (i * h0 / h) src []) (BGR 0 0 0))
               (seq 0 w))
        (seq 0 h).

Definition row_mean (row : list F32.t) : F32.t :=
  F32.div (fold_left F32.add row F32.zero)
          (F32.of_Z (Z.of_nat (length row))).

Definition blur_ref (a : list (list F32.t)) (k : Z) : list (list F32.t) :=
  if k =? 1 then a
  else
    map (fun row =>
           let m := row_mean row in
           map (fun x => F32.div (F32.add x m) (F32.of_Z 2)) row)
        a.

(** ** Hue, saturation and value of a pixel *)

Definition hue (p : pixel) : Z := fst (fst (cv2.bgr2hsv p)).
Definition sat (p : pixel) : Z := snd (fst (cv2.bgr2hsv p)).
Definition val (p : pixel) : Z := snd (cv2.bgr2hsv p).

(** ** The transition band of a matte *)

(** A matte value strictly between 0.0 and 1.0. *)
Definition in_band (a : F32.t) : bool :=
  F32.ltb F32.zero a && F32.ltb a F32.one.

(** The number of positions of a matte that lie in the transition band. *)
Definition band_width (alpha : list (list F32.t)) : nat :=
  length (filter in_band (concat alpha)).

(** ** Displayable blend values *)

(** A binary32 number (not a NaN) that is below 256: a zero, a negative
    number, or a positive number in canonical form with at most 8 integer
    bits. *)
Definition below_256 (c : F32.t) : bool :=
  match c with
  | S754_zero _ => true
  | S754_infinity s => s
  | S754_nan => false
  | S754_finite s m e =>
      bounded F32.prec F32.emax m e
      && (s || (Zpos (digits2_pos m) + e <=? 8))
  end.

(** The value is not a NaN and carries the sign [sx]. *)
Definition has_sign (sx : bool) (x : F32.t) : Prop :=
  match x with
  | S754_zero s | S754_infinity s | S754_finite s _ _ => s = sx
  | S754_nan => False
  end.

(** A matte value in the unit interval: a zero, a positive number in
    canonical form below one, or 1.0 itself. *)
Definition unit_range (a : F32.t) : bool :=
  match a with
  | S754_zero _ => true
  | S754_finite false m e =>
      bounded F32.prec F32.emax m e
      && ((Zpos (digits2_pos m) + e <=? 0) || (Pos.eqb m 8388608 && Z.eqb e (-23)))
  | _ => false
  end.

(** The value of a finite number in units of [2 ^ -200], and 0 for the
    others. *)
Definition value200 (x : spec_float) : Z :=
  match x with
  | S754_finite _ m e => Zpos m * 2 ^ (e + 200)
  | _ => 0
  end.

(** A zero or a canonical finite number of sign [sx]. *)
Definition canonical_of (sx : bool) (x : spec_float) : Prop :=
  match x with
  | S754_zero s => s = sx
  | S754_finite s m e => s = sx /\ bounded 24 128 m e = true
  | _ => False
  end.

(** ** Auxiliary definitions for the proofs *)

(** The integers below [n], for checking a property on every 8-bit value. *)
Fixpoint upto (n : nat) : list Z :=
  match n with
  | O => []
  | S k => Z.of_nat k :: upto k
  end.

(** Equality test on binary32 values. *)
Definition sf_eqb (x y : F32.t) : bool :=
  match x, y with
  | S754_zero a, S754_zero b => Bool.eqb a b
  | S754_infinity a, S754_infinity b => Bool.eqb a b
  | S754_nan, S754_nan => true
  | S754_finite a m e, S754_finite b m' e' =>
      Bool.eqb a b && Pos.eqb m m' && Z.eqb e e'
  | _, _ => false
  end.

(** The exponent of the last mantissa bit of a binary32 number of
    magnitude [2 ^ e]. *)
Abbreviation fexp32 := (fexp 24 128).

(** ** The mask test on one pixel *)

(** The test [inRange] makes on the HSV value of a pixel, for the bounds
    that [perform_chroma_key] builds from the key colour and the
    tolerance (lines 58-60). *)
Definition is_key (rule : np.promotion) (bg_color_bgr : pixel)
  (tolerance : Z) (p : pixel) : bool :=
  Z.eqb (cv2.inRange1 (cv2.bgr2hsv p)
           (Z.max 0 (np.sub rule (hue bg_color_bgr) tolerance), 50, 50)
           (Z.min 180 (np.add rule (hue bg_color_bgr) tolerance), 255, 255))
        255.

(** ** The mask test in the words of the specification

    A pixel is key when its hue lies in the interval
    [keyHue - tolerance, keyHue + tolerance] clamped to the hue range, with
    no wrap-around, and its saturation and value both reach the
    threshold.  It is compared with [is_key], which follows the code. *)
Definition spec_is_key (key : pixel) (tolerance : Z) (p : pixel) : bool :=
  (Z.max 0 (hue key - tolerance) <=? hue p)
  && (hue p <=? Z.min 180 (hue key + tolerance))
  && (50 <=? sat p) && (50 <=? val p).

(** The tolerances for which neither hue bound leaves the range of the
    type the rule computes in, for a key colour of hue [h]. *)
Definition exact_bounds (rule : np.promotion) (h tol : Z) : bool :=
  match rule with
  | np.Legacy => (- 2 ^ 62 <=? tol) && (tol <=? 2 ^ 62)
  | np.Weak => (0 <=? tol) && (tol <=? h) && (h + tol <=? 255)
  end.

(** ** Successive calls on one video capture *)

Section VideoRunDefs.

Variable rule : np.promotion.
Variable resize : raster -> nat -> nat -> raster.
Variable GaussianBlur : list (list F32.t) -> Z -> list (list F32.t).

(** Calls of [perform_chroma_key] on the foreground frames [frames], one
    after the other, each on the background source the previous one
    left. *)
Fixpoint perform_all (frames : list raster) (bg_source : background)
  (bg_color_bgr : pixel) (tolerance softness color_spill : Z)
  : list raster * background :=
  match frames with
  | [] => ([], bg_source)
  | frame :: rest =>
      let '(out, bg1) :=
        perform_chroma_key rule resize GaussianBlur frame bg_source bg_color_bgr
          tolerance softness color_spill in
      let '(outs, bg2) :=
        perform_all rest bg1 bg_color_bgr tolerance softness color_spill in
      (out :: outs, bg2)
  end.

End VideoRunDefs.

(** The frame of a capture that a call of [perform_chroma_key] reads: the
    one at the position, or the first one again when the position is at
    the end. *)
Definition next_read (n pos : nat) : nat :=
  if Nat.ltb pos n then pos else 0%nat.

(** ** Preview and export *)

(** The cursor reset at the start of [preview_composited_video] (lines
    501-504) and at the start of [_save_video_worker] (line 540). *)
Definition preview_reset (self : ChromaKeyApp) : ChromaKeyApp :=
  if bg_video_is_reversed self
  then set_bg_index self (bg_total_frames self - 1)
  else set_bg_index self 0.

Definition export_reset (self : ChromaKeyApp) : ChromaKeyApp :=
  set_bg_index self 0.

(** What the two buttons answer. *)
Inductive playback :=
  | Refused (msg : string)
  | Played (outs : list raster) (self : ChromaKeyApp)
  | Crashed.

Section ExportDefs.

Variable rule : np.promotion.
Variable resize : raster -> nat -> nat -> raster.
Variable GaussianBlur : list (list F32.t) -> Z -> list (list F32.t).

(** The guard shared by [preview_composited_video] and
    [export_composited_video]: [fg_cap] is the foreground capture when one
    is loaded and open. *)
Definition nothing_to_play (self : ChromaKeyApp)
  (fg_cap : option cv2.VideoCapture) : bool :=
  match fg_cap with
  | None => true
  | Some _ =>
      match bg_image self with
      | None => is_empty (bg_frames self)
      | Some _ => false
      end
  end.

(** The foreground frames, each with the state of the reverse check box
    when it is processed ([toggle k] for the frame number [k]). *)
Definition with_toggles (toggle : nat -> bool) (frames : list raster)
  : list (bool * raster) :=
  map2 (fun k frame => (toggle k, frame)) (seq 0 (length frames)) frames.

(** [preview_composited_video], played to the end of the foreground. *)
Definition preview_composited_video (self : ChromaKeyApp)
  (fg_cap : option cv2.VideoCapture) (toggle : nat -> bool) : playback :=
  if nothing_to_play self fg_cap
  then Refused "Load a video and background image/video first."
  else
    match fg_cap with
    | None => Refused "Load a video and background image/video first."
    | Some cap =>
        match play rule resize GaussianBlur (preview_reset self)
                (with_toggles toggle (cv2.cap_frames cap)) with
        | Some (outs, self') => Played outs self'
        | None => Crashed
        end
    end.

(** [export_composited_video] with [_save_video_worker], once a path is
    chosen: the frames handed to the writer, in order. *)
Definition export_composited_video (self : ChromaKeyApp)
  (fg_cap : option cv2.VideoCapture) (toggle : nat -> bool) : playback :=
  if nothing_to_play self fg_cap
  then Refused "Load a video and background image/video first."
  else
    match fg_cap with
    | None => Refused "Load a video and background image/video first."
    | Some cap =>
        match play rule resize GaussianBlur (export_reset self)
                (with_toggles toggle (cv2.cap_frames cap)) with
        | Some (outs, self') => Played outs self'
        | None => Crashed
        end
    end.

End ExportDefs.

(** ** Backgrounds of any size *)

(** An image as [imread] or a capture gives it: at least one row and one
    column, all rows of one length. *)
Definition is_image (r : raster) : Prop :=
  exists h w, (0 < h)%nat /\ (0 < w)%nat /\ has_shape h w r.

Definition background_ok (bg_source : background) : Prop :=
  match bg_source with
  | NoBackground => True
  | ImageBackground img => is_image img
  | VideoBackground cap => Forall is_image (cv2.cap_frames cap)
  end.

(** ** The handlers of the window, one after another

    The state is the application record together with the foreground
    capture.  A handler runs to its end before the next one starts; the
    loading and saving threads are taken as one step each. *)

Record gui := Gui { gui_app : ChromaKeyApp; fg_cap : option cv2.VideoCapture }.

(** The seven fields the sliders write. *)
Definition with_settings (self : ChromaKeyApp) (tol soft spill : Z)
  (fgb : Z) (fgc : F32.t) (bgb : Z) (bgc : F32.t) : ChromaKeyApp :=
  App (bg_color self) tol soft spill fgb fgc bgb bgc (bg_image self)
      (bg_is_video self) (bg_video_is_reversed self) (bg_total_frames self)
      (bg_index self) (bg_frames self) (reverse_bg_check self).

(** The slider callbacks, before their call to [update_preview].  [val]
    is the slider value after [int(float(val))], and for the two
    contrasts after [float(val) / 100.0]. *)
Definition update_tolerance (self : ChromaKeyApp) (val : Z) : ChromaKeyApp :=
  with_settings self val (softness self) (color_spill self)
    (fg_brightness self) (fg_contrast self)
    (bg_brightness self) (bg_contrast self).

Definition update_softness (self : ChromaKeyApp) (val : Z) : ChromaKeyApp :=
  with_settings self (tolerance self) val (color_spill self)
    (fg_brightness self) (fg_contrast self)
    (bg_brightness self) (bg_contrast self).

Definition update_cast_removal (self : ChromaKeyApp) (val : Z)
  : ChromaKeyApp :=
  with_settings self (tolerance self) (softness self) val
    (fg_brightness self) (fg_contrast self)
    (bg_brightness self) (bg_contrast self).

Definition update_fg_brightness (self : ChromaKeyApp) (val : Z)
  : ChromaKeyApp :=
  with_settings self (tolerance self) (softness self) (color_spill self)
    val (fg_contrast self) (bg_brightness self) (bg_contrast self).

Definition update_fg_contrast (self : ChromaKeyApp) (val : F32.t)
  : ChromaKeyApp :=
  with_settings self (tolerance self) (softness self) (color_spill self)
    (fg_brightness self) val (bg_brightness self) (bg_contrast self).

Definition update_bg_brightness (self : ChromaKeyApp) (val : Z)
  : ChromaKeyApp :=
  with_settings self (tolerance self) (softness self) (color_spill self)
    (fg_brightness self) (fg_contrast self) val (bg_contrast self).

Definition update_bg_contrast (self : ChromaKeyApp) (val : F32.t)
  : ChromaKeyApp :=
  with_settings self (tolerance self) (softness self) (color_spill self)
    (fg_brightness self) (fg_contrast self) (bg_brightness self) val.

(** What the user does.  A load carries what the file gave ([None] when
    it could not be opened or read); a slider carries its new value. *)
Inductive event :=
  | LoadForeground (cap : option cv2.VideoCapture)
  | LoadBackgroundVideo (decoded : option (list raster))
  | LoadBackgroundImage (img : option raster)
  | ReverseChecked (b : bool)
  | Tolerance (v : Z)
  | Softness (v : Z)
  | CastRemoval (v : Z)
  | FgBrightness (v : Z)
  | FgContrast (v : F32.t)
  | BgBrightness (v : Z)
  | BgContrast (v : F32.t)
  | PreviewVideo
  | ExportVideo.

Section HandlerDefs.

Variable rule : np.promotion.
Variable resize : raster -> nat -> nat -> raster.
Variable GaussianBlur : list (list F32.t) -> Z -> list (list F32.t).

(** [update_preview]: with no foreground nothing happens; at the end of
    the foreground the capture is rewound and nothing is shown; otherwise
    the next frame is composited.  [None] is an [IndexError]. *)
Definition update_preview (g : gui) : option (option raster * gui) :=
  match fg_cap g with
  | None => Some (None, g)
  | Some cap =>
      match cv2.read cap with
      | (None, cap1) =>
          Some (None, Gui (gui_app g) (Some (cv2.set_pos_frames cap1 0)))
      | (Some frame, cap1) =>
          match apply_chroma_key rule resize GaussianBlur (gui_app g) frame with
          | None => None
          | Some (out_frame, self') =>
              Some (Some out_frame, Gui self' (Some cap1))
          end
      end
  end.

(** What a handler leaves: the frames it showed or wrote, and the state. *)
Definition shown_then (frames : list raster)
  (r : option (option raster * gui)) : option (list raster * gui) :=
  match r with
  | None => None
  | Some (Some out_frame, g) => Some (frames ++ [out_frame], g)
  | Some (None, g) => Some (frames, g)
  end.

(** The handler of each event, with the frames it shows or writes.  A
    load that succeeds, a slider and the check box end with
    [update_preview]; the check box does nothing while it is disabled; the
    preview leaves the foreground at its end, the export rewinds it. *)
Definition handle (g : gui) (e : event) : option (list raster * gui) :=
  let self := gui_app g in
  let refresh self' := shown_then [] (update_preview (Gui self' (fg_cap g))) in
  match e with
  | LoadForeground None => Some ([], g)
  | LoadForeground (Some cap) =>
      shown_then [] (update_preview (Gui self (Some cap)))
  | LoadBackgroundVideo decoded =>
      match _load_background_video_worker self decoded with
      | (self', LoadInfo _) => refresh self'
      | (self', LoadError _) => Some ([], Gui self' (fg_cap g))
      end
  | LoadBackgroundImage img =>
      match load_bg_image self img with
      | (self', LoadInfo _) => refresh self'
      | (self', LoadError _) => Some ([], Gui self' (fg_cap g))
      end
  | ReverseChecked b =>
      if reverse_bg_check self then refresh (set_reversed self b)
      else Some ([], g)
  | Tolerance v => refresh (update_tolerance self v)
  | Softness v => refresh (update_softness self v)
  | CastRemoval v => refresh (update_cast_removal self v)
  | FgBrightness v => refresh (update_fg_brightness self v)
  | FgContrast v => refresh (update_fg_contrast self v)
  | BgBrightness v => refresh (update_bg_brightness self v)
  | BgContrast v => refresh (update_bg_contrast self v)
  | PreviewVideo =>
      match preview_composited_video rule resize GaussianBlur self (fg_cap g)
              (fun _ => bg_video_is_reversed self), fg_cap g with
      | Played outs self', Some cap =>
          Some (outs,
                Gui self'
                  (Some (cv2.set_pos_frames cap
                           (length (cv2.cap_frames cap)))))
      | Crashed, _ => None
      | _, _ => Some ([], g)
      end
  | ExportVideo =>
      match export_composited_video rule resize GaussianBlur self (fg_cap g)
              (fun _ => bg_video_is_reversed self), fg_cap g with
      | Played outs self', Some cap =>
          Some (outs, Gui self' (Some (cv2.set_pos_frames cap 0)))
      | Crashed, _ => None
      | _, _ => Some ([], g)
      end
  end.

(** A session: the events in order; the frames shown or written by each. *)
Fixpoint run (g : gui) (events : list event)
  : option (list (list raster) * gui) :=
  match events with
  | [] => Some ([], g)
  | e :: rest =>
      match handle g e with
      | None => None
      | Some (frames, g') =>
          match run g' rest with
          | None => None
          | Some (shown, g'') => Some (frames :: shown, g'')
          end
      end
  end.

End HandlerDefs.

Definition initial_gui : gui := Gui initial_app None.

(** ** Picking the key colour: [_pick_color_callback] *)

(** binary64, the type of [np.mean] and of Python's [float]. *)
Module F64.

Definition prec : Z := 53.
Definition emax : Z := 1024.

Definition t := spec_float.

Definition of_Z (n : Z) : t := binary_normalize prec emax n 0 false.
Definition div : t -> t -> t := SFdiv prec emax.

(** [int(x)]: the integer part, toward zero; [None] for a NaN
    ([ValueError]) and for an infinity ([OverflowError]). *)
Definition to_int (x : t) : option Z :=
  match x with
  | S754_zero _ => Some 0
  | S754_finite s m e =>
      let a := if 0 <=? e then Z.shiftl (Zpos m) e
               else Z.shiftr (Zpos m) (- e) in
      Some (if s then - a else a)
  | _ => None
  end.

End F64.

(** [np.mean] of the values of an 8-bit array: the sum, accumulated in
    binary64, over the number of values.  The sum of fewer than [2 ^ 45]
    8-bit values is below [2 ^ 53], so every partial sum is an integer that
    binary64 holds exactly, in whatever order NumPy adds; it is taken here
    as the integer sum.  The mean of no value at all is [0.0 / 0.0],
    a NaN. *)
Definition np_mean (values : list Z) : F64.t :=
  F64.div (F64.of_Z (fold_right Z.add 0 values))
          (F64.of_Z (Z.of_nat (length values))).

(** [l[start:stop]] for integers: a negative bound counts from the end,
    and both are clipped to the list. *)
Definition py_slice {A} (l : list A) (start stop : Z) : list A :=
  let n := Z.of_nat (length l) in
  let clip i := if i <? 0 then Z.max 0 (i + n) else Z.min i n in
  firstn (Z.to_nat (clip stop - clip start)) (skipn (Z.to_nat (clip start)) l).

(** [frame[y0:y1, x0:x1]]. *)
Definition region (frame : raster) (y0 y1 x0 x1 : Z) : raster :=
  map (fun row => py_slice row x0 x1) (py_slice frame y0 y1).

(** [roi[:, :, c]], flattened. *)
Definition channel_values (ch : pixel -> Z) (roi : raster) : list Z :=
  map ch (concat roi).

Inductive mouse_event :=
  | EVENT_MOUSEMOVE
  | EVENT_LBUTTONDOWN
  | EVENT_LBUTTONUP
  | EVENT_OTHER.

Module Picker.

(** The fields of the application that the bounding box uses. *)
Record state := State {
  selecting_region : bool;
  x0 : Z; y0 : Z; x1 : Z; y1 : Z;
  color_picked : bool
}.

(** What [pick_color_from_video] sets before the window opens. *)
Definition start : state := State false 0 0 0 0 false.

End Picker.

Definition set_bg_color (self : ChromaKeyApp) (rgb : Z * Z * Z)
  : ChromaKeyApp :=
  App rgb (tolerance self) (softness self) (color_spill self)
      (fg_brightness self) (fg_contrast self) (bg_brightness self)
      (bg_contrast self) (bg_image self) (bg_is_video self)
      (bg_video_is_reversed self) (bg_total_frames self) (bg_index self)
      (bg_frames self) (reverse_bg_check self).

(** The colour of the box: [(int(r_mean), int(g_mean), int(b_mean))];
    [None] when a mean has no integer part. *)
Definition mean_color (roi : raster) : option (Z * Z * Z) :=
  match F64.to_int (np_mean (channel_values chB roi)),
        F64.to_int (np_mean (channel_values chG roi)),
        F64.to_int (np_mean (channel_values chR roi)) with
  | Some b_mean, Some g_mean, Some r_mean => Some (r_mean, g_mean, b_mean)
  | _, _, _ => None
  end.

(** [_pick_color_callback(event, x, y, flags, param)] on the application,
    the bounding box and the foreground capture; [None] is the exception
    that [int] raises on a NaN. *)
Definition _pick_color_callback (self : ChromaKeyApp) (box : Picker.state)
  (fg_cap : cv2.VideoCapture) (event : mouse_event) (x y : Z)
  : option (ChromaKeyApp * Picker.state * cv2.VideoCapture) :=
  match event with
  | EVENT_LBUTTONDOWN =>
      Some (self, Picker.State true x y x y (Picker.color_picked box), fg_cap)
  | EVENT_MOUSEMOVE =>
      if Picker.selecting_region box
      then Some (self,
                 Picker.State true (Picker.x0 box) (Picker.y0 box) x y
                   (Picker.color_picked box),
                 fg_cap)
      else Some (self, box, fg_cap)
  | EVENT_LBUTTONUP =>
      let x0 := Z.min (Picker.x0 box) x in
      let x1 := Z.max (Picker.x0 box) x in
      let y0 := Z.min (Picker.y0 box) y in
      let y1 := Z.max (Picker.y0 box) y in
      let done :=
        Picker.State false (Picker.x0 box) (Picker.y0 box) x y true in
      let '(ret, fg_cap') := cv2.read fg_cap in
      match ret with
      | Some frame =>
          if (x0 <? x1) && (y0 <? y1) then
            match mean_color (region frame y0 y1 x0 x1) with
            | Some rgb => Some (set_bg_color self rgb, done, fg_cap')
            | None => None
            end
          else Some (self, done, fg_cap')
      | None => Some (self, done, fg_cap')
      end
  | EVENT_OTHER => Some (self, box, fg_cap)
  end.

Abbreviation fexp64 := (fexp 53 1024).


(** ** The arrays as objects: the compositor on a store

    To see what a call does to the arrays it is given, the same
    function is followed once more with the arrays as objects in a store.
    A reference is the position of an array in the store; every NumPy or
    OpenCV call that returns an array puts a new one at the end, and an
    assignment into an array ([combined[:, :, 1] = ...]) overwrites it in
    place.  [None] is a failure (a name that does not hold what the code
    expects). *)

Module Heap.

Inductive ndarray :=
  | U8 (a : raster)
  | HSV8 (a : list (list (Z * Z * Z)))
  | Bounds (b : Z * Z * Z)
  | Mask (a : list (list Z))
  | F32x1 (a : list (list F32.t))
  | F32x3 (a : list (list fpixel)).

Definition ref := nat.

Definition heap := list ndarray.

(** [bg_source]: [None], an array, or a capture with its own state. *)
Inductive source :=
  | NoSource
  | ImageSource (r : ref)
  | VideoSource (cap : cv2.VideoCapture).

(** Computations on the store. *)
Definition M (A : Type) := heap -> option (A * heap).

Definition ret {A} (a : A) : M A := fun hp => Some (a, hp).

Definition bind {A B} (m : M A) (f : A -> M B) : M B :=
  fun hp =>
    match m hp with
    | Some (a, hp') => f a hp'
    | None => None
    end.

Definition fail {A} : M A := fun _ => None.

Local Notation "x <- m ;; k" := (bind m (fun x => k))
  (at level 61, m at next level, right associativity).

(** A new array. *)
Definition new (a : ndarray) : M ref :=
  fun hp => Some (length hp, hp ++ [a]).

Definition get (r : ref) : M ndarray :=
  fun hp =>
    match nth_error hp r with
    | Some a => Some (a, hp)
    | None => None
    end.

Definition get_u8 (r : ref) : M raster :=
  a <- get r ;; match a with U8 x => ret x | _ => fail end.

Definition get_hsv (r : ref) : M (list (list (Z * Z * Z))) :=
  a <- get r ;; match a with HSV8 x => ret x | _ => fail end.

Definition get_bounds (r : ref) : M (Z * Z * Z) :=
  a <- get r ;; match a with Bounds x => ret x | _ => fail end.

Definition get_mask (r : ref) : M (list (list Z)) :=
  a <- get r ;; match a with Mask x => ret x | _ => fail end.

Definition get_f32x1 (r : ref) : M (list (list F32.t)) :=
  a <- get r ;; match a with F32x1 x => ret x | _ => fail end.

Definition get_f32x3 (r : ref) : M (list (list fpixel)) :=
  a <- get r ;; match a with F32x3 x => ret x | _ => fail end.

(** The list with its element number [i] replaced. *)
Fixpoint replace (l : heap) (i : nat) (a : ndarray) : heap :=
  match l, i with
  | [], _ => []
  | _ :: tl, O => a :: tl
  | x :: tl, S k => x :: replace tl k a
  end.

(** An assignment into the array at [r]. *)
Definition put (r : ref) (a : ndarray) : M unit :=
  fun hp => if Nat.ltb r (length hp) then Some (tt, replace hp r a) else None.

(** Element-wise arithmetic on three-channel [float32] arrays. *)
Definition triple (a : F32.t) : fpixel := FBGR a a a.

Definition to_float (p : pixel) : fpixel :=
  FBGR (F32.of_Z (chB p)) (F32.of_Z (chG p)) (F32.of_Z (chR p)).

Definition times (x y : fpixel) : fpixel :=
  FBGR (F32.mul (fB x) (fB y)) (F32.mul (fG x) (fG y))
       (F32.mul (fR x) (fR y)).

Definition one_minus (x : fpixel) : fpixel :=
  FBGR (F32.sub F32.one (fB x)) (F32.sub F32.one (fG x))
       (F32.sub F32.one (fR x)).

Definition plus (x y : fpixel) : fpixel :=
  FBGR (F32.add (fB x) (fB y)) (F32.add (fG x) (fG y))
       (F32.add (fR x) (fR y)).

(** Line 72 on one pixel: channel 1 is replaced. *)
Definition spill_green (color_spill : Z) (c : fpixel) : fpixel :=
  FBGR (fB c)
       (F32.clip (F32.sub (fG c) (F32.of_Z color_spill)) F32.zero f255)
       (fR c).

Section Run.

Variable rule : np.promotion.
Variable resize : raster -> nat -> nat -> raster.
Variable GaussianBlur : list (list F32.t) -> Z -> list (list F32.t).

(** Lines 55-74, name by name.  [frame] and [bg_resized] are references;
    so is every array the lines create.  Line 58 fails where the
    tolerance does not fit the type the promotion rule gives it
    ([OverflowError] under [np.Weak]). *)
Definition composite (frame bg_resized : ref) (bg_color_bgr : pixel)
  (tolerance softness color_spill : Z) : M ref :=
  f <- get_u8 frame ;;
  hsv <- new (HSV8 (cv2.cvtColor_BGR2HSV f)) ;;
  key_array <- new (U8 [[bg_color_bgr]]) ;;
  k <- get_u8 key_array ;;
  key_hsv <- new (HSV8 (cv2.cvtColor_BGR2HSV k)) ;;
  t <- get_hsv key_hsv ;;
  match at_ t 0 0 with
  | None => fail
  | Some target_hsv =>
      let target_h := fst (fst target_hsv) in
      if negb (np.fits rule tolerance) then fail else
      lower_bound <-
        new (Bounds (Z.max 0 (np.sub rule target_h tolerance), 50, 50)) ;;
      upper_bound <-
        new (Bounds (Z.min 180 (np.add rule target_h tolerance), 255, 255)) ;;
      h <- get_hsv hsv ;;
      lo <- get_bounds lower_bound ;;
      hi <- get_bounds upper_bound ;;
      mask <- new (Mask (cv2.inRange h lo hi)) ;;
      m <- get_mask mask ;;
      alpha <- new (F32x1 (map2d (fun x => F32.div (F32.of_Z x) f255) m)) ;;
      a0 <- get_f32x1 alpha ;;
      alpha' <- new (F32x1 (GaussianBlur a0 (blur_size softness))) ;;
      a <- get_f32x1 alpha' ;;
      alpha_3 <- new (F32x3 (map2d triple a)) ;;
      a3 <- get_f32x3 alpha_3 ;;
      b <- get_u8 bg_resized ;;
      fg <- new (F32x3 (zip2d times a3 (map2d to_float b))) ;;
      a3' <- get_f32x3 alpha_3 ;;
      f' <- get_u8 frame ;;
      bgf <- new (F32x3 (zip2d times (map2d one_minus a3')
                           (map2d to_float f'))) ;;
      x <- get_f32x3 fg ;;
      y <- get_f32x3 bgf ;;
      combined <- new (F32x3 (zip2d plus x y)) ;;
      _ <- (if 0 <? color_spill
            then c <- get_f32x3 combined ;;
                 put combined (F32x3 (map2d (spill_green color_spill) c))
            else ret tt) ;;
      c <- get_f32x3 combined ;;
      new (U8 (map2d finish1 c))
  end.

(** The whole function: the reference it returns and the background
    source after the call. *)
Definition perform_chroma_key (frame : ref) (bg_source : source)
  (bg_color_bgr : pixel) (tolerance softness color_spill : Z)
  : M (ref * source) :=
  match bg_source with
  | NoSource => ret (frame, bg_source)
  | ImageSource img =>
      f <- get_u8 frame ;;
      let '(h, w) := shape f in
      i <- get_u8 img ;;
      bg_resized <- new (U8 (resize i w h)) ;;
      out <- composite frame bg_resized bg_color_bgr tolerance softness
               color_spill ;;
      ret (out, bg_source)
  | VideoSource cap =>
      f <- get_u8 frame ;;
      let '(h, w) := shape f in
      let '(ret0, cap1) := cv2.read cap in
      let '(ret', cap2) :=
        match ret0 with
        | Some _ => (ret0, cap1)
        | None => cv2.read (cv2.set_pos_frames cap1 0)
        end in
      match ret' with
      | None => ret (frame, VideoSource cap2)
      | Some decoded =>
          bg_frame <- new (U8 decoded) ;;
          b <- get_u8 bg_frame ;;
          bg_resized <- new (U8 (resize b w h)) ;;
          out <- composite frame bg_resized bg_color_bgr tolerance softness
                   color_spill ;;
          ret (out, VideoSource cap2)
      end
  end.

End Run.

(** Every array of the first store is in the second one, as it was. *)
Definition kept (hp hp' : heap) : Prop :=
  forall r a, nth_error hp r = Some a -> nth_error hp' r = Some a.

End Heap.

(** The background source of the store seen as the one of the function
    on values. *)
Definition denotes (hp : Heap.heap) (s : Heap.source) (bg : background)
  : Prop :=
  match s, bg with
  | Heap.NoSource, NoBackground => True
  | Heap.ImageSource r, ImageBackground img =>
      nth_error hp r = Some (Heap.U8 img)
  | Heap.VideoSource cap, VideoBackground cap' => cap = cap'
  | _, _ => False
  end.

(** The source of the store after a call that leaves [bg] on the
    values: only a capture changes. *)
Definition source_after (s : Heap.source) (bg : background) : Heap.source :=
  match s, bg with
  | Heap.VideoSource _, VideoBackground cap' => Heap.VideoSource cap'
  | _, _ => s
  end.

(** ** The reach of the blur

    [cv2.GaussianBlur] is called without a border type, so it extends the
    matte at its edges by [BORDER_REFLECT_101]: the index before 0 is 1,
    the index after [len - 1] is [len - 2], and so on
    ([cv2.borderInterpolate]).  The value at a position comes from the
    window of [k] by [k] positions around it. *)







(** ** Arrays: lookups and shapes *)

Lemma nth_error_map2 {A B C} (f : A -> B -> C) l m i :
  nth_error (map2 f l m) i =
  match nth_error l i, nth_error m i with
  | Some a, Some b => Some (f a b)
  | _, _ => None
  end.
Proof.
  revert m i; induction l as [|a l IH]; intros [|b m] [|i]; simpl; auto.
  destruct (nth_error l i); reflexivity.
Qed.

Lemma length_map2 {A B C} (f : A -> B -> C) l m :
  length l = length m -> length (map2 f l m) = length l.
Proof.
  revert m; induction l as [|a l IH]; intros [|b m] H; simpl in *;
    try discriminate; auto.
Qed.

Lemma at_map2d {A B} (f : A -> B) r i j :
  at_ (map2d f r) i j = option_map f (at_ r i j).
Proof.
  unfold at_, map2d. rewrite nth_error_map.
  destruct (nth_error r i) as [row|]; simpl; auto.
  apply nth_error_map.
Qed.

Lemma at_zip2d {A B C} (f : A -> B -> C) r s i j :
  at_ (zip2d f r s) i j =
  match at_ r i j, at_ s i j with
  | Some a, Some b => Some (f a b)
  | _, _ => None
  end.
Proof.
  unfold at_, zip2d. rewrite nth_error_map2.
  destruct (nth_error r i) as [row|]; simpl; auto.
  destruct (nth_error s i) as [row'|]; simpl.
  - apply nth_error_map2.
  - destruct (nth_error row j); reflexivity.
Qed.

Lemma has_shape_map2d {A B} (f : A -> B) h w r :
  has_shape h w r -> has_shape h w (map2d f r).
Proof.
  intros [Hl Hr]; split; unfold map2d.
  - now rewrite length_map.
  - apply Forall_map. eapply Forall_impl; [|exact Hr].
    intros row Hrow; simpl. now rewrite length_map.
Qed.

Lemma has_shape_zip2d {A B C} (f : A -> B -> C) h w r s :
  has_shape h w r -> has_shape h w s -> has_shape h w (zip2d f r s).
Proof.
  intros [Hl Hr] [Hl' Hs]; split; unfold zip2d.
  - rewrite length_map2; congruence.
  - clear Hl Hl'. revert s Hs; induction Hr as [|row r Hrow Hr IH];
      intros s Hs; destruct Hs as [|row' s Hrow' Hs]; simpl; constructor.
    + rewrite length_map2; congruence.
    + apply IH, Hs.
Qed.

Lemma has_shape_shape {A} h w (r : list (list A)) :
  (0 < h)%nat -> has_shape h w r -> shape r = (h, w).
Proof.
  intros Hh [Hl Hr]. unfold shape. rewrite Hl. f_equal.
  destruct Hr as [|row r Hrow _]; simpl in *; [lia | assumption].
Qed.

Lemma has_shape_at {A} h w (r : list (list A)) i j :
  has_shape h w r -> (i < h)%nat -> (j < w)%nat -> exists x, at_ r i j = Some x.
Proof.
  intros [Hl Hr] Hi Hj. unfold at_.
  destruct (nth_error r i) as [row|] eqn:E.
  - rewrite Forall_forall in Hr.
    pose proof (Hr row (nth_error_In _ _ E)) as Hrow.
    destruct (nth_error row j) as [x|] eqn:E'; eauto.
    apply nth_error_None in E'. lia.
  - apply nth_error_None in E. lia.
Qed.

Lemma at_has_shape {A} h w (r : list (list A)) i j x :
  has_shape h w r -> at_ r i j = Some x -> (i < h)%nat /\ (j < w)%nat.
Proof.
  intros [Hl Hr] H. unfold at_ in H.
  destruct (nth_error r i) as [row|] eqn:E; [|discriminate].
  rewrite Forall_forall in Hr.
  pose proof (Hr row (nth_error_In _ _ E)) as Hrow.
  split.
  - rewrite <- Hl. apply nth_error_Some. congruence.
  - rewrite <- Hrow. apply nth_error_Some. congruence.
Qed.

Lemma has_shapeb_true {A} h w (r : list (list A)) :
  has_shape h w r -> has_shapeb h w r = true.
Proof.
  intros [Hl Hr]. unfold has_shapeb.
  rewrite Hl, Nat.eqb_refl; simpl.
  apply forallb_forall. rewrite Forall_forall in Hr.
  intros row Hin. apply Nat.eqb_eq, Hr, Hin.
Qed.

Lemma resize_ref_same r h w :
  (0 < h)%nat -> (0 < w)%nat -> has_shape h w r -> resize_ref r w h = r.
Proof.
  intros _ _ H. unfold resize_ref. now rewrite (has_shapeb_true _ _ _ H).
Qed.

Lemma blur_ref_one a : blur_ref a 1 = a.
Proof. reflexivity. Qed.

Lemma blur_ref_shape a k h w :
  has_shape h w a -> has_shape h w (blur_ref a k).
Proof.
  intros H. unfold blur_ref. destruct (k =? 1); [assumption|].
  destruct H as [Hl Hr]; split.
  - now rewrite length_map.
  - apply Forall_map. eapply Forall_impl; [|exact Hr].
    intros row Hrow; simpl. now rewrite length_map.
Qed.

Lemma at_ext {A} h w (r s : list (list A)) :
  has_shape h w r -> has_shape h w s ->
  (forall i j, at_ r i j = at_ s i j) -> r = s.
Proof.
  intros [Hlr Hr] [Hls Hs] H. apply nth_error_ext. intros i.
  destruct (nth_error r i) as [row|] eqn:Er, (nth_error s i) as [row'|] eqn:Es.
  - f_equal. apply nth_error_ext. intros j.
    specialize (H i j). unfold at_ in H. now rewrite Er, Es in H.
  - apply nth_error_None in Es.
    assert (i < length r)%nat by (apply nth_error_Some; congruence). lia.
  - apply nth_error_None in Er.
    assert (i < length s)%nat by (apply nth_error_Some; congruence). lia.
  - reflexivity.
Qed.

Lemma at_raster_ok r i j p : raster_ok r -> at_ r i j = Some p -> pixel_ok p.
Proof.
  unfold raster_ok, at_. intros Hok H.
  destruct (nth_error r i) as [row|] eqn:E; [|discriminate].
  rewrite Forall_forall in Hok.
  pose proof (Hok row (nth_error_In _ _ E)) as Hrow.
  rewrite Forall_forall in Hrow. apply Hrow. eapply nth_error_In, H.
Qed.

Lemma length_concat_shape {A} h w (r : list (list A)) :
  has_shape h w r -> length (concat r) = (h * w)%nat.
Proof.
  intros [Hl Hr]. subst h. induction Hr as [|row r Hrow Hr IH]; simpl.
  - reflexivity.
  - rewrite length_app, IH, Hrow. reflexivity.
Qed.


Lemma band_width_binary alpha :
  Forall (Forall (fun a => a = F32.zero \/ a = F32.one)) alpha ->
  band_width alpha = 0%nat.
Proof.
  unfold band_width. induction 1 as [|row r Hrow Hr IH]; simpl.
  - reflexivity.
  - rewrite filter_app, length_app, IH, Nat.add_0_r.
    clear IH Hr. induction Hrow as [|a row Ha Hrow IH]; simpl.
    + reflexivity.
    + destruct Ha as [-> | ->]; simpl; exact IH.
Qed.

(** ** Checking a property on every 8-bit value *)

Lemma upto_In n z : 0 <= z < Z.of_nat n -> In z (upto n).
Proof.
  induction n as [|n IH]; intros H; simpl.
  - lia.
  - destruct (Z.eq_dec z (Z.of_nat n)) as [->|Hne]; [now left|].
    right. apply IH. lia.
Qed.

Lemma forall_upto (P : Z -> bool) n :
  forallb P (upto n) = true -> forall z, 0 <= z < Z.of_nat n -> P z = true.
Proof.
  intros H z Hz. rewrite forallb_forall in H. apply H, upto_In, Hz.
Qed.

Lemma forall_byte (P : Z -> bool) :
  forallb P (upto 256) = true -> forall z, channel_ok z -> P z = true.
Proof.
  intros H z Hz. apply (forall_upto P 256 H). unfold channel_ok in Hz. lia.
Qed.

(** ** binary32 facts on 8-bit values *)

Lemma sf_eqb_eq x y : sf_eqb x y = true -> x = y.
Proof.
  destruct x as [a|a| |a m e], y as [b|b| |b m' e']; simpl; try discriminate;
    try reflexivity.
  - intros H; apply eqb_prop in H; now subst.
  - intros H; apply eqb_prop in H; now subst.
  - intros H. apply andb_prop in H as [H He]. apply andb_prop in H as [Hs Hm].
    apply eqb_prop in Hs. apply Pos.eqb_eq in Hm. apply Z.eqb_eq in He.
    now subst.
Qed.

Ltac by_bytes :=
  let z := fresh "z" in let Hz := fresh "Hz" in
  intros z Hz;
  match goal with
  | |- ?l = ?r =>
      let P := eval pattern z in (sf_eqb l r) in
      match P with
      | ?F z => apply sf_eqb_eq; apply (forall_byte F); [vm_compute; reflexivity | exact Hz]
      end
  end.

Lemma alpha_of_key : F32.div (F32.of_Z 255) f255 = F32.one.
Proof. reflexivity. Qed.

Lemma alpha_of_nonkey : F32.div (F32.of_Z 0) f255 = F32.zero.
Proof. reflexivity. Qed.

Lemma mul_one_byte : forall b, channel_ok b -> F32.mul F32.one (F32.of_Z b) = F32.of_Z b.
Proof. by_bytes. Qed.

Lemma mul_zero_byte : forall b, channel_ok b -> F32.mul F32.zero (F32.of_Z b) = F32.zero.
Proof. by_bytes. Qed.

Lemma add_byte_zero : forall b, channel_ok b -> F32.add (F32.of_Z b) F32.zero = F32.of_Z b.
Proof. by_bytes. Qed.

Lemma add_zero_byte : forall b, channel_ok b -> F32.add F32.zero (F32.of_Z b) = F32.of_Z b.
Proof. by_bytes. Qed.

Lemma astype_clip_byte :
  forall b, channel_ok b -> F32.astype_uint8 (F32.clip (F32.of_Z b) F32.zero f255) = b.
Proof.
  intros b Hb.
  apply Z.eqb_eq.
  apply (forall_byte (fun z => F32.astype_uint8 (F32.clip (F32.of_Z z) F32.zero f255) =? z));
    [vm_compute; reflexivity | exact Hb].
Qed.

(** On a hard matte the blend is exact: the background where the matte
    is 1.0, the frame where it is 0.0. *)
Lemma blend1_one b f :
  channel_ok b -> channel_ok f -> blend1 F32.one b f = F32.of_Z b.
Proof.
  intros Hb Hf. unfold blend1.
  rewrite (mul_one_byte b Hb).
  replace (F32.sub F32.one F32.one) with F32.zero by reflexivity.
  rewrite (mul_zero_byte f Hf). apply add_byte_zero, Hb.
Qed.

Lemma blend1_zero b f :
  channel_ok b -> channel_ok f -> blend1 F32.zero b f = F32.of_Z f.
Proof.
  intros Hb Hf. unfold blend1.
  rewrite (mul_zero_byte b Hb).
  replace (F32.sub F32.one F32.zero) with F32.one by reflexivity.
  rewrite (mul_one_byte f Hf). apply add_zero_byte, Hf.
Qed.

(** ** Ranges of the HSV conversion *)

Lemma shiftr12_mono a b : a <= b -> Z.shiftr a 12 <= Z.shiftr b 12.
Proof.
  intros H. rewrite !Z.shiftr_div_pow2 by lia. apply Z.div_le_mono; lia.
Qed.

Lemma sdiv_table_nonneg v : channel_ok v -> 0 <= cv2.sdiv_table v.
Proof.
  intros H. apply Z.leb_le.
  apply (forall_byte (fun z => 0 <=? cv2.sdiv_table z)); [vm_compute; reflexivity | exact H].
Qed.

Lemma hdiv_table_nonneg d : channel_ok d -> 0 <= cv2.hdiv_table180 d.
Proof.
  intros H. apply Z.leb_le.
  apply (forall_byte (fun z => 0 <=? cv2.hdiv_table180 z)); [vm_compute; reflexivity | exact H].
Qed.

Lemma sat_full_bound v :
  channel_ok v -> Z.shiftr (v * cv2.sdiv_table v + 2048) 12 <= 255.
Proof.
  intros H. apply Z.leb_le.
  apply (forall_byte (fun z => Z.shiftr (z * cv2.sdiv_table z + 2048) 12 <=? 255));
    [vm_compute; reflexivity | exact H].
Qed.

Lemma hue_low_bound d :
  channel_ok d -> -180 <= Z.shiftr (- d * cv2.hdiv_table180 d + 2048) 12.
Proof.
  intros H. apply Z.leb_le.
  apply (forall_byte (fun z => -180 <=? Z.shiftr (- z * cv2.hdiv_table180 z + 2048) 12));
    [vm_compute; reflexivity | exact H].
Qed.

Lemma hue_high_bound d :
  channel_ok d -> Z.shiftr (5 * d * cv2.hdiv_table180 d + 2048) 12 <= 179.
Proof.
  intros H. apply Z.leb_le.
  apply (forall_byte (fun z => Z.shiftr (5 * z * cv2.hdiv_table180 z + 2048) 12 <=? 179));
    [vm_compute; reflexivity | exact H].
Qed.

Lemma val_range p : pixel_ok p -> 0 <= val p <= 255.
Proof.
  intros (Hb & Hg & Hr). unfold val, cv2.bgr2hsv, channel_ok in *; cbv zeta; cbn [fst snd]. lia.
Qed.

Lemma sat_range p : pixel_ok p -> 0 <= sat p <= 255.
Proof.
  intros (Hb & Hg & Hr). unfold sat, cv2.bgr2hsv, channel_ok in *; cbv zeta; cbn [fst snd].
  change (Z.shiftl 1 (cv2.hsv_shift - 1)) with 2048.
  change cv2.hsv_shift with 12.
  set (v := Z.max (Z.max (chB p) (chG p)) (chR p)).
  set (vmin := Z.min (Z.min (chB p) (chG p)) (chR p)).
  assert (Hv : channel_ok v) by (unfold channel_ok, v; lia).
  assert (Hd : 0 <= v - vmin <= v) by (unfold v, vmin; lia).
  pose proof (sdiv_table_nonneg v Hv) as Hs.
  split.
  - change 0 with (Z.shiftr 2048 12) at 1. apply shiftr12_mono. nia.
  - etransitivity; [|apply (sat_full_bound v Hv)]. apply shiftr12_mono. nia.
Qed.

Lemma hue_range p : pixel_ok p -> 0 <= hue p <= 179.
Proof.
  intros (Hb & Hg & Hr). unfold hue, cv2.bgr2hsv, channel_ok in *; cbv zeta; cbn [fst snd].
  change (Z.shiftl 1 (cv2.hsv_shift - 1)) with 2048.
  change cv2.hsv_shift with 12.
  set (v := Z.max (Z.max (chB p) (chG p)) (chR p)).
  set (vmin := Z.min (Z.min (chB p) (chG p)) (chR p)).
  set (d := v - vmin).
  set (h0 := if v =? chR p then chG p - chB p
             else if v =? chG p then chB p - chR p + 2 * d
             else chR p - chG p + 4 * d).
  assert (Hd : channel_ok d) by (unfold channel_ok, d, v, vmin; lia).
  assert (Hh0 : - d <= h0 <= 5 * d).
  { unfold h0. destruct (Z.eqb_spec v (chR p)) as [E|E];
      [|destruct (Z.eqb_spec v (chG p)) as [E'|E']]; unfold d, v, vmin in *; lia. }
  pose proof (hdiv_table_nonneg d Hd) as Hq.
  pose proof (hue_low_bound d Hd) as Hlo.
  pose proof (hue_high_bound d Hd) as Hhi.
  assert (H1 : Z.shiftr (- d * cv2.hdiv_table180 d + 2048) 12
               <= Z.shiftr (h0 * cv2.hdiv_table180 d + 2048) 12)
    by (apply shiftr12_mono; nia).
  assert (H2 : Z.shiftr (h0 * cv2.hdiv_table180 d + 2048) 12
               <= Z.shiftr (5 * d * cv2.hdiv_table180 d + 2048) 12)
    by (apply shiftr12_mono; nia).
  destruct (Z.ltb_spec (Z.shiftr (h0 * cv2.hdiv_table180 d + 2048) 12) 0); lia.
Qed.

(** ** The key mask *)

Lemma inRange1_255 x lo hi :
  cv2.inRange1 x lo hi = 255 \/ cv2.inRange1 x lo hi = 0.
Proof.
  destruct x as [[x0 x1] x2], lo as [[l0 l1] l2], hi as [[u0 u1] u2]; simpl.
  destruct (_ && _); auto.
Qed.

Lemma inRange1_spec x0 x1 x2 l0 l1 l2 u0 u1 u2 :
  cv2.inRange1 (x0, x1, x2) (l0, l1, l2) (u0, u1, u2) = 255 <->
  (l0 <= x0 <= u0) /\ (l1 <= x1 <= u1) /\ (l2 <= x2 <= u2).
Proof.
  simpl.
  destruct (Z.leb_spec l0 x0), (Z.leb_spec x0 u0), (Z.leb_spec l1 x1),
    (Z.leb_spec x1 u1), (Z.leb_spec l2 x2), (Z.leb_spec x2 u2); simpl;
    split; intros; try discriminate; lia.
Qed.

Lemma bgr2hsv_eta p : cv2.bgr2hsv p = (hue p, sat p, val p).
Proof.
  unfold hue, sat, val. destruct (cv2.bgr2hsv p) as [[h s] v]. reflexivity.
Qed.

(** *** The hue bounds under the two promotion rules *)

Lemma np_int64_small z : - 2 ^ 63 <= z < 2 ^ 63 -> np.int64 z = z.
Proof.
  intros H. unfold np.int64. rewrite Z.mod_small; lia.
Qed.

Lemma np_uint8_small z : 0 <= z <= 255 -> np.uint8 z = z.
Proof. intros H. unfold np.uint8. apply Z.mod_small. lia. Qed.

Lemma np_uint8_below z : -256 <= z < 0 -> np.uint8 z = z + 256.
Proof.
  intros H. unfold np.uint8.
  symmetry. apply (Z.mod_unique_pos z 256 (-1) (z + 256)); lia.
Qed.

Lemma np_fits_weak n : np.fits np.Weak n = true <-> 0 <= n <= 255.
Proof. unfold np.fits. rewrite andb_true_iff, !Z.leb_le. reflexivity. Qed.

(** With tolerance 0 both rules leave the hue as it is. *)
Lemma np_sub_zero rule x : 0 <= x <= 255 -> np.sub rule x 0 = x.
Proof.
  intros H. destruct rule; unfold np.sub;
    rewrite Z.sub_0_r; [apply np_int64_small | apply np_uint8_small]; lia.
Qed.

Lemma np_add_zero rule x : 0 <= x <= 255 -> np.add rule x 0 = x.
Proof.
  intros H. destruct rule; unfold np.add;
    rewrite Z.add_0_r; [apply np_int64_small | apply np_uint8_small]; lia.
Qed.

Lemma at_key_mask rule frame key tol i j :
  at_ (key_mask rule frame key tol) i j =
  option_map
    (fun p => cv2.inRange1 (cv2.bgr2hsv p)
                (Z.max 0 (np.sub rule (hue key) tol), 50, 50)
                (Z.min 180 (np.add rule (hue key) tol), 255, 255))
    (at_ frame i j).
Proof.
  unfold key_mask, cv2.inRange, cv2.cvtColor_BGR2HSV.
  rewrite !at_map2d. destruct (at_ frame i j); reflexivity.
Qed.

(** The mask is the test [is_key] made on every pixel. *)
Lemma is_key_spec rule key tol p :
  pixel_ok p ->
  is_key rule key tol p = true <->
  Z.max 0 (np.sub rule (hue key) tol) <= hue p
    <= Z.min 180 (np.add rule (hue key) tol) /\
  50 <= sat p /\ 50 <= val p.
Proof.
  intros Hp. unfold is_key. rewrite Z.eqb_eq, bgr2hsv_eta, inRange1_spec.
  pose proof (sat_range p Hp). pose proof (val_range p Hp). lia.
Qed.

Lemma at_key_mask_is_key rule frame key tol i j :
  at_ (key_mask rule frame key tol) i j
  = option_map (fun p => if is_key rule key tol p then 255 else 0)
      (at_ frame i j).
Proof.
  rewrite at_key_mask. destruct (at_ frame i j) as [p|]; [|reflexivity].
  cbn [option_map]. f_equal. unfold is_key.
  destruct (inRange1_255 (cv2.bgr2hsv p)
              (Z.max 0 (np.sub rule (hue key) tol), 50, 50)
              (Z.min 180 (np.add rule (hue key) tol), 255, 255))
    as [-> | ->]; reflexivity.
Qed.

Lemma spec_is_key_spec key tol p :
  spec_is_key key tol p = true <->
  Z.max 0 (hue key - tol) <= hue p <= Z.min 180 (hue key + tol) /\
  50 <= sat p /\ 50 <= val p.
Proof.
  unfold spec_is_key. rewrite !andb_true_iff, !Z.leb_le. tauto.
Qed.

(** Two tests that accept the same pixels are the same test. *)
Lemma bool_eq_iff (a b : bool) : (a = true <-> b = true) -> a = b.
Proof. destruct a, b; intuition congruence. Qed.

(** Where neither bound leaves the range of the type, the two rules
    give the interval of the specification. *)
Lemma is_key_no_wrap rule key tol p :
  pixel_ok p ->
  np.sub rule (hue key) tol = hue key - tol ->
  np.add rule (hue key) tol = hue key + tol ->
  is_key rule key tol p = spec_is_key key tol p.
Proof.
  intros Hp Hsub Hadd. apply bool_eq_iff.
  rewrite (is_key_spec rule key tol p Hp), spec_is_key_spec, Hsub, Hadd.
  reflexivity.
Qed.

Lemma exact_bounds_spec rule h tol :
  exact_bounds rule h tol = true ->
  0 <= h <= 179 ->
  np.sub rule h tol = h - tol /\ np.add rule h tol = h + tol.
Proof.
  destruct rule; unfold exact_bounds, np.sub, np.add;
    rewrite ?andb_true_iff, ?Z.leb_le; intros H Hh.
  - split; apply np_int64_small; lia.
  - split; apply np_uint8_small; lia.
Qed.

(** Under [Weak], a tolerance above the hue of the key colour wraps the
    lower bound around to [hue key - tol + 256]; as long as that is above
    179, the highest hue there is, no pixel passes. *)
Lemma is_key_weak_wrapped key tol p :
  pixel_ok key -> pixel_ok p ->
  hue key < tol < hue key + 77 -> tol <= 255 ->
  is_key np.Weak key tol p = false.
Proof.
  intros Hk Hp Ht Ht'.
  pose proof (hue_range key Hk). pose proof (hue_range p Hp).
  destruct (is_key np.Weak key tol p) eqn:E; [|reflexivity]. exfalso.
  apply (is_key_spec np.Weak key tol p Hp) in E. destruct E as ((Hlo & _) & _).
  unfold np.sub in Hlo. rewrite np_uint8_below in Hlo by lia. lia.
Qed.


(** ** binary32: subtracting an integer

    The facts about [SpecFloat] rounding that the flat spill reduction
    needs: a representable value is rounded to itself, a rounded value
    keeps its sign, and a large integer stays large. *)

(** *** Number of binary digits *)
Lemma digits2_pos_size p : digits2_pos p = Pos.size p.
Proof. induction p; simpl; congruence. Qed.

Lemma digits_bounds p :
  2 ^ (Zpos (digits2_pos p) - 1) <= Zpos p < 2 ^ Zpos (digits2_pos p).
Proof.
  rewrite digits2_pos_size.
  pose proof (Pos.size_gt p) as Hgt. pose proof (Pos.size_le p) as Hle.
  split.
  - apply Pos2Z.pos_le_pos in Hle. rewrite Pos2Z.inj_pow in Hle.
    replace (Zpos (Pos.size p)) with (Z.succ (Zpos (Pos.size p) - 1)) in Hle by lia.
    rewrite Z.pow_succ_r in Hle by lia. lia.
  - apply Pos2Z.pos_lt_pos in Hgt. now rewrite Pos2Z.inj_pow in Hgt.
Qed.

Lemma digits_unique p d :
  2 ^ (d - 1) <= Zpos p < 2 ^ d -> Zpos (digits2_pos p) = d.
Proof.
  intros [Hlo Hhi]. pose proof (digits_bounds p) as [Hlo' Hhi'].
  assert (0 < d).
  { destruct (Z.ltb_spec 0 d); auto. exfalso.
    destruct (Z.eq_dec d 0) as [->|]; [simpl in Hhi; lia|].
    rewrite Z.pow_neg_r in Hhi by lia. lia. }
  destruct (Z.lt_trichotomy (Zpos (digits2_pos p)) d) as [Hlt|[Heq|Hgt]]; auto.
  - assert (2 ^ Zpos (digits2_pos p) <= 2 ^ (d - 1)) by (apply Z.pow_le_mono_r; lia). lia.
  - assert (2 ^ d <= 2 ^ (Zpos (digits2_pos p) - 1)) by (apply Z.pow_le_mono_r; lia). lia.
Qed.

Lemma digits_mul_pow2 p k q :
  0 <= k -> Zpos q = Zpos p * 2 ^ k ->
  Zpos (digits2_pos q) = Zpos (digits2_pos p) + k.
Proof.
  intros Hk Hq. apply digits_unique. rewrite Hq.
  pose proof (digits_bounds p) as [Hlo Hhi].
  replace (Zpos (digits2_pos p) + k - 1) with ((Zpos (digits2_pos p) - 1) + k) by lia.
  rewrite !Z.pow_add_r by lia.
  assert (0 < 2 ^ k) by (apply Z.pow_pos_nonneg; lia).
  split; nia.
Qed.

Lemma iter_xO m d : Zpos (Pos.iter xO m d) = Zpos m * 2 ^ Zpos d.
Proof.
  induction d using Pos.peano_ind.
  - simpl. lia.
  - rewrite Pos.iter_succ, Pos2Z.inj_succ, Z.pow_succ_r by lia.
    rewrite Pos2Z.inj_xO, IHd. lia.
Qed.

(** *** Shifting the mantissa right *)
Lemma iter_pos_nat {A} (f : A -> A) p : forall x,
  iter_pos f p x = Nat.iter (Pos.to_nat p) f x.
Proof.
  induction p as [p IH|p IH|]; intros x; simpl iter_pos.
  - rewrite !IH, Pos2Nat.inj_xI. simpl Nat.mul. rewrite Nat.add_0_r.
    rewrite Nat.iter_succ_r, Nat.iter_add. reflexivity.
  - rewrite !IH, Pos2Nat.inj_xO. simpl Nat.mul. rewrite Nat.add_0_r.
    rewrite Nat.iter_add. reflexivity.
  - reflexivity.
Qed.

Lemma shr_1_spec mrs :
  0 <= shr_m mrs ->
  shr_m (shr_1 mrs) = shr_m mrs / 2 /\
  shr_r (shr_1 mrs) = Z.odd (shr_m mrs) /\
  shr_s (shr_1 mrs) = shr_r mrs || shr_s mrs.
Proof.
  destruct mrs as [m r s]; simpl. intros Hm.
  rewrite <- Z.div2_div.
  destruct m as [|[p|p|]|p]; simpl; auto; lia.
Qed.

Lemma shr_iter n m :
  0 <= m ->
  let r := Nat.iter n shr_1 (Build_shr_record m false false) in
  shr_m r = m / 2 ^ Z.of_nat n /\
  (m mod 2 ^ Z.of_nat n = 0 -> shr_r r = false /\ shr_s r = false).
Proof.
  intros Hm. induction n as [|n IH].
  - simpl. rewrite Z.div_1_r. auto.
  - cbn zeta in *. rewrite Nat.iter_succ.
    set (r := Nat.iter n shr_1 _) in *. destruct IH as [IHm IHe].
    assert (Hp : 0 < 2 ^ Z.of_nat n) by (apply Z.pow_pos_nonneg; lia).
    assert (Hr : 0 <= shr_m r) by (rewrite IHm; apply Z.div_pos; lia).
    destruct (shr_1_spec r Hr) as (H1 & H2 & H3).
    rewrite Nat2Z.inj_succ, Z.pow_succ_r by lia.
    split.
    + rewrite H1, IHm, Z.div_div by lia. f_equal. lia.
    + intros Hmod.
      assert (Hmod' : m mod 2 ^ Z.of_nat n = 0).
      { apply Z.mod_divide in Hmod; [|lia]. apply Z.mod_divide; [lia|].
        destruct Hmod as [q Hq]. exists (q * 2). lia. }
      destruct (IHe Hmod') as [Er Es].
      rewrite H2, H3, Er, Es, IHm. split; [|reflexivity].
      apply Z.mod_divide in Hmod; [|lia]. destruct Hmod as [q Hq].
      rewrite Hq. replace (q * (2 * 2 ^ Z.of_nat n)) with ((q * 2) * 2 ^ Z.of_nat n) by lia.
      rewrite Z.div_mul by lia. rewrite Z.odd_mul. simpl. apply andb_false_r.
Qed.

Lemma shr_exact m e n :
  0 <= m -> 0 <= n -> m mod 2 ^ n = 0 ->
  shr (Build_shr_record m false false) e n
  = (Build_shr_record (m / 2 ^ n) false false, e + n).
Proof.
  intros Hm Hn Hmod. unfold shr. destruct n as [|p|p]; [| |lia].
  - now rewrite Z.div_1_r, Z.add_0_r.
  - rewrite iter_pos_nat.
    pose proof (shr_iter (Pos.to_nat p) m Hm) as H. cbn zeta in H.
    rewrite positive_nat_Z in H. destruct H as [H1 H2].
    destruct (H2 Hmod) as [Er Es].
    destruct (Nat.iter _ _ _) as [m' r' s']; simpl in *. congruence.
Qed.

Lemma shr_floor m e n :
  0 <= m -> 0 <= n ->
  shr_m (fst (shr (Build_shr_record m false false) e n)) = m / 2 ^ n /\
  snd (shr (Build_shr_record m false false) e n) = e + n.
Proof.
  intros Hm Hn. unfold shr. destruct n as [|p|p]; [| |lia]; simpl fst; simpl snd.
  - simpl. rewrite Z.div_1_r. lia.
  - rewrite iter_pos_nat.
    pose proof (shr_iter (Pos.to_nat p) m Hm) as H. cbn zeta in H.
    rewrite positive_nat_Z in H. destruct H as [H1 _]. auto.
Qed.

(** *** Rounding a representable value *)
Lemma fexp32_eq e : fexp32 e = Z.max (e - 24) (-149).
Proof. reflexivity. Qed.

Lemma binary_round_aux_exact sx mx ex n q :
  n = fexp32 (Zpos (digits2_pos mx) + ex) - ex ->
  0 <= n -> Zpos mx = Zpos q * 2 ^ n -> ex + n <= 104 ->
  binary_round_aux 24 128 sx (Zpos mx) ex loc_Exact = S754_finite sx q (ex + n).
Proof.
  intros Hn Hn0 Hq Hle.
  assert (Hp : 0 < 2 ^ n) by (apply Z.pow_pos_nonneg; lia).
  assert (Hdiv : Zpos mx / 2 ^ n = Zpos q) by (rewrite Hq; apply Z.div_mul; lia).
  assert (Hmod : Zpos mx mod 2 ^ n = 0) by (rewrite Hq; apply Z.mod_mul; lia).
  pose proof (digits_mul_pow2 q n mx Hn0 Hq) as Hd.
  unfold binary_round_aux, shr_fexp. cbn [shr_record_of_loc Zdigits2].
  rewrite <- Hn, (shr_exact (Zpos mx) ex n (Pos2Z.is_nonneg mx) Hn0 Hmod), Hdiv.
  cbn [shr_m loc_of_shr_record round_nearest_even shr_record_of_loc Zdigits2].
  replace (fexp32 (Zpos (digits2_pos q) + (ex + n)) - (ex + n)) with 0
    by (replace (Zpos (digits2_pos q) + (ex + n)) with (Zpos (digits2_pos mx) + ex) by lia; lia).
  cbn [shr shr_m].
  replace (ex + n <=? 128 - 24) with true by (symmetry; apply Z.leb_le; lia).
  reflexivity.
Qed.

Lemma binary_round_exact sx mx ex M e :
  -149 <= e -> Zpos (digits2_pos M) <= 24 -> Zpos (digits2_pos M) + e <= 128 ->
  ex <= e -> Zpos mx = Zpos M * 2 ^ (e - ex) ->
  exists m' e',
    binary_round 24 128 sx mx ex = S754_finite sx m' e' /\
    e' = fexp32 (Zpos (digits2_pos M) + e) /\ e' <= e /\
    Zpos m' = Zpos M * 2 ^ (e - e').
Proof.
  intros He Hd Hov Hex Hmx.
  pose proof (digits_mul_pow2 M (e - ex) mx ltac:(lia) Hmx) as Hdmx.
  set (e' := fexp32 (Zpos (digits2_pos M) + e)).
  assert (He' : e' <= e /\ -149 <= e' /\ e' <= 104) by (unfold e'; rewrite fexp32_eq; lia).
  unfold binary_round.
  replace (Zpos (digits2_pos mx) + ex) with (Zpos (digits2_pos M) + e) by lia.
  fold e'. unfold shl_align.
  destruct (e' - ex) as [|p|p] eqn:Hdiff.
  - (* no shift at all *)
    exists mx, ex. assert (ex = e') by lia. subst ex.
    rewrite (binary_round_aux_exact sx mx e' 0 mx); rewrite ?Z.add_0_r; try lia.
    + repeat split; try lia. 
    + replace (Zpos (digits2_pos mx) + e') with (Zpos (digits2_pos M) + e) by lia.
      fold e'. lia.
  - (* the mantissa has too many bits: they are zeros *)
    assert (Hq : exists q, Zpos q = Zpos M * 2 ^ (e - e')).
    { assert (0 < Zpos M * 2 ^ (e - e')) by (apply Z.mul_pos_pos; [lia | apply Z.pow_pos_nonneg; lia]).
      destruct (Zpos M * 2 ^ (e - e')) as [|q|q] eqn:E; try lia. now exists q. }
    destruct Hq as [q Hq]. exists q, e'.
    rewrite (binary_round_aux_exact sx mx ex (Zpos p) q).
    + replace (ex + Zpos p) with e' by lia. repeat split; lia.
    + replace (Zpos (digits2_pos mx) + ex) with (Zpos (digits2_pos M) + e) by lia.
      fold e'. lia.
    + lia.
    + rewrite Hmx, Hq, <- Z.mul_assoc, <- Z.pow_add_r by lia. do 2 f_equal. lia.
    + lia.
  - (* the mantissa is shifted left *)
    exists (Pos.iter xO mx p), e'.
    assert (Hz : Zpos (Pos.iter xO mx p) = Zpos M * 2 ^ (e - e')).
    { rewrite iter_xO, Hmx, <- Z.mul_assoc, <- Z.pow_add_r by lia. do 2 f_equal. lia. }
    rewrite (binary_round_aux_exact sx (Pos.iter xO mx p) e' 0 (Pos.iter xO mx p));
      rewrite ?Z.add_0_r; try lia.
    + repeat split; lia.
    + rewrite (digits_mul_pow2 M (e - e') _ ltac:(lia) Hz).
      replace (Zpos (digits2_pos M) + (e - e') + e') with (Zpos (digits2_pos M) + e) by lia.
      fold e'. lia.
Qed.

(** *** Sign of a rounded value *)

Lemma shr_m_nonneg m e n :
  0 <= m -> 0 <= shr_m (fst (shr (Build_shr_record m false false) e n)).
Proof.
  intros Hm. destruct (Z.le_gt_cases 0 n) as [Hn|Hn].
  - rewrite (proj1 (shr_floor m e n Hm Hn)). apply Z.div_pos; [lia|].
    apply Z.pow_pos_nonneg; lia.
  - destruct n; try lia. exact Hm.
Qed.

Lemma round_nearest_even_bounds m l :
  m <= round_nearest_even m l <= m + 1.
Proof.
  destruct l as [|[| |]]; simpl; try lia. destruct (Z.even m); lia.
Qed.

Lemma binary_round_aux_sign sx mx ex :
  has_sign sx (binary_round_aux 24 128 sx (Zpos mx) ex loc_Exact).
Proof.
  unfold binary_round_aux, shr_fexp. cbn [shr_record_of_loc].
  pose proof (shr_m_nonneg (Zpos mx) ex
                (fexp32 (Zdigits2 (Zpos mx) + ex) - ex) ltac:(lia)) as H1.
  destruct (shr _ ex _) as [mrs' e']. cbn [fst] in H1.
  pose proof (round_nearest_even_bounds (shr_m mrs') (loc_of_shr_record mrs')) as H2.
  set (m1 := round_nearest_even _ _) in *.
  pose proof (shr_m_nonneg m1 e' (fexp32 (Zdigits2 m1 + e') - e') ltac:(lia)) as H3.
  destruct (shr _ e' _) as [mrs'' e'']. cbn [fst] in H3.
  destruct (shr_m mrs'') as [|p|p]; simpl; try lia; auto.
  destruct (e'' <=? _); simpl; auto.
Qed.

Lemma binary_round_sign sx mx ex : has_sign sx (binary_round 24 128 sx mx ex).
Proof.
  unfold binary_round. destruct (shl_align _ _ _) as [mz ez].
  apply binary_round_aux_sign.
Qed.

(** *** Rounding a large integer *)
Lemma binary_round_big sx mx :
  25 <= Zpos (digits2_pos mx) ->
  match binary_round 24 128 sx mx 0 with
  | S754_finite s m e => s = sx /\ 1 <= e /\ 2 ^ 23 <= Zpos m
  | S754_infinity s => s = sx
  | _ => False
  end.
Proof.
  intros Hd. pose proof (digits_bounds mx) as [Hlo Hhi].
  assert (Ef : fexp32 (Zpos (digits2_pos mx) + 0) = Zpos (digits2_pos mx) - 24)
    by (rewrite fexp32_eq; lia).
  unfold binary_round, shl_align. rewrite Ef.
  destruct (Zpos (digits2_pos mx) - 24 - 0) as [|p|p] eqn:Hn; try lia.
  unfold binary_round_aux, shr_fexp. cbn [shr_record_of_loc Zdigits2].
  rewrite Ef, Hn.
  pose proof (shr_floor (Zpos mx) 0 (Zpos p) ltac:(lia) ltac:(lia)) as [H1 H1e].
  destruct (shr _ 0 (Zpos p)) as [mrs' e']. cbn [fst snd] in H1, H1e. subst e'.
  assert (Hp : 0 < 2 ^ Zpos p) by (apply Z.pow_pos_nonneg; lia).
  assert (Hm0 : 2 ^ 23 <= shr_m mrs').
  { rewrite H1. apply Z.div_le_lower_bound; [lia|].
    rewrite Z.mul_comm, <- Z.pow_add_r by lia.
    replace (23 + Zpos p) with (Zpos (digits2_pos mx) - 1) by lia. exact Hlo. }
  pose proof (round_nearest_even_bounds (shr_m mrs') (loc_of_shr_record mrs')) as H2.
  destruct (round_nearest_even (shr_m mrs') (loc_of_shr_record mrs')) as [|q|q];
    try lia.
  cbn [Zdigits2].
  pose proof (digits_bounds q) as [Hqlo Hqhi].
  assert (Hdq : 24 <= Zpos (digits2_pos q)).
  { destruct (Z.le_gt_cases 24 (Zpos (digits2_pos q))); auto.
    assert (2 ^ Zpos (digits2_pos q) <= 2 ^ 23) by (apply Z.pow_le_mono_r; lia).
    lia. }
  assert (Ef' : fexp32 (Zpos (digits2_pos q) + (0 + Zpos p)) - (0 + Zpos p)
                = Zpos (digits2_pos q) - 24) by (rewrite fexp32_eq; lia).
  rewrite Ef'.
  pose proof (shr_floor (Zpos q) (0 + Zpos p) (Zpos (digits2_pos q) - 24)
                ltac:(lia) ltac:(lia)) as [H3 H3e].
  destruct (shr _ (0 + Zpos p) _) as [mrs'' e'']. cbn [fst snd] in H3, H3e.
  assert (Hpq : 0 < 2 ^ (Zpos (digits2_pos q) - 24)) by (apply Z.pow_pos_nonneg; lia).
  assert (Hm2 : 2 ^ 23 <= shr_m mrs'').
  { rewrite H3. apply Z.div_le_lower_bound; [lia|].
    rewrite Z.mul_comm, <- Z.pow_add_r by lia.
    replace (23 + (Zpos (digits2_pos q) - 24)) with (Zpos (digits2_pos q) - 1) by lia.
    exact Hqlo. }
  destruct (shr_m mrs'') as [|r|r]; try lia.
  destruct (e'' <=? _); [|reflexivity].
  repeat split; lia.
Qed.

(** *** The final conversion to 8 bits *)
Lemma F32_zero_eq : F32.zero = S754_zero false.
Proof. reflexivity. Qed.

Lemma f255_eq : f255 = S754_finite false 16711680 (-16).
Proof. reflexivity. Qed.

Lemma to_uint8_range x : 0 <= to_uint8 x <= 255.
Proof.
  unfold to_uint8, F32.astype_uint8.
  destruct (F32.trunc _); [|lia].
  pose proof (Z.mod_pos_bound z 256 ltac:(lia)). lia.
Qed.

Lemma to_uint8_clip y : to_uint8 (F32.clip y F32.zero f255) = to_uint8 y.
Proof.
  unfold to_uint8. f_equal.
  unfold F32.clip at 2 3.
  destruct y as [s|s| |s m e]; try reflexivity.
  - destruct s; reflexivity.
  - destruct (F32.ltb (S754_finite s m e) F32.zero) eqn:E1; [reflexivity|].
    destruct (F32.ltb f255 (S754_finite s m e)) eqn:E2; [reflexivity|].
    unfold F32.clip. now rewrite E1, E2.
Qed.

Lemma to_uint8_negative x : has_sign true x -> to_uint8 x = 0.
Proof.
  destruct x as [s|s| |s m e]; simpl; intros H; try contradiction; subst; reflexivity.
Qed.

Lemma canonical_small m e :
  bounded 24 128 m e = true -> Zpos (digits2_pos m) + e <= 8 ->
  -149 <= e <= -16 /\ Zpos (digits2_pos m) <= 24 /\
  fexp32 (Zpos (digits2_pos m) + e) = e.
Proof.
  unfold bounded, canonical_mantissa. intros H Hd.
  apply andb_prop in H as [Hc _]. apply Z.eqb_eq in Hc.
  pose proof Hc as Hc'. rewrite fexp32_eq in Hc'. lia.
Qed.

Lemma to_uint8_small m e :
  bounded 24 128 m e = true -> Zpos (digits2_pos m) + e <= 8 ->
  to_uint8 (S754_finite false m e) = Zpos m / 2 ^ (- e).
Proof.
  intros Hb Hd. destruct (canonical_small m e Hb Hd) as (He & Hdm & _).
  pose proof (digits_bounds m) as [_ Hhi].
  assert (Hp : 0 < 2 ^ (- e)) by (apply Z.pow_pos_nonneg; lia).
  assert (Hq : 0 <= Zpos m / 2 ^ (- e) < 256).
  { split; [apply Z.div_pos; lia|]. apply Z.div_lt_upper_bound; [lia|].
    change 256 with (2 ^ 8). rewrite <- Z.pow_add_r by lia.
    eapply Z.lt_le_trans; [exact Hhi|]. apply Z.pow_le_mono_r; lia. }
  unfold to_uint8, F32.clip, F32.ltb, SFltb.
  rewrite F32_zero_eq, f255_eq. cbn [SFcompare].
  destruct (Z.compare_spec (-16) e) as [E|E|E]; try lia.
  - subst e. change (2 ^ (- -16)) with 65536 in *.
    destruct (Pos.compare_cont Eq 16711680 m) eqn:C.
    + unfold F32.astype_uint8, F32.trunc. cbn [Z.leb Z.compare].
      rewrite Z.shiftr_div_pow2 by lia. change (2 ^ (- -16)) with 65536.
      apply Z.mod_small. lia.
    + change (Pos.compare_cont Eq 16711680 m) with (Pos.compare 16711680 m) in C.
      apply Pos.compare_lt_iff in C.
      assert (Zpos m / 65536 = 255).
      { apply Pos2Z.pos_lt_pos in C.
        assert (16711680 <= Zpos m) by lia.
        assert (Zpos m < 2 ^ 24) by (eapply Z.lt_le_trans; [exact Hhi|]; apply Z.pow_le_mono_r; lia).
        change (2 ^ 24) with 16777216 in *.
        symmetry. apply (Z.div_unique (Zpos m) 65536 255 (Zpos m - 16711680)); lia. }
      rewrite H. reflexivity.
    + unfold F32.astype_uint8, F32.trunc. cbn [Z.leb Z.compare].
      rewrite Z.shiftr_div_pow2 by lia. change (2 ^ (- -16)) with 65536.
      apply Z.mod_small. lia.
  - unfold F32.astype_uint8, F32.trunc.
    replace (0 <=? e) with false by (symmetry; apply Z.leb_gt; lia).
    rewrite Z.shiftr_div_pow2 by lia. apply Z.mod_small. lia.
Qed.

Lemma shl_align_val m e ez :
  ez <= e -> Zpos (fst (shl_align m e ez)) = Zpos m * 2 ^ (e - ez).
Proof.
  intros H. unfold shl_align. destruct (ez - e) as [|d|d] eqn:E; try lia; cbn [fst].
  - replace (e - ez) with 0 by lia. simpl. lia.
  - rewrite iter_xO. do 2 f_equal. lia.
Qed.

Lemma digits_le p q : Zpos p <= Zpos q -> Zpos (digits2_pos p) <= Zpos (digits2_pos q).
Proof.
  intros H. pose proof (digits_bounds p) as [Hlo _].
  pose proof (digits_bounds q) as [_ Hhi].
  destruct (Z.le_gt_cases (Zpos (digits2_pos p)) (Zpos (digits2_pos q))); auto.
  assert (2 ^ Zpos (digits2_pos q) <= 2 ^ (Zpos (digits2_pos p) - 1))
    by (apply Z.pow_le_mono_r; lia).
  lia.
Qed.

(** *** The binary32 value of a positive integer *)
Lemma of_Z_small p :
  Zpos (digits2_pos p) <= 24 ->
  exists ms es,
    F32.of_Z (Zpos p) = S754_finite false ms es /\
    -23 <= es <= 0 /\ Zpos ms = Zpos p * 2 ^ (- es).
Proof.
  intros Hd.
  destruct (binary_round_exact false p 0 p 0) as (ms & es & Hr & Hes & Hle & Hms);
    try lia.
  exists ms, es. split; [exact Hr|].
  rewrite fexp32_eq in Hes. pose proof (Pos2Z.is_pos (digits2_pos p)).
  split; [lia|]. rewrite Hms. do 2 f_equal.
Qed.

Lemma of_Z_big p :
  25 <= Zpos (digits2_pos p) ->
  F32.of_Z (Zpos p) = S754_infinity false \/
  exists ms es, F32.of_Z (Zpos p) = S754_finite false ms es /\
                1 <= es /\ 2 ^ 23 <= Zpos ms.
Proof.
  intros Hd. pose proof (binary_round_big false p Hd) as H.
  unfold F32.of_Z, binary_normalize, F32.prec, F32.emax.
  destruct (binary_round 24 128 false p 0) as [s|s| |s m e]; try contradiction.
  - left. now subst.
  - right. destruct H as (-> & He & Hm). eauto.
Qed.

(** *** Subtracting a larger number *)
Lemma sub_negative sc m e ms es :
  (sc = true \/
   Zpos m * 2 ^ (e - Z.min e es) < Zpos ms * 2 ^ (es - Z.min e es)) ->
  has_sign true (F32.sub (S754_finite sc m e) (S754_finite false ms es)).
Proof.
  intros H. unfold F32.sub, SFsub, F32.prec, F32.emax. cbn zeta.
  rewrite !shl_align_val by lia.
  set (A := Zpos m * 2 ^ (e - Z.min e es)) in *.
  set (B := Zpos ms * 2 ^ (es - Z.min e es)) in *.
  assert (HA : 0 < A) by (apply Z.mul_pos_pos; [lia | apply Z.pow_pos_nonneg; lia]).
  assert (HB : 0 < B) by (apply Z.mul_pos_pos; [lia | apply Z.pow_pos_nonneg; lia]).
  cbn [cond_Zopp].
  assert (HD : cond_Zopp sc A - B < 0) by (destruct sc; simpl; destruct H; try discriminate; lia).
  destruct (cond_Zopp sc A - B) as [|d|d]; try lia.
  apply binary_round_sign.
Qed.

Lemma below_256_finite m e :
  below_256 (S754_finite false m e) = true ->
  bounded 24 128 m e = true /\ Zpos (digits2_pos m) + e <= 8.
Proof.
  simpl. intros H. apply andb_prop in H as [Hb Hd]. apply Z.leb_le in Hd. auto.
Qed.

(** The flat reduction on a displayable value: subtracting a positive
    integer in binary32 and converting gives the converted value reduced
    by that integer and clamped. *)
Lemma spill_sub c s :
  below_256 c = true -> 0 < s ->
  to_uint8 (F32.sub c (F32.of_Z s)) = Z.max 0 (Z.min 255 (to_uint8 c - s)).
Proof.
  intros Hc Hs. destruct s as [|p|p]; try lia.
  pose proof (to_uint8_range c) as Hrange.
  pose proof (digits_bounds p) as [Hplo Hphi].
  destruct (Z.le_gt_cases 25 (Zpos (digits2_pos p))) as [Hbig|Hsmall].
  - (* the integer exceeds every 8-bit value *)
    assert (Hp : 2 ^ 24 <= Zpos p)
      by (eapply Z.le_trans; [|exact Hplo]; apply Z.pow_le_mono_r; lia).
    change (2 ^ 24) with 16777216 in Hp.
    replace (Z.max 0 (Z.min 255 (to_uint8 c - Zpos p))) with 0 by lia.
    apply to_uint8_negative.
    destruct (of_Z_big p Hbig) as [Hinf | (ms & es & Hof & Hes & Hms)].
    + rewrite Hinf.
      destruct c as [sc|sc| |sc m e]; simpl in Hc; try discriminate;
        try subst sc; reflexivity.
    + rewrite Hof. destruct c as [sc|sc| |sc m e]; simpl in Hc; try discriminate.
      * reflexivity.
      * subst sc. reflexivity.
      * apply sub_negative. destruct sc; [now left | right].
        destruct (below_256_finite m e Hc) as [Hb Hd].
        destruct (canonical_small m e Hb Hd) as (He & Hdm & _).
        pose proof (digits_bounds m) as [_ Hmhi].
        rewrite Z.min_l by lia. rewrite Z.sub_diag, Z.pow_0_r, Z.mul_1_r.
        assert (Zpos m < 2 ^ 24)
          by (eapply Z.lt_le_trans; [exact Hmhi|]; apply Z.pow_le_mono_r; lia).
        assert (2 ^ 1 <= 2 ^ (es - e)) by (apply Z.pow_le_mono_r; lia).
        change (2 ^ 24) with (2 ^ 23 * 2 ^ 1) in *. nia.
  - (* the integer is a binary32 number *)
    destruct (of_Z_small p ltac:(lia)) as (ms & es & Hof & Hes & Hms).
    rewrite Hof.
    destruct c as [sc|sc| |sc m e]; simpl in Hc; try discriminate.
    + replace (to_uint8 (S754_zero sc)) with 0 by reflexivity.
      rewrite to_uint8_negative by reflexivity. lia.
    + subst sc. replace (to_uint8 (S754_infinity true)) with 0 by reflexivity.
      rewrite to_uint8_negative by reflexivity. lia.
    + destruct sc.
      * rewrite (to_uint8_negative (S754_finite true m e)) by reflexivity.
        rewrite to_uint8_negative by (apply sub_negative; now left). lia.
      * destruct (below_256_finite m e Hc) as [Hb Hd].
        destruct (canonical_small m e Hb Hd) as (He & Hdm & Hcan).
        rewrite (to_uint8_small m e Hb Hd) in *.
        set (ez := Z.min e es).
        assert (Hez : ez <= e /\ ez <= es) by (unfold ez; lia).
        set (K := 2 ^ (- e)). set (L := 2 ^ (e - ez)).
        assert (HK : 0 < K) by (apply Z.pow_pos_nonneg; lia).
        assert (HL : 0 < L) by (apply Z.pow_pos_nonneg; lia).
        assert (HB : Zpos ms * 2 ^ (es - ez) = Zpos p * K * L).
        { rewrite Hms. unfold K, L.
          rewrite <- !Z.mul_assoc, <- !Z.pow_add_r by lia. do 2 f_equal. lia. }
        fold K in Hrange |- *.
        destruct (Z.lt_trichotomy (Zpos m) (Zpos p * K)) as [Hlt|[Heq|Hgt]].
        -- (* below the integer *)
           rewrite to_uint8_negative.
           ++ assert (Zpos m / K < Zpos p) by (apply Z.div_lt_upper_bound; lia). lia.
           ++ apply sub_negative. right. fold ez. fold L. rewrite HB. nia.
        -- (* equal to the integer *)
           assert (Hq : Zpos m / K = Zpos p) by (rewrite Heq; apply Z.div_mul; lia).
           rewrite Hq.
           unfold F32.sub, SFsub, F32.prec, F32.emax. cbn zeta. fold ez.
           rewrite !shl_align_val by lia. fold L. rewrite HB, Heq. cbn [cond_Zopp].
           rewrite Z.sub_diag. cbn [binary_normalize].
           replace (to_uint8 (S754_zero false)) with 0 by reflexivity. lia.
        -- (* above the integer: the difference is exact *)
           destruct (Zpos m - Zpos p * K) as [|q|q] eqn:EM; try lia.
           assert (Hqm : Zpos q <= Zpos m) by lia.
           pose proof (digits_le q m Hqm) as Hdq.
           unfold F32.sub, SFsub, F32.prec, F32.emax. cbn zeta. fold ez.
           rewrite !shl_align_val by lia. fold L. rewrite HB. cbn [cond_Zopp].
           replace (Zpos m * L - Zpos p * K * L) with (Zpos q * L) by lia.
           destruct (Zpos q * L) as [|dd|dd] eqn:ED; try lia.
           cbn [binary_normalize].
           destruct (binary_round_exact false dd ez q e)
             as (m' & e' & Hr & He' & Hle & Hm');
             try lia; try (rewrite <- ED; reflexivity).
           rewrite Hr.
           pose proof (digits_mul_pow2 q (e - e') m' ltac:(lia) Hm') as Hdm'.
           assert (Hb' : bounded 24 128 m' e' = true).
           { unfold bounded, canonical_mantissa. apply andb_true_intro. split.
             - apply Z.eqb_eq. rewrite Hdm'.
               replace (Zpos (digits2_pos q) + (e - e') + e')
                 with (Zpos (digits2_pos q) + e) by lia.
               now rewrite <- He'.
             - apply Z.leb_le. lia. }
           rewrite (to_uint8_small m' e' Hb' ltac:(lia)).
           rewrite Hm'.
           replace (2 ^ (- e')) with (K * 2 ^ (e - e'))
             by (unfold K; rewrite <- Z.pow_add_r by lia; f_equal; lia).
           assert (0 < 2 ^ (e - e')) by (apply Z.pow_pos_nonneg; lia).
           rewrite Z.div_mul_cancel_r by lia.
           replace (Zpos q) with (Zpos m + (- Zpos p) * K) by lia.
           rewrite Z.div_add by lia.
           assert (Zpos p <= Zpos m / K) by (apply Z.div_le_lower_bound; lia).
           lia.
Qed.

Lemma below_256_byte b : channel_ok b -> below_256 (F32.of_Z b) = true.
Proof.
  intros H.
  apply (forall_byte (fun z => below_256 (F32.of_Z z))); [vm_compute; reflexivity | exact H].
Qed.

(** *** Rounding in general: at most one unit in the last place *)

Lemma digits_div_pow2 mx n q :
  0 <= n -> Zpos q = Zpos mx / 2 ^ n ->
  Zpos (digits2_pos q) = Zpos (digits2_pos mx) - n.
Proof.
  intros Hn Hq. pose proof (digits_bounds mx) as [Hlo Hhi].
  assert (Hp : 0 < 2 ^ n) by (apply Z.pow_pos_nonneg; lia).
  assert (Hge : 2 ^ n <= Zpos mx).
  { destruct (Z.le_gt_cases (2 ^ n) (Zpos mx)); auto.
    rewrite Z.div_small in Hq by lia. lia. }
  assert (Hdn : n < Zpos (digits2_pos mx)).
  { destruct (Z.lt_ge_cases n (Zpos (digits2_pos mx))); auto.
    assert (2 ^ Zpos (digits2_pos mx) <= 2 ^ n) by (apply Z.pow_le_mono_r; lia). lia. }
  apply digits_unique. rewrite Hq. split.
  - apply Z.div_le_lower_bound; [lia|]. rewrite Z.mul_comm, <- Z.pow_add_r by lia.
    replace (Zpos (digits2_pos mx) - n - 1 + n) with (Zpos (digits2_pos mx) - 1) by lia.
    exact Hlo.
  - apply Z.div_lt_upper_bound; [lia|]. rewrite <- Z.pow_add_r by lia.
    replace (n + (Zpos (digits2_pos mx) - n)) with (Zpos (digits2_pos mx)) by lia.
    exact Hhi.
Qed.

Lemma fexp32_mono a b : a <= b -> fexp32 a <= fexp32 b.
Proof. rewrite !fexp32_eq. lia. Qed.

(** Rounding a positive value toward the nearest number of the format:
    the result is a zero or a canonical number, at most one unit of the
    last place above the value. *)
Lemma binary_round_aux_bound sx mx ex :
  ex <= fexp32 (Zpos (digits2_pos mx) + ex) <= 103 ->
  match binary_round_aux 24 128 sx (Zpos mx) ex loc_Exact with
  | S754_zero s => s = sx
  | S754_finite s m e =>
      s = sx /\ bounded 24 128 m e = true /\
      fexp32 (Zpos (digits2_pos mx) + ex) <= e /\
      Zpos m * 2 ^ (e - fexp32 (Zpos (digits2_pos mx) + ex))
      <= Zpos mx / 2 ^ (fexp32 (Zpos (digits2_pos mx) + ex) - ex) + 1
  | _ => False
  end.
Proof.
  set (E := fexp32 (Zpos (digits2_pos mx) + ex)). intros HE.
  pose proof (fexp32_eq (Zpos (digits2_pos mx) + ex)) as HEdef. fold E in HEdef.
  unfold binary_round_aux, shr_fexp. cbn [shr_record_of_loc Zdigits2]. fold E.
  pose proof (shr_floor (Zpos mx) ex (E - ex) ltac:(lia) ltac:(lia)) as [H1 H1e].
  destruct (shr _ ex (E - ex)) as [mrs' e1]. cbn [fst snd] in H1, H1e.
  replace (ex + (E - ex)) with E in H1e by lia. subst e1.
  assert (Hp : 0 < 2 ^ (E - ex)) by (apply Z.pow_pos_nonneg; lia).
  assert (Hm1 : 0 <= shr_m mrs') by (rewrite H1; apply Z.div_pos; lia).
  pose proof (round_nearest_even_bounds (shr_m mrs') (loc_of_shr_record mrs')) as H2.
  destruct (round_nearest_even (shr_m mrs') (loc_of_shr_record mrs')) as [|q|q];
    try lia.
  - (* rounded to zero *)
    cbn [Zdigits2].
    pose proof (shr_m_nonneg 0 E (fexp32 (0 + E) - E) ltac:(lia)) as H3.
    destruct (Z.le_gt_cases 0 (fexp32 (0 + E) - E)) as [Hn|Hn].
    + pose proof (shr_floor 0 E _ ltac:(lia) Hn) as [H4 _].
      destruct (shr _ E _) as [mrs'' e'']. cbn [fst] in *.
      rewrite H4, Z.div_0_l; [reflexivity|].
      apply Z.pow_nonzero; lia.
    + destruct (fexp32 (0 + E) - E); try lia. reflexivity.
  - cbn [Zdigits2].
    pose proof (digits_bounds q) as [Hqlo Hqhi].
    pose proof (digits_bounds mx) as [Hmlo Hmhi].
    (* the digits of the rounded mantissa *)
    assert (Hfe : E <= fexp32 (Zpos (digits2_pos q) + E) /\
                  Zpos (digits2_pos q) <= 25).
    { destruct (Z.eq_dec (shr_m mrs') 0) as [Hz|Hnz].
      - (* everything was shifted out *)
        assert (Zpos mx < 2 ^ (E - ex)).
        { destruct (Z.lt_ge_cases (Zpos mx) (2 ^ (E - ex))); auto.
          assert (1 <= Zpos mx / 2 ^ (E - ex)) by (apply Z.div_le_lower_bound; lia).
          lia. }
        assert (Zpos (digits2_pos mx) - 1 < E - ex).
        { destruct (Z.lt_ge_cases (Zpos (digits2_pos mx) - 1) (E - ex)); auto.
          assert (2 ^ (E - ex) <= 2 ^ (Zpos (digits2_pos mx) - 1))
            by (apply Z.pow_le_mono_r; lia). lia. }
        assert (Zpos q = 1) by lia.
        assert (Zpos (digits2_pos q) = 1) by (apply digits_unique; simpl; lia).
        rewrite fexp32_eq. lia.
      - destruct (shr_m mrs') as [|m1|m1] eqn:Em1; try lia.
        pose proof (digits_div_pow2 mx (E - ex) m1 ltac:(lia) H1) as Hd1.
        pose proof (digits_bounds m1) as [Hm1lo Hm1hi].
        assert (Hd1' : Zpos (digits2_pos m1) <= 24) by lia.
        assert (Hd2 : Zpos (digits2_pos m1) <= Zpos (digits2_pos q)
                      <= Zpos (digits2_pos m1) + 1).
        { split; [apply digits_le; lia|].
          destruct (Z.le_gt_cases (Zpos (digits2_pos q)) (Zpos (digits2_pos m1) + 1)); auto.
          assert (2 ^ (Zpos (digits2_pos m1) + 1) <= 2 ^ (Zpos (digits2_pos q) - 1))
            by (apply Z.pow_le_mono_r; lia).
          rewrite Z.pow_add_r in * by lia. change (2 ^ 1) with 2 in *. lia. }
        split; [|lia].
        replace E with (fexp32 (Zpos (digits2_pos m1) + E)) at 1
          by (rewrite fexp32_eq; lia).
        apply fexp32_mono. lia. }
    destruct Hfe as [Hfe Hdq].
    set (n2 := fexp32 (Zpos (digits2_pos q) + E) - E) in *.
    assert (Hn2 : 0 <= n2 <= Zpos (digits2_pos q) - 1).
    { unfold n2. rewrite fexp32_eq in *. lia. }
    pose proof (shr_floor (Zpos q) E n2 ltac:(lia) ltac:(lia)) as [H3 H3e].
    destruct (shr _ E n2) as [mrs'' e'']. cbn [fst snd] in H3, H3e.
    assert (Hp2 : 0 < 2 ^ n2) by (apply Z.pow_pos_nonneg; lia).
    assert (Hq2 : 2 ^ n2 <= Zpos q).
    { eapply Z.le_trans; [|exact Hqlo]. apply Z.pow_le_mono_r; lia. }
    assert (Hm3 : 1 <= shr_m mrs'') by (rewrite H3; apply Z.div_le_lower_bound; lia).
    destruct (shr_m mrs'') as [|m3|m3] eqn:Em3; try lia.
    pose proof (digits_div_pow2 q n2 m3 ltac:(lia) H3) as Hd3.
    assert (He3 : e'' = fexp32 (Zpos (digits2_pos q) + E)) by (unfold n2 in H3e; lia).
    assert (He3le : e'' <= 104) by (rewrite He3, fexp32_eq; lia).
    replace (e'' <=? 128 - 24) with true by (symmetry; apply Z.leb_le; lia).
    split; [reflexivity|]. split; [|split].
    + unfold bounded, canonical_mantissa. apply andb_true_intro. split.
      * apply Z.eqb_eq. rewrite Hd3.
        replace (Zpos (digits2_pos q) - n2 + e'') with (Zpos (digits2_pos q) + E) by lia.
        now rewrite <- He3.
      * apply Z.leb_le. lia.
    + lia.
    + replace (e'' - E) with n2 by lia. rewrite H3.
      pose proof (Z.mul_div_le (Zpos q) (2 ^ n2) Hp2). lia.
Qed.

Lemma binary_round_aux_value sx mx ex :
  -200 <= ex ->
  ex <= fexp32 (Zpos (digits2_pos mx) + ex) <= 103 ->
  canonical_of sx (binary_round_aux 24 128 sx (Zpos mx) ex loc_Exact) /\
  value200 (binary_round_aux 24 128 sx (Zpos mx) ex loc_Exact)
  <= Zpos mx * 2 ^ (ex + 200) + 2 ^ (fexp32 (Zpos (digits2_pos mx) + ex) + 200).
Proof.
  intros Hex HE. pose proof (binary_round_aux_bound sx mx ex HE) as H.
  set (E := fexp32 (Zpos (digits2_pos mx) + ex)) in *.
  assert (Hp1 : 0 < 2 ^ (ex + 200)) by (apply Z.pow_pos_nonneg; lia).
  assert (Hp2 : 0 < 2 ^ (E + 200)) by (apply Z.pow_pos_nonneg; lia).
  destruct (binary_round_aux 24 128 sx (Zpos mx) ex loc_Exact) as [s|s| |s m e];
    try contradiction; cbn [canonical_of value200].
  - split; [exact H | lia].
  - destruct H as (Hs & Hb & He & Hv). split; [auto|].
    assert (Hn : 0 < 2 ^ (E - ex)) by (apply Z.pow_pos_nonneg; lia).
    pose proof (Z.mul_div_le (Zpos mx) (2 ^ (E - ex)) Hn) as Hfl.
    replace (2 ^ (e + 200)) with (2 ^ (e - E) * 2 ^ (E + 200))
      by (rewrite <- Z.pow_add_r by lia; f_equal; lia).
    replace (2 ^ (E + 200)) with (2 ^ (E - ex) * 2 ^ (ex + 200)) in *
      by (rewrite <- Z.pow_add_r by lia; f_equal; lia).
    nia.
Qed.

Lemma binary_round_value sx mx ex :
  -200 <= ex ->
  fexp32 (Zpos (digits2_pos mx) + ex) <= 103 ->
  canonical_of sx (binary_round 24 128 sx mx ex) /\
  value200 (binary_round 24 128 sx mx ex)
  <= Zpos mx * 2 ^ (ex + 200) + 2 ^ (fexp32 (Zpos (digits2_pos mx) + ex) + 200).
Proof.
  intros Hex HE. unfold binary_round.
  set (E := fexp32 (Zpos (digits2_pos mx) + ex)) in *.
  assert (HEl : -149 <= E) by (unfold E; rewrite fexp32_eq; lia).
  unfold shl_align. destruct (E - ex) as [|p|p] eqn:Hd.
  - pose proof (binary_round_aux_value sx mx ex Hex) as H. fold E in H. apply H. lia.
  - pose proof (binary_round_aux_value sx mx ex Hex) as H. fold E in H. apply H. lia.
  - assert (Hz : Zpos (Pos.iter xO mx p) = Zpos mx * 2 ^ (ex - E))
      by (rewrite iter_xO; do 2 f_equal; lia).
    pose proof (digits_mul_pow2 mx (ex - E) _ ltac:(lia) Hz) as Hdz.
    assert (HE' : fexp32 (Zpos (digits2_pos (Pos.iter xO mx p)) + E) = E).
    { rewrite Hdz. replace (Zpos (digits2_pos mx) + (ex - E) + E)
        with (Zpos (digits2_pos mx) + ex) by lia. reflexivity. }
    pose proof (binary_round_aux_value sx (Pos.iter xO mx p) E ltac:(lia)) as H.
    rewrite HE' in H. destruct (H ltac:(lia)) as [Hc Hv]. split; [exact Hc|].
    eapply Z.le_trans; [exact Hv|]. rewrite Hz.
    rewrite <- Z.mul_assoc, <- Z.pow_add_r by lia.
    replace (ex - E + (E + 200)) with (ex + 200) by lia. lia.
Qed.

(** Magnitude from the value. *)
Lemma digits_from_value m e k :
  -200 <= e -> -200 <= k -> Zpos m * 2 ^ (e + 200) < 2 ^ (k + 200) ->
  Zpos (digits2_pos m) + e <= k.
Proof.
  intros He Hk H. pose proof (digits_bounds m) as [Hlo _].
  destruct (Z.le_gt_cases (Zpos (digits2_pos m) + e) k); auto.
  assert (2 ^ (k + 200) <= 2 ^ (Zpos (digits2_pos m) - 1) * 2 ^ (e + 200)).
  { rewrite <- Z.pow_add_r by lia. apply Z.pow_le_mono_r; lia. }
  assert (0 < 2 ^ (e + 200)) by (apply Z.pow_pos_nonneg; lia). nia.
Qed.

Lemma value_from_digits m e k :
  -200 <= e -> Zpos (digits2_pos m) + e <= k ->
  Zpos m * 2 ^ (e + 200) < 2 ^ (k + 200).
Proof.
  intros He H. pose proof (digits_bounds m) as [_ Hhi].
  assert (0 < 2 ^ (e + 200)) by (apply Z.pow_pos_nonneg; lia).
  assert (2 ^ Zpos (digits2_pos m) * 2 ^ (e + 200) <= 2 ^ (k + 200)).
  { rewrite <- Z.pow_add_r by lia. apply Z.pow_le_mono_r; lia. }
  nia.
Qed.

Lemma digits_mul_ge p q :
  Zpos (digits2_pos p) + Zpos (digits2_pos q) - 1 <= Zpos (digits2_pos (p * q)).
Proof.
  pose proof (digits_bounds p) as [Hp _]. pose proof (digits_bounds q) as [Hq _].
  pose proof (digits_bounds (p * q)) as [_ Hpq].
  destruct (Z.le_gt_cases (Zpos (digits2_pos p) + Zpos (digits2_pos q) - 1)
              (Zpos (digits2_pos (p * q)))); auto.
  assert (2 ^ Zpos (digits2_pos (p * q))
          <= 2 ^ (Zpos (digits2_pos p) - 1) * 2 ^ (Zpos (digits2_pos q) - 1)).
  { rewrite <- Z.pow_add_r by lia. apply Z.pow_le_mono_r; lia. }
  rewrite Pos2Z.inj_mul in Hpq.
  assert (0 < 2 ^ (Zpos (digits2_pos p) - 1)) by (apply Z.pow_pos_nonneg; lia).
  assert (0 < 2 ^ (Zpos (digits2_pos q) - 1)) by (apply Z.pow_pos_nonneg; lia).
  nia.
Qed.

(** The binary32 value of a positive 8-bit integer. *)
Lemma of_Z_byte b :
  0 < b <= 255 ->
  exists mb eb,
    F32.of_Z b = S754_finite false mb eb /\
    Zpos (digits2_pos mb) = 24 /\ -23 <= eb <= -16 /\
    Zpos mb * 2 ^ (eb + 200) = b * 2 ^ 200.
Proof.
  intros Hb. destruct b as [|p|p]; try lia.
  pose proof (digits_bounds p) as [Hlo Hhi].
  assert (Hd : Zpos (digits2_pos p) <= 8).
  { destruct (Z.le_gt_cases (Zpos (digits2_pos p)) 8); auto.
    assert (2 ^ 8 <= 2 ^ (Zpos (digits2_pos p) - 1)) by (apply Z.pow_le_mono_r; lia).
    change (2 ^ 8) with 256 in *. lia. }
  destruct (binary_round_exact false p 0 p 0) as (ms & es & Hr & Hes & Hle & Hms);
    try lia.
  rewrite fexp32_eq in Hes. pose proof (Pos2Z.is_pos (digits2_pos p)).
  exists ms, es. split; [exact Hr|].
  assert (Hes' : es = Zpos (digits2_pos p) - 24) by lia.
  split; [|split; [lia|]].
  - rewrite (digits_mul_pow2 p (0 - es) ms ltac:(lia) Hms). lia.
  - rewrite Hms, <- Z.mul_assoc, <- Z.pow_add_r by lia. do 2 f_equal. lia.
Qed.

(** A product by a normal number, rounded. *)
Lemma mul_value mx ex my ey :
  -200 <= ex + ey -> Zpos (digits2_pos my) = 24 ->
  fexp32 (Zpos (digits2_pos (mx * my)) + (ex + ey)) <= 103 ->
  canonical_of false (F32.mul (S754_finite false mx ex) (S754_finite false my ey)) /\
  value200 (F32.mul (S754_finite false mx ex) (S754_finite false my ey))
  <= Zpos (mx * my) * 2 ^ (ex + ey + 200)
     + 2 ^ (fexp32 (Zpos (digits2_pos (mx * my)) + (ex + ey)) + 200).
Proof.
  intros He Hd Hroom. unfold F32.mul, SFmul, F32.prec, F32.emax. cbn [xorb].
  apply binary_round_aux_value; [exact He|].
  split; [|exact Hroom].
  pose proof (digits_mul_ge mx my). pose proof (Pos2Z.is_pos (digits2_pos mx)).
  rewrite fexp32_eq. lia.
Qed.

Lemma bounded_exp m e : bounded 24 128 m e = true -> -149 <= e.
Proof.
  unfold bounded, canonical_mantissa. intros H. apply andb_prop in H as [Hc _].
  apply Z.eqb_eq in Hc. rewrite fexp32_eq in Hc. lia.
Qed.

(** A sum of two non-negative canonical numbers that stays displayable. *)
Lemma add_below_256 x y :
  canonical_of false x -> canonical_of false y ->
  value200 x + value200 y <= 255 * 2 ^ 200 + 2 ^ 186 ->
  below_256 (F32.add x y) = true.
Proof.
  intros Hx Hy Hv.
  assert (Hfin : forall m e, bounded 24 128 m e = true -> -200 <= e ->
                   Zpos m * 2 ^ (e + 200) <= 255 * 2 ^ 200 + 2 ^ 186 + 2 ^ 185 ->
                   below_256 (S754_finite false m e) = true).
  { intros m e Hb He Hm. simpl. unfold F32.prec, F32.emax. rewrite Hb. simpl.
    apply Z.leb_le. apply digits_from_value; [lia | lia |].
    eapply Z.le_lt_trans; [exact Hm|]. reflexivity. }
  assert (Hp : forall e, 0 < 2 ^ (e + 200) \/ e + 200 < 0).
  { intros e. destruct (Z.le_gt_cases 0 (e + 200)); [left; apply Z.pow_pos_nonneg; lia | right; lia]. }
  destruct x as [sx|sx| |sx mx ex], y as [sy|sy| |sy my ey];
    simpl in Hx, Hy; try contradiction.
  - subst. reflexivity.
  - destruct Hy as [-> Hb]. cbn [value200] in Hv.
    change (F32.add (S754_zero sx) (S754_finite false my ey)) with (S754_finite false my ey).
    apply Hfin; [exact Hb | pose proof (bounded_exp _ _ Hb); lia | lia].
  - destruct Hx as [-> Hb]. cbn [value200] in Hv.
    change (F32.add (S754_finite false mx ex) (S754_zero sy)) with (S754_finite false mx ex).
    apply Hfin; [exact Hb | pose proof (bounded_exp _ _ Hb); lia | lia].
  - destruct Hx as [-> Hbx], Hy as [-> Hby]. cbn [value200] in Hv.
    pose proof (bounded_exp _ _ Hbx) as Hex'. pose proof (bounded_exp _ _ Hby) as Hey'.
    unfold F32.add, SFadd, F32.prec, F32.emax. cbn zeta.
    set (ez := Z.min ex ey).
    rewrite !shl_align_val by (unfold ez; lia). cbn [cond_Zopp].
    assert (Hez : -200 <= ez /\ ez <= ex /\ ez <= ey) by (unfold ez; lia).
    assert (Hpz : 0 < 2 ^ (ez + 200)) by (apply Z.pow_pos_nonneg; lia).
    assert (HA : Zpos mx * 2 ^ (ex - ez) * 2 ^ (ez + 200) = Zpos mx * 2 ^ (ex + 200)).
    { rewrite <- Z.mul_assoc, <- Z.pow_add_r by lia. do 2 f_equal. lia. }
    assert (HB : Zpos my * 2 ^ (ey - ez) * 2 ^ (ez + 200) = Zpos my * 2 ^ (ey + 200)).
    { rewrite <- Z.mul_assoc, <- Z.pow_add_r by lia. do 2 f_equal. lia. }
    assert (HApos : 0 < Zpos mx * 2 ^ (ex - ez))
      by (apply Z.mul_pos_pos; [lia | apply Z.pow_pos_nonneg; lia]).
    assert (HBpos : 0 < Zpos my * 2 ^ (ey - ez))
      by (apply Z.mul_pos_pos; [lia | apply Z.pow_pos_nonneg; lia]).
    destruct (Zpos mx * 2 ^ (ex - ez) + Zpos my * 2 ^ (ey - ez)) as [|dd|dd] eqn:ED;
      try lia.
    cbn [binary_normalize].
    assert (HD : Zpos dd * 2 ^ (ez + 200) <= 255 * 2 ^ 200 + 2 ^ 186) by nia.
    assert (Hdig : Zpos (digits2_pos dd) + ez <= 9).
    { apply digits_from_value; [lia | lia |].
      eapply Z.le_lt_trans; [exact HD|]. reflexivity. }
    assert (HE : fexp32 (Zpos (digits2_pos dd) + ez) <= -15) by (rewrite fexp32_eq; lia).
    destruct (binary_round_value false dd ez ltac:(lia) ltac:(lia)) as [Hc Hval].
    assert (Hval' : value200 (binary_round 24 128 false dd ez)
                    <= 255 * 2 ^ 200 + 2 ^ 186 + 2 ^ 185).
    { eapply Z.le_trans; [exact Hval|].
      assert (2 ^ (fexp32 (Zpos (digits2_pos dd) + ez) + 200) <= 2 ^ 185)
        by (apply Z.pow_le_mono_r; lia).
      lia. }
    destruct (binary_round 24 128 false dd ez) as [s|s| |s m e] eqn:Er;
      simpl in Hc; try contradiction.
    + reflexivity.
    + destruct Hc as [-> Hb]. cbn [value200] in Hval'.
      apply Hfin; [exact Hb | pose proof (bounded_exp _ _ Hb); lia | exact Hval'].
Qed.

(** A non-negative canonical number times an 8-bit value. *)
Lemma mul_byte_value x b :
  canonical_of false x -> channel_ok b -> value200 x <= 2 ^ 200 + 2 ^ 176 ->
  canonical_of false (F32.mul x (F32.of_Z b)) /\
  value200 (F32.mul x (F32.of_Z b)) <= value200 x * b + 2 ^ 184.
Proof.
  intros Hx Hb Hv. unfold channel_ok in Hb.
  destruct x as [s|s| |s mx ex]; simpl in Hx; try contradiction.
  - subst s. destruct (Z.eq_dec b 0) as [->|Hb0].
    + split; [reflexivity | cbn; lia].
    + destruct (of_Z_byte b ltac:(lia)) as (mb & eb & Hof & _). rewrite Hof.
      split; [reflexivity | cbn; lia].
  - destruct Hx as [-> Hbx]. pose proof (bounded_exp _ _ Hbx) as Hex.
    destruct (Z.eq_dec b 0) as [->|Hb0].
    + split; [reflexivity|]. cbn [value200].
      change (F32.mul (S754_finite false mx ex) (F32.of_Z 0)) with (S754_zero false).
      cbn [value200]. lia.
    + destruct (of_Z_byte b ltac:(lia)) as (mb & eb & Hof & Hd & Heb & Hval).
      rewrite Hof. cbn [value200] in Hv |- *.
      assert (HX : 0 < 2 ^ (ex + 200)) by (apply Z.pow_pos_nonneg; lia).
      assert (HY : 0 < 2 ^ (eb + 200)) by (apply Z.pow_pos_nonneg; lia).
      assert (HW : 2 ^ (ex + eb + 200) * 2 ^ 200 = 2 ^ (ex + 200) * 2 ^ (eb + 200))
        by (rewrite <- !Z.pow_add_r by lia; f_equal; lia).
      assert (HP : Zpos (mx * mb) * 2 ^ (ex + eb + 200)
                   = Zpos mx * 2 ^ (ex + 200) * b).
      { apply (Z.mul_cancel_r _ _ (2 ^ 200)); [apply Z.pow_nonzero; lia|].
        rewrite Pos2Z.inj_mul.
        transitivity (Zpos mx * 2 ^ (ex + 200) * (Zpos mb * 2 ^ (eb + 200))); [|rewrite Hval; lia].
        rewrite <- !Z.mul_assoc, HW. lia. }
      assert (Hlt : Zpos (mx * mb) * 2 ^ (ex + eb + 200) < 2 ^ (8 + 200)).
      { rewrite HP. change (2 ^ (8 + 200)) with (256 * 2 ^ 200).
        assert (Zpos mx * 2 ^ (ex + 200) * b <= (2 ^ 200 + 2 ^ 176) * 255) by nia.
        eapply Z.le_lt_trans; [eassumption|]. reflexivity. }
      pose proof (digits_from_value (mx * mb) (ex + eb) 8 ltac:(lia) ltac:(lia) Hlt) as Hdig.
      assert (HE : fexp32 (Zpos (digits2_pos (mx * mb)) + (ex + eb)) <= -16)
        by (rewrite fexp32_eq; lia).
      destruct (mul_value mx ex mb eb ltac:(lia) Hd ltac:(lia)) as [Hc Hvm].
      split; [exact Hc|]. eapply Z.le_trans; [exact Hvm|].
      rewrite HP.
      assert (2 ^ (fexp32 (Zpos (digits2_pos (mx * mb)) + (ex + eb)) + 200) <= 2 ^ 184)
        by (apply Z.pow_le_mono_r; lia).
      lia.
Qed.

(** One minus a number below one. *)
Lemma sub_one_value ma ea :
  bounded 24 128 ma ea = true -> Zpos (digits2_pos ma) + ea <= 0 ->
  canonical_of false (F32.sub F32.one (S754_finite false ma ea)) /\
  value200 (F32.sub F32.one (S754_finite false ma ea))
  <= 2 ^ 200 - Zpos ma * 2 ^ (ea + 200) + 2 ^ 176.
Proof.
  intros Hb Hd. pose proof (bounded_exp _ _ Hb) as Hea.
  pose proof (value_from_digits ma ea 0 ltac:(lia) Hd) as HA.
  change (2 ^ (0 + 200)) with (2 ^ 200) in HA.
  change F32.one with (S754_finite false 8388608 (-23)).
  unfold F32.sub, SFsub, F32.prec, F32.emax. cbn zeta.
  set (ez := Z.min (-23) ea).
  assert (Hez : -149 <= ez /\ ez <= -23 /\ ez <= ea) by (unfold ez; lia).
  rewrite !shl_align_val by lia. cbn [cond_Zopp].
  assert (Hpz : 0 < 2 ^ (ez + 200)) by (apply Z.pow_pos_nonneg; lia).
  assert (H1 : 8388608 * 2 ^ (-23 - ez) * 2 ^ (ez + 200) = 2 ^ 200).
  { change 8388608 with (2 ^ 23). rewrite <- !Z.pow_add_r by lia. f_equal. lia. }
  assert (H2 : Zpos ma * 2 ^ (ea - ez) * 2 ^ (ez + 200) = Zpos ma * 2 ^ (ea + 200)).
  { rewrite <- Z.mul_assoc, <- Z.pow_add_r by lia. do 2 f_equal. lia. }
  destruct (8388608 * 2 ^ (-23 - ez) - Zpos ma * 2 ^ (ea - ez)) as [|dd|dd] eqn:ED;
    try nia.
  cbn [binary_normalize].
  assert (HD : Zpos dd * 2 ^ (ez + 200) = 2 ^ 200 - Zpos ma * 2 ^ (ea + 200)) by nia.
  assert (HApos : 0 < Zpos ma * 2 ^ (ea + 200))
    by (apply Z.mul_pos_pos; [lia | apply Z.pow_pos_nonneg; lia]).
  assert (Hdig : Zpos (digits2_pos dd) + ez <= 0).
  { apply digits_from_value; [lia | lia |]. change (2 ^ (0 + 200)) with (2 ^ 200). lia. }
  assert (HE : fexp32 (Zpos (digits2_pos dd) + ez) <= -24) by (rewrite fexp32_eq; lia).
  destruct (binary_round_value false dd ez ltac:(lia) ltac:(lia)) as [Hc Hv].
  split; [exact Hc|]. eapply Z.le_trans; [exact Hv|]. rewrite HD.
  assert (2 ^ (fexp32 (Zpos (digits2_pos dd) + ez) + 200) <= 2 ^ 176)
    by (apply Z.pow_le_mono_r; lia).
  lia.
Qed.

(** The blend of two 8-bit values by a matte value in [0, 1] is a
    binary32 number below 256. *)
Lemma blend_below_256 a b f :
  unit_range a = true -> channel_ok b -> channel_ok f ->
  below_256 (blend1 a b f) = true.
Proof.
  intros Ha Hb Hf.
  destruct a as [s|s| |s ma ea]; unfold unit_range in Ha; try discriminate.
  - (* the matte is 0.0 *)
    unfold blend1.
    assert (H1 : F32.mul (S754_zero s) (F32.of_Z b) = S754_zero s).
    { destruct (Z.eq_dec b 0) as [->|Hb0]; [destruct s; reflexivity|].
      unfold channel_ok in Hb.
      destruct (of_Z_byte b ltac:(lia)) as (mb & eb & -> & _). destruct s; reflexivity. }
    rewrite H1.
    replace (F32.sub F32.one (S754_zero s)) with F32.one by reflexivity.
    rewrite (mul_one_byte f Hf).
    destruct (Z.eq_dec f 0) as [->|Hf0]; [destruct s; reflexivity|].
    pose proof (below_256_byte f Hf) as Hbf.
    unfold channel_ok in Hf.
    destruct (of_Z_byte f ltac:(lia)) as (mf & ef & Hof & _). rewrite Hof in *.
    exact Hbf.
  - destruct s; [discriminate|]. unfold F32.prec, F32.emax in Ha.
    apply andb_prop in Ha as [Hbd Hc]. apply orb_prop in Hc as [Hc|Hc].
    + (* the matte is strictly between 0.0 and 1.0 *)
      apply Z.leb_le in Hc.
      pose proof (bounded_exp _ _ Hbd) as Hea.
      pose proof (value_from_digits ma ea 0 ltac:(lia) Hc) as HA.
      change (2 ^ (0 + 200)) with (2 ^ 200) in HA.
      assert (HApos : 0 < Zpos ma * 2 ^ (ea + 200))
        by (apply Z.mul_pos_pos; [lia | apply Z.pow_pos_nonneg; lia]).
      unfold blend1.
      destruct (mul_byte_value (S754_finite false ma ea) b) as [Hc1 Hv1];
        [split; [reflexivity | exact Hbd] | exact Hb | cbn [value200]; lia |].
      destruct (sub_one_value ma ea Hbd Hc) as [Hcu Hvu].
      destruct (mul_byte_value (F32.sub F32.one (S754_finite false ma ea)) f) as [Hc2 Hv2];
        [exact Hcu | exact Hf | lia |].
      apply add_below_256; [exact Hc1 | exact Hc2 |].
      cbn [value200] in Hv1.
      assert (Hu0 : 0 <= value200 (F32.sub F32.one (S754_finite false ma ea))).
      { destruct (F32.sub _ _) as [s|s| |s m e]; cbn [value200]; lia. }
      unfold channel_ok in Hb, Hf.
      set (A := Zpos ma * 2 ^ (ea + 200)) in *.
      set (U := value200 (F32.sub F32.one (S754_finite false ma ea))) in *.
      assert (Hsum : A * b + U * f <= 255 * 2 ^ 200 + 255 * 2 ^ 176).
      { assert (A * b <= A * 255) by nia.
        assert (U * f <= (2 ^ 200 - A + 2 ^ 176) * 255) by nia.
        lia. }
      assert (255 * 2 ^ 176 + 2 ^ 184 + 2 ^ 184 <= 2 ^ 186) by (vm_compute; discriminate).
      lia.
    + (* the matte is 1.0 *)
      apply andb_prop in Hc as [Hm He]. apply Pos.eqb_eq in Hm. apply Z.eqb_eq in He.
      subst ma ea. change (S754_finite false 8388608 (-23)) with F32.one.
      rewrite (blend1_one b f Hb Hf). now apply below_256_byte.
Qed.

(** ** The compositor *)

Lemma blur_size_pos softness : 0 < blur_size softness.
Proof. unfold blur_size. lia. Qed.

Lemma blur_size_odd softness : Z.odd (blur_size softness) = true.
Proof.
  apply Z.odd_spec. unfold blur_size.
  destruct (Z.max_spec 1 (softness * 4 + 1)) as [[_ ->]|[_ ->]].
  - exists (2 * softness). lia.
  - exists 0. reflexivity.
Qed.

Lemma blur_size_hard softness : softness <= 0 -> blur_size softness = 1.
Proof. unfold blur_size. lia. Qed.


Lemma has_shape_key_mask rule h w frame key tol :
  has_shape h w frame -> has_shape h w (key_mask rule frame key tol).
Proof.
  intros H. unfold key_mask, cv2.inRange, cv2.cvtColor_BGR2HSV.
  now do 2 apply has_shape_map2d.
Qed.

Section Compositor.

Variable rule : np.promotion.
Variable resize : raster -> nat -> nat -> raster.
Variable GaussianBlur : list (list F32.t) -> Z -> list (list F32.t).

(** OpenCV copies the source when the requested size is its size. *)
Hypothesis resize_same :
  forall r h w, (0 < h)%nat -> (0 < w)%nat -> has_shape h w r ->
                resize r w h = r.

(** A 1x1 kernel leaves the array as it is. *)
Hypothesis GaussianBlur_one : forall a, GaussianBlur a 1 = a.

(** The blurred array has the shape of its source. *)
Hypothesis GaussianBlur_shape :
  forall a k h w, 0 < k -> Z.odd k = true -> has_shape h w a ->
                  has_shape h w (GaussianBlur a k).

Local Abbreviation perform := (perform_chroma_key rule resize GaussianBlur).
Local Abbreviation matte := (alpha_map GaussianBlur).

Lemma has_shape_matte h w mask softness :
  has_shape h w mask -> has_shape h w (matte mask softness).
Proof.
  intros H. unfold alpha_map.
  apply GaussianBlur_shape;
    auto using blur_size_pos, blur_size_odd, has_shape_map2d.
Qed.

Lemma perform_image frame bg key tol soft spill h w :
  (0 < h)%nat -> (0 < w)%nat -> has_shape h w frame -> has_shape h w bg ->
  perform frame (ImageBackground bg) key tol soft spill =
  (composite rule GaussianBlur frame bg key tol soft spill, ImageBackground bg).
Proof.
  intros Hh Hw Hf Hb. unfold perform_chroma_key.
  rewrite (has_shape_shape h w frame Hh Hf).
  now rewrite (resize_same bg h w Hh Hw Hb).
Qed.

Lemma at_composite frame bg key tol soft spill i j :
  at_ (composite rule GaussianBlur frame bg key tol soft spill) i j =
  match at_ (matte (key_mask rule frame key tol) soft) i j,
        at_ bg i j, at_ frame i j with
  | Some a, Some b, Some f =>
      Some (finish1 (spill1 spill (blend_pixel a b f)))
  | _, _, _ => None
  end.
Proof.
  unfold composite, blend. rewrite at_map2d, !at_zip2d.
  destruct (at_ (matte _ _) i j), (at_ bg i j), (at_ frame i j); reflexivity.
Qed.

Lemma finish1_ok c : pixel_ok (finish1 c).
Proof.
  unfold pixel_ok, channel_ok, finish1; cbn [chB chG chR].
  split; [apply to_uint8_range | split; apply to_uint8_range].
Qed.

Lemma has_shape_composite frame bg key tol soft spill h w :
  has_shape h w frame -> has_shape h w bg ->
  has_shape h w (composite rule GaussianBlur frame bg key tol soft spill).
Proof.
  intros Hf Hb. unfold composite, blend.
  apply has_shape_map2d, has_shape_zip2d.
  - apply has_shape_matte, has_shape_key_mask, Hf.
  - now apply has_shape_zip2d.
Qed.

(** C10. With no background source the frame comes back as it is,
    whatever the other parameters are: no keying, no blur, no spill
    suppression, and no failure. *)
Theorem C10_no_background_returns_frame
  (frame : raster) (key : pixel) (tol soft spill : Z) :
  perform frame NoBackground key tol soft spill = (frame, NoBackground).
Proof. reflexivity. Qed.



(** *** A hard matte: softness 0 *)

Lemma matte_hard mask softness :
  softness <= 0 ->
  matte mask softness = map2d (fun m => F32.div (F32.of_Z m) f255) mask.
Proof.
  intros H. unfold alpha_map. rewrite (blur_size_hard _ H).
  apply GaussianBlur_one.
Qed.

Lemma at_matte_hard frame key tol softness i j :
  softness <= 0 ->
  at_ (matte (key_mask rule frame key tol) softness) i j =
  option_map
    (fun p => F32.div
                (F32.of_Z (cv2.inRange1 (cv2.bgr2hsv p)
                             (Z.max 0 (np.sub rule (hue key) tol), 50, 50)
                             (Z.min 180 (np.add rule (hue key) tol), 255, 255)))
                f255)
    (at_ frame i j).
Proof.
  intros H. rewrite (matte_hard _ _ H), at_map2d, at_key_mask.
  destruct (at_ frame i j); reflexivity.
Qed.

Lemma finish1_exact b :
  pixel_ok b ->
  finish1 (FBGR (F32.of_Z (chB b)) (F32.of_Z (chG b)) (F32.of_Z (chR b))) = b.
Proof.
  intros (Hb & Hg & Hr). unfold finish1, to_uint8; cbn [fB fG fR].
  rewrite !astype_clip_byte by assumption. now destruct b.
Qed.

Lemma key_matches_itself key :
  pixel_ok key -> 49 < sat key -> 49 < val key ->
  cv2.inRange1 (cv2.bgr2hsv key)
    (Z.max 0 (np.sub rule (hue key) 0), 50, 50)
    (Z.min 180 (np.add rule (hue key) 0), 255, 255) = 255.
Proof.
  intros Hk Hs Hv. rewrite bgr2hsv_eta, inRange1_spec.
  pose proof (hue_range key Hk). pose proof (sat_range key Hk).
  pose proof (val_range key Hk).
  rewrite np_sub_zero, np_add_zero by lia. lia.
Qed.


Lemma matte_hard_binary mask softness :
  softness <= 0 ->
  Forall (Forall (fun m => m = 255 \/ m = 0)) mask ->
  Forall (Forall (fun a => a = F32.zero \/ a = F32.one)) (matte mask softness).
Proof.
  intros Hs H. rewrite (matte_hard _ _ Hs). unfold map2d.
  apply Forall_map. eapply Forall_impl; [|exact H].
  intros row Hrow; simpl. apply Forall_map.
  eapply Forall_impl; [|exact Hrow].
  intros m [-> | ->]; simpl; [right; exact alpha_of_key | left; exact alpha_of_nonkey].
Qed.

Lemma key_mask_binary frame key tol :
  Forall (Forall (fun m => m = 255 \/ m = 0)) (key_mask rule frame key tol).
Proof.
  unfold key_mask, cv2.inRange, cv2.cvtColor_BGR2HSV, map2d.
  rewrite map_map. apply Forall_map, Forall_forall. intros row _.
  rewrite map_map. apply Forall_map, Forall_forall. intros p _.
  apply inRange1_255.
Qed.



(** With a video capture the call reads a frame, so the capture it leaves
    is one position further. *)
Lemma perform_capture_advances frame cap f key tol soft spill :
  nth_error (cv2.cap_frames cap) (cv2.cap_pos cap) = Some f ->
  snd (perform frame (VideoBackground cap) key tol soft spill)
  = VideoBackground (cv2.Capture (cv2.cap_frames cap) (S (cv2.cap_pos cap))).
Proof.
  intros H. unfold perform_chroma_key, cv2.read.
  destruct (shape frame) as [h w]. rewrite H. reflexivity.
Qed.


(** ** Background stepping *)

Lemma advance_forward n i :
  0 <= i < n -> advance_bg_index false n i = (i + 1) mod n.
Proof.
  intros H. unfold advance_bg_index.
  destruct (Z.leb_spec n (i + 1)).
  - replace (i + 1) with n by lia. now rewrite Z.mod_same by lia.
  - now rewrite Z.mod_small by lia.
Qed.

Lemma advance_reverse n i :
  0 <= i < n -> advance_bg_index true n i = (i - 1) mod n.
Proof.
  intros H. unfold advance_bg_index.
  destruct (Z.ltb_spec (i - 1) 0).
  - replace (i - 1) with (n - 1 + (-1) * n) by lia.
    rewrite Z_mod_plus_full. now rewrite Z.mod_small by lia.
  - now rewrite Z.mod_small by lia.
Qed.

Lemma advance_in_range d n i :
  0 <= i < n -> 0 <= advance_bg_index d n i < n.
Proof.
  intros H. destruct d.
  - rewrite advance_reverse by assumption. apply Z.mod_pos_bound. lia.
  - rewrite advance_forward by assumption. apply Z.mod_pos_bound. lia.
Qed.

Lemma py_getitem_in_range {A} (l : list A) i :
  0 <= i < Z.of_nat (length l) ->
  exists x, py_getitem l i = Some x /\ nth_error l (Z.to_nat i) = Some x.
Proof.
  intros H. unfold py_getitem.
  destruct (Z.leb_spec 0 i); [|lia].
  destruct (Z.ltb_spec i (Z.of_nat (length l))); [|lia]. simpl.
  destruct (nth_error l (Z.to_nat i)) as [x|] eqn:E; eauto.
  apply nth_error_None in E. lia.
Qed.

Lemma is_empty_false {A} (l : list A) : l <> [] -> is_empty l = false.
Proof. destruct l; [congruence | reflexivity]. Qed.

Local Abbreviation step := (apply_chroma_key rule resize GaussianBlur).
Local Abbreviation shown := (render rule resize GaussianBlur).

(** One step on an installed video background. *)
Lemma step_video self frame n :
  video_ready self n ->
  let i' := advance_bg_index (bg_video_is_reversed self) n (bg_index self) in
  exists raw_bg,
    nth_error (bg_frames self) (Z.to_nat i') = Some raw_bg /\
    step self frame = Some (shown self frame raw_bg, set_bg_index self i').
Proof.
  intros (Hv & Hne & Hlen & Htot & Hidx) i'.
  assert (Hi' : 0 <= i' < Z.of_nat (length (bg_frames self)))
    by (rewrite Hlen; apply advance_in_range, Hidx).
  destruct (py_getitem_in_range (bg_frames self) i' Hi') as (raw & Hget & Hnth).
  exists raw. split; [exact Hnth|].
  unfold apply_chroma_key. rewrite Hv, (is_empty_false _ Hne), Htot.
  cbn [andb negb]. fold i'.
  change (bg_frames (set_bg_index self i')) with (bg_frames self).
  change (bg_index (set_bg_index self i')) with i'.
  rewrite Hget. reflexivity.
Qed.

Lemma video_ready_step self n i :
  video_ready self n -> 0 <= i < n -> video_ready (set_bg_index self i) n.
Proof.
  intros (Hv & Hne & Hlen & Htot & _) Hi.
  split; [exact Hv|]. split; [exact Hne|]. split; [exact Hlen|].
  split; [exact Htot | exact Hi].
Qed.

Lemma video_ready_reversed self n b :
  video_ready self n -> video_ready (set_reversed self b) n.
Proof.
  intros (Hv & Hne & Hlen & Htot & Hi).
  split; [exact Hv|]. split; [exact Hne|]. split; [exact Hlen|].
  split; [exact Htot | exact Hi].
Qed.

(** A run of steps on an installed video background never fails; it
    shows, at each step, the frame under the cursor after the move. *)
Lemma play_video steps : forall self n,
  video_ready self n ->
  exists outs self',
    play rule resize GaussianBlur self steps = Some (outs, self') /\
    video_ready self' n /\
    bg_frames self' = bg_frames self /\
    bg_index self' = cursor_after n (map fst steps) (bg_index self) /\
    length outs = length steps /\
    forall k d frame,
      nth_error steps k = Some (d, frame) ->
      exists c raw_bg,
        nth_error (cursor_trace n (map fst steps) (bg_index self)) k = Some c /\
        nth_error (bg_frames self) (Z.to_nat c) = Some raw_bg /\
        nth_error outs k = Some (shown self frame raw_bg).
Proof.
  induction steps as [|[d frame] rest IH]; intros self n Hready.
  - exists [], self.
    split; [reflexivity|]. split; [exact Hready|].
    split; [reflexivity|]. split; [reflexivity|]. split; [reflexivity|].
    intros [|k] d frame H; discriminate.
  - pose proof (video_ready_reversed self n d Hready) as Hr.
    destruct (step_video (set_reversed self d) frame n Hr) as (raw & Hnth & Hstep).
    cbn [bg_video_is_reversed bg_index bg_frames set_reversed] in Hnth, Hstep.
    set (i' := advance_bg_index d n (bg_index self)) in *.
    assert (Hi' : 0 <= i' < n) by (apply advance_in_range, Hready).
    pose proof (video_ready_step _ n i' Hr Hi') as Hr'.
    destruct (IH _ n Hr') as (outs & self' & Hplay & Hready' & Hfr & Hcur & Hlen & Hk).
    exists (shown (set_reversed self d) frame raw :: outs), self'.
    cbn [play]. rewrite Hstep, Hplay.
    split; [reflexivity|]. split; [exact Hready'|].
    split; [rewrite Hfr; reflexivity|].
    split; [rewrite Hcur; reflexivity|].
    split; [simpl; now rewrite Hlen|].
    intros [|k] d0 frame0 H; cbn [nth_error map fst cursor_trace] in *.
    + injection H as <- <-. exists i', raw.
      split; [reflexivity|]. split; [exact Hnth | reflexivity].
    + destruct (Hk k d0 frame0 H) as (c & raw0 & Hc & Hraw & Hout).
      exists c, raw0. fold i'.
      split; [exact Hc|]. split; [exact Hraw | exact Hout].
Qed.

Lemma cursor_trace_forward n m : forall i k,
  0 <= i < n -> (k < m)%nat ->
  nth_error (cursor_trace n (repeat false m) i) k
  = Some ((i + Z.of_nat k + 1) mod n).
Proof.
  induction m as [|m IH]; intros i k Hi Hk; [lia|].
  cbn [repeat cursor_trace]. destruct k as [|k]; cbn [nth_error].
  - rewrite advance_forward by assumption. f_equal. f_equal. lia.
  - rewrite IH by (try apply advance_in_range; auto; lia).
    rewrite advance_forward by assumption. f_equal.
    rewrite <- Z.add_assoc, Zplus_mod_idemp_l. f_equal. lia.
Qed.

Lemma cursor_trace_reverse n m : forall i k,
  0 <= i < n -> (k < m)%nat ->
  nth_error (cursor_trace n (repeat true m) i) k
  = Some ((i - (Z.of_nat k + 1)) mod n).
Proof.
  induction m as [|m IH]; intros i k Hi Hk; [lia|].
  cbn [repeat cursor_trace]. destruct k as [|k]; cbn [nth_error].
  - rewrite advance_reverse by assumption. f_equal.
  - rewrite IH by (try apply advance_in_range; auto; lia).
    rewrite advance_reverse by assumption. f_equal.
    unfold Z.sub at 1. rewrite Zplus_mod_idemp_l. f_equal. lia.
Qed.

Lemma cursor_trace_snoc n ds : forall d i,
  cursor_trace n (ds ++ [d]) i
  = cursor_trace n ds i ++ [advance_bg_index d n (cursor_after n ds i)].
Proof.
  induction ds as [|d0 ds IH]; intros d i; simpl.
  - reflexivity.
  - now rewrite IH.
Qed.

(** C6. On an installed video background of [n] frames ([n] at least 1),
    a step first moves the cursor by +1 (forward) or -1 (reverse) modulo
    [n] (below 0 it wraps to [n - 1], at [n] it wraps to 0) and then reads
    the frame under the cursor.  A run of steps never fails and shows, at
    each step, the frame under the cursor of that step.  From cursor 0 a
    forward run reads 1, 2, ..., n-1, 0, 1, ... and a reverse run reads
    n-1, n-2, ..., 0, n-1, ...; and the step taken after any run only
    depends on its own direction and on the cursor the run ended on. *)
Theorem C6_stepping_wraps_both_ways
  (self : ChromaKeyApp) (n : Z) (steps : list (bool * raster)) :
  video_ready self n ->
  (forall i, 0 <= i < n ->
     advance_bg_index false n i = (i + 1) mod n /\
     advance_bg_index true n i = (i - 1) mod n) /\
  advance_bg_index false n (n - 1) = 0 /\
  advance_bg_index true n 0 = n - 1 /\
  (exists outs self',
     play rule resize GaussianBlur self steps = Some (outs, self') /\
     bg_index self' = cursor_after n (map fst steps) (bg_index self) /\
     forall k d frame,
       nth_error steps k = Some (d, frame) ->
       exists c raw_bg,
         nth_error (cursor_trace n (map fst steps) (bg_index self)) k = Some c /\
         nth_error (bg_frames self) (Z.to_nat c) = Some raw_bg /\
         nth_error outs k = Some (shown self frame raw_bg)) /\
  (forall m k, (k < m)%nat ->
     nth_error (cursor_trace n (repeat false m) 0) k
     = Some ((Z.of_nat k + 1) mod n)) /\
  (forall m k, (k < m)%nat ->
     nth_error (cursor_trace n (repeat true m) 0) k
     = Some ((- (Z.of_nat k + 1)) mod n)) /\
  (forall ds d i,
     cursor_trace n (ds ++ [d]) i
     = cursor_trace n ds i ++ [advance_bg_index d n (cursor_after n ds i)]).
Proof.
  intros Hready.
  assert (Hn : 0 < n) by (destruct Hready as (_ & _ & _ & _ & H); lia).
  split; [intros i Hi; split; [now apply advance_forward | now apply advance_reverse]|].
  split; [unfold advance_bg_index; destruct (Z.leb_spec n (n - 1 + 1)); lia|].
  split; [unfold advance_bg_index; destruct (Z.ltb_spec (0 - 1) 0); lia|].
  split.
  - destruct (play_video steps self n Hready)
      as (outs & self' & Hplay & _ & _ & Hcur & _ & Hk).
    exists outs, self'. auto.
  - split; [|split].
    + intros m k Hk. now rewrite cursor_trace_forward by lia.
    + intros m k Hk. now rewrite cursor_trace_reverse by lia.
    + intros ds d i. apply cursor_trace_snoc.
Qed.

(** ** Loading and the empty video *)

Lemma worker_keeps_inv self decoded :
  app_inv self -> app_inv (fst (_load_background_video_worker self decoded)).
Proof.
  intros Hinv. unfold _load_background_video_worker.
  destruct decoded as [frames|]; [|exact Hinv].
  destruct (Z.ltb_spec (Z.of_nat (length frames)) 1); [exact Hinv|].
  intros _. cbn. unfold video_ready; cbn.
  split; [reflexivity|]. split; [destruct frames; [simpl in *; lia | discriminate]|].
  split; [reflexivity|]. split; [reflexivity | lia].
Qed.

Lemma load_bg_image_keeps_inv self img :
  app_inv self -> app_inv (fst (load_bg_image self img)).
Proof.
  intros Hinv. destruct img as [i|]; [|exact Hinv].
  intros H; discriminate H.
Qed.

Lemma step_total self frame :
  app_inv self ->
  exists out self', step self frame = Some (out, self') /\ app_inv self'.
Proof.
  intros Hinv. destruct (bg_is_video self) eqn:Hv.
  - pose proof (Hinv Hv) as Hready.
    destruct (step_video self frame _ Hready) as (raw & _ & Hstep).
    eexists _, _. split; [exact Hstep|].
    intros _. apply video_ready_step; [exact Hready|].
    apply advance_in_range, Hready.
  - unfold apply_chroma_key. rewrite Hv. cbn [andb].
    destruct (bg_image self); eexists _, _; split; try reflexivity; exact Hinv.
Qed.

(** C7 (amended). Loading a background video that yields no frame fails
    at load time: the error "Background video has no valid frames." is
    reported, and the frame list, the video flag and the cursor stay as
    they were.  Loading keeps the invariant that a raised video flag comes
    with a non-empty frame list, and under it a step of the GUI never
    fails, so stepping never meets an empty list.  The core function,
    however, given a capture from which no frame can be read, hands the
    frame back unchanged without reporting anything. *)
Theorem C7_empty_video_rejected_at_load
  (self : ChromaKeyApp) (frame : raster) (key : pixel) (tol soft spill : Z)
  (pos : nat) :
  snd (_load_background_video_worker self (Some []))
    = LoadError "Background video has no valid frames." /\
  bg_frames (fst (_load_background_video_worker self (Some [])))
    = bg_frames self /\
  bg_is_video (fst (_load_background_video_worker self (Some [])))
    = bg_is_video self /\
  bg_index (fst (_load_background_video_worker self (Some [])))
    = bg_index self /\
  app_inv initial_app /\
  (forall decoded,
     app_inv self ->
     app_inv (fst (_load_background_video_worker self decoded))) /\
  (forall f,
     app_inv self ->
     exists out self', step self f = Some (out, self') /\ app_inv self') /\
  perform frame (VideoBackground (cv2.Capture [] pos)) key tol soft spill
    = (frame, VideoBackground (cv2.Capture [] 0)).
Proof.
  repeat (split; [reflexivity|]).
  split; [intros H; discriminate H|].
  split; [intros decoded; apply worker_keeps_inv|].
  split; [intros f; apply step_total|].
  unfold perform_chroma_key, cv2.read, cv2.set_pos_frames; cbn.
  destruct (shape frame) as [h w]. destruct pos; reflexivity.
Qed.

(** ** Brightness and contrast *)

(** C4 fails on the code.  [convertScaleAbs] takes the absolute value of
    the affine result before saturating, so a negative result is folded
    back instead of clamped to 0: channel 0 with contrast 1.0 and
    brightness -50 becomes 50, where the clamp gives 0; through
    [apply_chroma_key], a black frame with foreground brightness -50 and no
    background comes out as (50, 50, 50). *)
Theorem C4_negative_result_is_folded_back :
  cv2.convertScaleAbs1 F32.one (F32.of_Z (-50)) 0 = 50 /\
  clamp_affine 1 (-50) 0 = 0 /\
  option_map fst (step (set_fg_brightness initial_app (-50)) [[BGR 0 0 0]])
    = Some [[BGR 50 50 50]].
Proof. repeat split. Qed.

(** With contrast 1.0 the adjusted channel is [min(255, |x + b|)]: it is
    the clamp of the specification exactly when [x + b] is not negative. *)
Lemma convertScaleAbs1_unit_contrast x b :
  channel_ok x -> -255 <= b <= 255 ->
  cv2.convertScaleAbs1 F32.one (F32.of_Z b) x = Z.min 255 (Z.abs (x + b)).
Proof.
  intros Hx Hb.
  assert (H : forallb (fun z =>
                forallb (fun c => cv2.convertScaleAbs1 F32.one (F32.of_Z (c - 255)) z
                                  =? Z.min 255 (Z.abs (z + (c - 255))))
                        (upto 511))
              (upto 256) = true) by (vm_compute; reflexivity).
  pose proof (forall_byte _ H x Hx) as H1. cbv beta in H1.
  pose proof (forall_upto _ 511 H1 (b + 255) ltac:(lia)) as H2. cbv beta in H2.
  apply Z.eqb_eq in H2. replace (b + 255 - 255) with b in H2 by lia. exact H2.
Qed.

(** ** Spill suppression *)

Lemma spilled_green c s :
  0 < s -> below_256 (fG c) = true ->
  chG (finish1 (spill1 s c)) = Z.max 0 (Z.min 255 (chG (finish1 c) - s)) /\
  chB (finish1 (spill1 s c)) = chB (finish1 c) /\
  chR (finish1 (spill1 s c)) = chR (finish1 c).
Proof.
  intros Hs Hc. unfold spill1.
  replace (0 <? s) with true by (symmetry; apply Z.ltb_lt; exact Hs).
  cbn [finish1 chB chG chR fB fG fR].
  rewrite to_uint8_clip, (spill_sub _ _ Hc Hs). auto.
Qed.

(** C5. For a frame and a background image of the same size, every
    softness and every spill suppression [s > 0]: at every position of the
    frame, key or not, the blue and red channels are those of the output
    with spill suppression 0, and the green channel is the green channel
    of that output reduced by exactly [s] and clamped to 0..255, wherever
    the green blend is a binary32 number below 256.  On 8-bit rasters
    that is the case wherever the matte value lies in [0, 1], and so at
    every position when the softness is 0 (a hard matte). *)
Theorem C5_spill_reduces_green_by_s
  (frame bg : raster) (key : pixel) (tol soft s : Z) (h w : nat) :
  0 < s -> (0 < h)%nat -> (0 < w)%nat ->
  has_shape h w frame -> has_shape h w bg ->
  let out0 := fst (perform frame (ImageBackground bg) key tol soft 0) in
  let outs := fst (perform frame (ImageBackground bg) key tol soft s) in
  let alpha := matte (key_mask rule frame key tol) soft in
  forall i j, (i < h)%nat -> (j < w)%nat ->
    exists a b f p0 ps,
      at_ alpha i j = Some a /\ at_ bg i j = Some b /\
      at_ frame i j = Some f /\
      at_ out0 i j = Some p0 /\ at_ outs i j = Some ps /\
      chB ps = chB p0 /\ chR ps = chR p0 /\
      (below_256 (blend1 a (chG b) (chG f)) = true ->
       chG ps = Z.max 0 (Z.min 255 (chG p0 - s))) /\
      (unit_range a = true -> pixel_ok b -> pixel_ok f ->
       chG ps = Z.max 0 (Z.min 255 (chG p0 - s))) /\
      (soft <= 0 -> pixel_ok b -> pixel_ok f ->
       chG ps = Z.max 0 (Z.min 255 (chG p0 - s))).
Proof.
  intros Hs Hh Hw Hf Hb out0 outs alpha i j Hi Hj.
  assert (Ha : has_shape h w alpha)
    by (apply has_shape_matte, has_shape_key_mask, Hf).
  destruct (has_shape_at h w alpha i j Ha Hi Hj) as [a Ea].
  destruct (has_shape_at h w bg i j Hb Hi Hj) as [b Eb].
  destruct (has_shape_at h w frame i j Hf Hi Hj) as [f Ef].
  exists a, b, f, (finish1 (blend_pixel a b f)),
    (finish1 (spill1 s (blend_pixel a b f))).
  unfold out0, outs. rewrite !(perform_image _ _ _ _ _ _ h w Hh Hw Hf Hb).
  cbn [fst]. rewrite !at_composite. fold alpha. rewrite Ea, Eb, Ef.
  split; [reflexivity|]. split; [reflexivity|]. split; [reflexivity|].
  split; [reflexivity|]. split; [reflexivity|].
  assert (Hbr : chB (finish1 (spill1 s (blend_pixel a b f)))
                = chB (finish1 (blend_pixel a b f)) /\
                chR (finish1 (spill1 s (blend_pixel a b f)))
                = chR (finish1 (blend_pixel a b f))).
  { unfold spill1. destruct (0 <? s); split; reflexivity. }
  destruct Hbr as [HB HR].
  split; [exact HB|]. split; [exact HR|]. split; [|split].
  - intros Hc. now apply spilled_green.
  - intros Hu (_ & Hgb & _) (_ & Hgf & _). apply spilled_green; [exact Hs|].
    cbn [blend_pixel fG]. now apply blend_below_256.
  - intros Hsoft Hpb Hpf. apply spilled_green; [exact Hs|].
    cbn [blend_pixel fG].
    unfold alpha in Ea. rewrite at_matte_hard in Ea by exact Hsoft.
    rewrite Ef in Ea. unfold option_map in Ea.
    apply (f_equal (fun o => match o with Some x => x | None => a end)) in Ea.
    subst a.
    destruct Hpb as (_ & Hgb & _), Hpf as (_ & Hgf & _).
    destruct (inRange1_255 (cv2.bgr2hsv f)
                (Z.max 0 (np.sub rule (hue key) tol), 50, 50)
                (Z.min 180 (np.add rule (hue key) tol), 255, 255)) as [-> | ->].
    + rewrite alpha_of_key, (blend1_one _ _ Hgb Hgf). now apply below_256_byte.
    + rewrite alpha_of_nonkey, (blend1_zero _ _ Hgb Hgf). now apply below_256_byte.
Qed.

(** ** More on the key mask *)

Lemma gray_sat_zero p : chB p = chG p -> chG p = chR p -> sat p = 0.
Proof.
  intros H1 H2. unfold sat, cv2.bgr2hsv; cbv zeta; cbn [fst snd].
  rewrite H1, H2, Z.max_id, Z.max_id, Z.min_id, Z.min_id, Z.sub_diag.
  reflexivity.
Qed.

(** A grey pixel (three equal channels) and a dark pixel (no channel
    above 49) are never keyed, whatever the key colour and the tolerance
    are. *)
Theorem gray_and_dark_pixels_are_kept
  (frame : raster) (key : pixel) (tol : Z) (i j : nat) (p : pixel) :
  at_ frame i j = Some p ->
  (chB p = chG p /\ chG p = chR p) \/
  (chB p < 50 /\ chG p < 50 /\ chR p < 50) ->
  at_ (key_mask rule frame key tol) i j = Some 0.
Proof.
  intros Hat Hp. rewrite at_key_mask, Hat. cbn [option_map]. f_equal.
  destruct (inRange1_255 (cv2.bgr2hsv p)
              (Z.max 0 (np.sub rule (hue key) tol), 50, 50)
              (Z.min 180 (np.add rule (hue key) tol), 255, 255)) as [H|H]; [|exact H].
  exfalso. rewrite bgr2hsv_eta in H. apply inRange1_spec in H.
  destruct H as (_ & Hs & Hv). destruct Hp as [[H1 H2]|(H1 & H2 & H3)].
  - rewrite (gray_sat_zero p H1 H2) in Hs. lia.
  - unfold val, cv2.bgr2hsv in Hv; cbv zeta in Hv; cbn [fst snd] in Hv. lia.
Qed.

(** Raising the tolerance never takes a pixel out of the mask as long as
    neither hue bound leaves the type the promotion rule computes in
    ([exact_bounds]: under [np.Weak], tolerance at most the key hue and
    key hue plus tolerance at most 255).  Under [np.Weak] a tolerance
    above the key hue, by less than 77, takes every pixel out of it. *)
Theorem mask_grows_with_tolerance
  (frame : raster) (key : pixel) (tol tol' : Z) (i j : nat) :
  pixel_ok key -> raster_ok frame -> tol <= tol' ->
  at_ (key_mask rule frame key tol) i j = Some 255 ->
  (exact_bounds rule (hue key) tol = true ->
   exact_bounds rule (hue key) tol' = true ->
   at_ (key_mask rule frame key tol') i j = Some 255) /\
  (rule = np.Weak -> hue key < tol' < hue key + 77 -> tol' <= 255 ->
   at_ (key_mask rule frame key tol') i j = Some 0).
Proof.
  intros Hk Rf Hle. rewrite !at_key_mask_is_key.
  destruct (at_ frame i j) as [p|] eqn:Ep; [|discriminate].
  pose proof (at_raster_ok frame i j p Rf Ep) as Hp.
  cbn [option_map]. intros H.
  assert (E : is_key rule key tol p = true)
    by (destruct (is_key rule key tol p); [reflexivity | discriminate]).
  clear H. split.
  - intros Hx Hx'. pose proof (hue_range key Hk) as Hh.
    destruct (exact_bounds_spec rule (hue key) tol Hx Hh) as [S1 A1].
    destruct (exact_bounds_spec rule (hue key) tol' Hx' Hh) as [S2 A2].
    assert (E' : is_key rule key tol' p = true).
    { apply (is_key_spec rule key tol' p Hp).
      apply (is_key_spec rule key tol p Hp) in E.
      rewrite S1, A1 in E. rewrite S2, A2. lia. }
    now rewrite E'.
  - intros -> Ht Ht'.
    now rewrite (is_key_weak_wrapped key tol' p Hk Hp Ht Ht').
Qed.

(** ** The compositor on a hard matte, pixel by pixel *)

Lemma spill1_off s c : s <= 0 -> spill1 s c = c.
Proof.
  intros H. unfold spill1.
  destruct (Z.ltb_spec 0 s); [lia | reflexivity].
Qed.

Lemma blend_pixel_hard key tol b f :
  pixel_ok b -> pixel_ok f ->
  blend_pixel
    (F32.div
       (F32.of_Z (cv2.inRange1 (cv2.bgr2hsv f)
                    (Z.max 0 (np.sub rule (hue key) tol), 50, 50)
                    (Z.min 180 (np.add rule (hue key) tol), 255, 255)))
       f255) b f
  = let q := if is_key rule key tol f then b else f in
    FBGR (F32.of_Z (chB q)) (F32.of_Z (chG q)) (F32.of_Z (chR q)).
Proof.
  intros (B1 & B2 & B3) (F1 & F2 & F3). unfold is_key, blend_pixel.
  destruct (inRange1_255 (cv2.bgr2hsv f)
              (Z.max 0 (np.sub rule (hue key) tol), 50, 50)
              (Z.min 180 (np.add rule (hue key) tol), 255, 255)) as [-> | ->].
  - rewrite alpha_of_key.
    rewrite (blend1_one _ _ B1 F1), (blend1_one _ _ B2 F2),
      (blend1_one _ _ B3 F3).
    reflexivity.
  - rewrite alpha_of_nonkey.
    rewrite (blend1_zero _ _ B1 F1), (blend1_zero _ _ B2 F2),
      (blend1_zero _ _ B3 F3).
    reflexivity.
Qed.

Lemma finish1_spill_byte s q :
  pixel_ok q ->
  finish1 (spill1 s (FBGR (F32.of_Z (chB q)) (F32.of_Z (chG q))
                          (F32.of_Z (chR q))))
  = if 0 <? s then BGR (chB q) (Z.max 0 (chG q - s)) (chR q) else q.
Proof.
  intros Hq. pose proof (finish1_exact q Hq) as Hex.
  set (c := FBGR (F32.of_Z (chB q)) (F32.of_Z (chG q)) (F32.of_Z (chR q)))
    in *.
  destruct (Z.ltb_spec 0 s) as [Hs|Hs].
  - assert (Hc : below_256 (fG c) = true)
      by (apply below_256_byte; apply Hq).
    destruct (spilled_green c s Hs Hc) as (HG & HB & HR).
    rewrite Hex in HG, HB, HR.
    destruct (finish1 (spill1 s c)) as [x y z].
    cbn [chB chG chR] in HG, HB, HR. subst x y z. f_equal.
    destruct Hq as (_ & Hg & _). unfold channel_ok in Hg. lia.
  - rewrite spill1_off by exact Hs. exact Hex.
Qed.

Lemma at_composite_hard frame bg key tol soft spill i j f b :
  soft <= 0 -> pixel_ok f -> pixel_ok b ->
  at_ frame i j = Some f -> at_ bg i j = Some b ->
  at_ (composite rule GaussianBlur frame bg key tol soft spill) i j
  = Some (let q := if is_key rule key tol f then b else f in
          if 0 <? spill then BGR (chB q) (Z.max 0 (chG q - spill)) (chR q)
          else q).
Proof.
  intros Hs Hf Hb Ef Eb.
  rewrite at_composite, (at_matte_hard _ _ _ _ _ _ Hs), Ef, Eb.
  cbn [option_map]. f_equal.
  rewrite (blend_pixel_hard key tol b f Hb Hf). cbv zeta.
  apply finish1_spill_byte. destruct (is_key rule key tol f); assumption.
Qed.

(** With softness 0 the compositor is a switch driven by the mask: on
    8-bit rasters of one size the pixel that comes out is the background
    pixel where the mask is 255 and the frame pixel where it is 0, with no
    rounding; a positive spill suppression then takes that amount off its
    green channel, stopping at 0, on keyed and kept pixels alike. *)
Theorem hard_matte_selects_pixels
  (frame bg : raster) (key : pixel) (tol soft spill : Z) (h w i j : nat)
  (f b : pixel) :
  np.fits rule tol = true ->
  (0 < h)%nat -> (0 < w)%nat ->
  has_shape h w frame -> has_shape h w bg ->
  raster_ok frame -> raster_ok bg -> soft <= 0 ->
  at_ frame i j = Some f -> at_ bg i j = Some b ->
  exists m,
    at_ (key_mask rule frame key tol) i j = Some m /\
    (m = 255 \/ m = 0) /\
    at_ (fst (perform frame (ImageBackground bg) key tol soft spill)) i j
    = Some (let q := if m =? 255 then b else f in
            if 0 <? spill
            then BGR (chB q) (Z.max 0 (chG q - spill)) (chR q)
            else q).
Proof.
  intros _ Hh Hw Hf Hb Rf Rb Hs Ef Eb.
  exists (if is_key rule key tol f then 255 else 0).
  split; [now rewrite at_key_mask_is_key, Ef|].
  split; [destruct (is_key rule key tol f); auto|].
  rewrite (perform_image _ _ _ _ _ _ h w Hh Hw Hf Hb). cbn [fst].
  rewrite (at_composite_hard frame bg key tol soft spill i j f b Hs
             (at_raster_ok frame i j f Rf Ef)
             (at_raster_ok bg i j b Rb Eb) Ef Eb).
  destruct (is_key rule key tol f); reflexivity.
Qed.

(** Where the test fails on every pixel of the frame, a hard matte
    without spill suppression hands the frame back. *)
Lemma no_key_no_change frame bg key tol soft spill h w :
  (0 < h)%nat -> (0 < w)%nat ->
  has_shape h w frame -> has_shape h w bg ->
  raster_ok frame -> raster_ok bg -> soft <= 0 -> spill <= 0 ->
  (forall i j p, at_ frame i j = Some p -> is_key rule key tol p = false) ->
  fst (perform frame (ImageBackground bg) key tol soft spill) = frame.
Proof.
  intros Hh Hw Hf Hb Rf Rb Hs Hsp Hno.
  rewrite (perform_image _ _ _ _ _ _ h w Hh Hw Hf Hb). cbn [fst].
  apply (at_ext h w); [now apply has_shape_composite | exact Hf |].
  intros i j. destruct (at_ frame i j) as [f|] eqn:Ef.
  - destruct (at_has_shape h w frame i j f Hf Ef) as [Hi Hj].
    destruct (has_shape_at h w bg i j Hb Hi Hj) as [b Eb].
    rewrite (at_composite_hard frame bg key tol soft spill i j f b Hs
               (at_raster_ok frame i j f Rf Ef)
               (at_raster_ok bg i j b Rb Eb) Ef Eb).
    cbv zeta. destruct (Z.ltb_spec 0 spill); [lia|].
    now rewrite (Hno i j f Ef).
  - rewrite at_composite, Ef.
    destruct (at_ (matte _ _) i j); [|reflexivity].
    destruct (at_ bg i j); reflexivity.
Qed.

(** A frame in which no pixel is keyed comes back as it is when the
    softness and the spill suppression are 0: that is so whenever the
    mask is 0 throughout, and in particular, for every key colour and
    tolerance, when the frame is grey or dark throughout. *)
Theorem unkeyed_frame_is_returned
  (frame bg : raster) (key : pixel) (tol soft spill : Z) (h w : nat) :
  np.fits rule tol = true ->
  (0 < h)%nat -> (0 < w)%nat ->
  has_shape h w frame -> has_shape h w bg ->
  raster_ok frame -> raster_ok bg -> soft <= 0 -> spill <= 0 ->
  (forall i j m, at_ (key_mask rule frame key tol) i j = Some m -> m = 0) \/
  (forall i j p, at_ frame i j = Some p ->
     (chB p = chG p /\ chG p = chR p) \/
     (chB p < 50 /\ chG p < 50 /\ chR p < 50)) ->
  fst (perform frame (ImageBackground bg) key tol soft spill) = frame.
Proof.
  intros _ Hh Hw Hf Hb Rf Rb Hs Hsp Hno.
  apply (no_key_no_change frame bg key tol soft spill h w); try assumption.
  intros i j f Ef.
  destruct (is_key rule key tol f) eqn:E; [|reflexivity]. exfalso.
  destruct Hno as [Hz|Hg].
  - specialize (Hz i j 255). rewrite at_key_mask_is_key, Ef in Hz.
    cbn [option_map] in Hz. rewrite E in Hz.
    specialize (Hz eq_refl). discriminate.
  - apply (is_key_spec rule key tol f (at_raster_ok frame i j f Rf Ef)) in E.
    destruct E as (_ & Hsat & Hval).
    destruct (Hg i j f Ef) as [[H1 H2]|(H1 & H2 & H3)].
    + rewrite (gray_sat_zero f H1 H2) in Hsat. lia.
    + unfold val, cv2.bgr2hsv in Hval; cbv zeta in Hval;
        cbn [fst snd] in Hval. lia.
Qed.

(** ** A video capture as the background of the core function *)

(** One call: the frame under the position is used, or the first one
    when the position is past the end; the capture is left just after the
    frame used. *)
Lemma perform_video_once frame cap key tol soft spill :
  cv2.cap_frames cap <> [] ->
  let pos := next_read (length (cv2.cap_frames cap)) (cv2.cap_pos cap) in
  exists f,
    nth_error (cv2.cap_frames cap) pos = Some f /\
    perform frame (VideoBackground cap) key tol soft spill
    = (fst (perform frame (ImageBackground f) key tol soft spill),
       VideoBackground (cv2.Capture (cv2.cap_frames cap) (S pos))).
Proof.
  intros Hne pos. destruct cap as [fs p]. cbn [cv2.cap_frames cv2.cap_pos] in *.
  unfold next_read in pos. unfold perform_chroma_key, cv2.read.
  cbn [cv2.cap_frames cv2.cap_pos]. destruct (shape frame) as [h w].
  destruct (Nat.ltb_spec p (length fs)) as [Hp|Hp].
  - destruct (nth_error fs p) as [f|] eqn:E.
    + exists f. subst pos. split; [exact E | reflexivity].
    + apply nth_error_None in E. lia.
  - assert (E : nth_error fs p = None) by (apply nth_error_None; lia).
    rewrite E. cbn [cv2.set_pos_frames cv2.cap_frames cv2.cap_pos].
    destruct fs as [|f0 fs']; [congruence|].
    exists f0. subst pos. split; reflexivity.
Qed.

Lemma next_read_mod n pos :
  (0 < n)%nat -> (pos <= n)%nat -> next_read n pos = (pos mod n)%nat.
Proof.
  intros Hn Hp. unfold next_read. destruct (Nat.ltb_spec pos n).
  - now rewrite Nat.mod_small.
  - replace pos with n by lia. now rewrite Nat.Div0.mod_same.
Qed.

(** Given a video capture with at least one frame as the background, the
    core function plays it in a loop: along successive calls the call
    number [k] composites over the capture's frame number
    [(position + k) mod n], giving what the call gives for that frame as a
    background image; when the read at the end fails the capture is
    rewound and read again within the same call, so no call goes without
    a background. *)
Theorem video_background_cycles (frames : list raster) :
  forall (cap : cv2.VideoCapture) (key : pixel) (tol soft spill : Z),
  cv2.cap_frames cap <> [] ->
  (cv2.cap_pos cap <= length (cv2.cap_frames cap))%nat ->
  let n := length (cv2.cap_frames cap) in
  let outs :=
    fst (perform_all rule resize GaussianBlur frames (VideoBackground cap)
           key tol soft spill) in
  length outs = length frames /\
  forall k frame,
    nth_error frames k = Some frame ->
    exists f,
      nth_error (cv2.cap_frames cap) ((cv2.cap_pos cap + k) mod n) = Some f /\
      nth_error outs k
      = Some (fst (perform frame (ImageBackground f) key tol soft spill)).
Proof.
  induction frames as [|frame rest IH]; intros cap key tol soft spill Hne Hpos n outs.
  - split; [reflexivity|]. intros [|k] fr H; discriminate.
  - assert (Hn : (0 < n)%nat)
      by (unfold n; destruct (cv2.cap_frames cap); [congruence | simpl; lia]).
    destruct (perform_video_once frame cap key tol soft spill Hne)
      as (f & Hf & Hcall).
    fold n in Hf, Hcall. rewrite (next_read_mod n _ Hn Hpos) in Hf, Hcall.
    set (cap1 := cv2.Capture (cv2.cap_frames cap) (S (cv2.cap_pos cap mod n)))
      in *.
    assert (Hpos1 : (cv2.cap_pos cap1 <= length (cv2.cap_frames cap1))%nat).
    { unfold cap1; cbn [cv2.cap_pos cv2.cap_frames]. fold n.
      pose proof (Nat.mod_upper_bound (cv2.cap_pos cap) n). lia. }
    destruct (IH cap1 key tol soft spill Hne Hpos1) as [Hlen Hk].
    subst outs. cbn [perform_all]. rewrite Hcall.
    destruct (perform_all rule resize GaussianBlur rest (VideoBackground cap1)
                key tol soft spill) as [outs' bg'] eqn:Erest.
    cbn [fst] in Hlen, Hk |- *. split; [simpl; now rewrite Hlen|].
    intros [|k] fr H; cbn [nth_error] in H |- *.
    + injection H as <-. exists f. rewrite Nat.add_0_r.
      split; [exact Hf | reflexivity].
    + destruct (Hk k fr H) as (g & Hg & Hout). exists g.
      split; [|exact Hout].
      unfold cap1 in Hg; cbn [cv2.cap_pos cv2.cap_frames] in Hg. fold n in Hg.
      replace ((cv2.cap_pos cap + S k) mod n)%nat
        with ((S (cv2.cap_pos cap mod n) + k) mod n)%nat; [exact Hg|].
      replace (S (cv2.cap_pos cap mod n) + k)%nat
        with (cv2.cap_pos cap mod n + S k)%nat by lia.
      rewrite Nat.Div0.add_mod_idemp_l. reflexivity.
Qed.


(** ** The size of the output *)

(** [cv2.resize] gives an image the size that is asked for. *)
Hypothesis resize_shape :
  forall r h w, is_image r -> (0 < h)%nat -> (0 < w)%nat ->
    has_shape h w (resize r w h).

Lemma raster_ok_composite frame bg key tol soft spill :
  raster_ok (composite rule GaussianBlur frame bg key tol soft spill).
Proof.
  unfold composite, raster_ok, map2d.
  apply Forall_map, Forall_forall. intros row _.
  apply Forall_map, Forall_forall. intros c _. apply finish1_ok.
Qed.

Lemma composite_resized frame bg key tol soft spill h w :
  (0 < h)%nat -> (0 < w)%nat -> has_shape h w frame -> is_image bg ->
  has_shape h w
    (composite rule GaussianBlur frame (resize bg w h) key tol soft spill).
Proof.
  intros Hh Hw Hf Hb. apply has_shape_composite; [exact Hf|].
  now apply resize_shape.
Qed.

(** Whatever the size of the background (an image, or the frames of a
    capture, each of its own size) and whatever the parameters, the
    output has the height and the width of the frame, and it is an 8-bit
    raster when the frame is one. *)
Theorem output_has_frame_size
  (frame : raster) (bg_source : background) (key : pixel)
  (tol soft spill : Z) (h w : nat) :
  (0 < h)%nat -> (0 < w)%nat -> has_shape h w frame ->
  background_ok bg_source ->
  has_shape h w (fst (perform frame bg_source key tol soft spill)) /\
  (raster_ok frame ->
   raster_ok (fst (perform frame bg_source key tol soft spill))).
Proof.
  intros Hh Hw Hf Hbg. destruct bg_source as [|img|cap].
  - split; [exact Hf | auto].
  - unfold perform_chroma_key. rewrite (has_shape_shape h w frame Hh Hf).
    cbn [fst]. split; [now apply composite_resized|].
    intros _. apply raster_ok_composite.
  - destruct (cv2.cap_frames cap) as [|f0 fs] eqn:Efs.
    + destruct cap as [fs p]. cbn [cv2.cap_frames] in Efs. subst fs.
      unfold perform_chroma_key, cv2.read, cv2.set_pos_frames.
      rewrite (has_shape_shape h w frame Hh Hf).
      cbn [cv2.cap_frames cv2.cap_pos].
      destruct p; cbn [nth_error fst]; split; auto.
    + assert (Hne : cv2.cap_frames cap <> []) by congruence.
      destruct (perform_video_once frame cap key tol soft spill Hne)
        as (f & Hnth & Hcall).
      rewrite Hcall. cbn [fst].
      unfold perform_chroma_key. rewrite (has_shape_shape h w frame Hh Hf).
      cbn [fst]. cbn [background_ok] in Hbg. rewrite Forall_forall in Hbg.
      split; [|intros _; apply raster_ok_composite].
      apply composite_resized; auto.
      apply Hbg. eapply nth_error_In, Hnth.
Qed.

(** ** Round trips of the cursor *)

Lemma cursor_after_forward n m : forall i,
  0 <= i < n ->
  cursor_after n (repeat false m) i = (i + Z.of_nat m) mod n.
Proof.
  unfold cursor_after. induction m as [|m IH]; intros i Hi.
  - cbn [repeat fold_left]. rewrite Z.add_0_r, Z.mod_small; lia.
  - cbn [repeat fold_left].
    rewrite IH by (apply advance_in_range; exact Hi).
    rewrite advance_forward by exact Hi.
    rewrite Zplus_mod_idemp_l. f_equal. lia.
Qed.

Lemma cursor_after_reverse n m : forall i,
  0 <= i < n ->
  cursor_after n (repeat true m) i = (i - Z.of_nat m) mod n.
Proof.
  unfold cursor_after. induction m as [|m IH]; intros i Hi.
  - cbn [repeat fold_left]. rewrite Z.sub_0_r, Z.mod_small; lia.
  - cbn [repeat fold_left].
    rewrite IH by (apply advance_in_range; exact Hi).
    rewrite advance_reverse by exact Hi.
    rewrite Zminus_mod_idemp_l. f_equal. lia.
Qed.

(** On a video of [n] frames a step back undoes a step forward and a step
    forward undoes a step back, also across the two ends; and [n] steps
    in one direction bring the cursor back to where it was. *)
Theorem stepping_round_trips (n i : Z) :
  0 <= i < n ->
  advance_bg_index true n (advance_bg_index false n i) = i /\
  advance_bg_index false n (advance_bg_index true n i) = i /\
  cursor_after n (repeat false (Z.to_nat n)) i = i /\
  cursor_after n (repeat true (Z.to_nat n)) i = i.
Proof.
  intros Hi. split; [|split; [|split]].
  - unfold advance_bg_index. destruct (Z.leb_spec n (i + 1)).
    + destruct (Z.ltb_spec (0 - 1) 0); lia.
    + destruct (Z.ltb_spec (i + 1 - 1) 0); lia.
  - unfold advance_bg_index. destruct (Z.ltb_spec (i - 1) 0).
    + destruct (Z.leb_spec n (n - 1 + 1)); lia.
    + destruct (Z.leb_spec n (i - 1 + 1)); lia.
  - rewrite cursor_after_forward by exact Hi. rewrite Z2Nat.id by lia.
    replace (i + n) with (i + 1 * n) by lia.
    rewrite Z_mod_plus_full. apply Z.mod_small, Hi.
  - rewrite cursor_after_reverse by exact Hi. rewrite Z2Nat.id by lia.
    replace (i - n) with (i + (-1) * n) by lia.
    rewrite Z_mod_plus_full. apply Z.mod_small, Hi.
Qed.

(** ** Brightness at contrast 1.0 *)

Lemma convertScaleAbs_ext (f : Z -> Z) r a b :
  raster_ok r ->
  (forall x, channel_ok x -> cv2.convertScaleAbs1 a b x = f x) ->
  cv2.convertScaleAbs r a b
  = map2d (fun p => BGR (f (chB p)) (f (chG p)) (f (chR p))) r.
Proof.
  intros Hr Hf. unfold cv2.convertScaleAbs, map2d, raster_ok in *.
  rewrite Forall_forall in Hr.
  apply map_ext_in. intros row Hrow. apply map_ext_in. intros p Hp.
  pose proof (Hr row Hrow) as Hok. rewrite Forall_forall in Hok.
  destruct (Hok p Hp) as (H1 & H2 & H3).
  now rewrite (Hf _ H1), (Hf _ H2), (Hf _ H3).
Qed.

Lemma convertScaleAbs_default r :
  raster_ok r -> cv2.convertScaleAbs r F32.one (F32.of_Z 0) = r.
Proof.
  intros Hr.
  rewrite (convertScaleAbs_ext (fun x => Z.min 255 (Z.abs (x + 0))) r _ _ Hr)
    by (intros x Hx; apply convertScaleAbs1_unit_contrast; [exact Hx | lia]).
  unfold map2d, raster_ok in *. rewrite Forall_forall in Hr.
  rewrite <- (map_id r) at 2. apply map_ext_in. intros row Hrow.
  rewrite <- (map_id row) at 2. apply map_ext_in. intros p Hp.
  pose proof (Hr row Hrow) as Hok. rewrite Forall_forall in Hok.
  destruct (Hok p Hp) as (H1 & H2 & H3). unfold channel_ok in *.
  destruct p as [x y z]; cbn [chB chG chR] in *. f_equal; lia.
Qed.

(** At contrast 1.0 a brightness from 0 upward is added to every channel
    of every pixel, and the sum stops at 255. *)
Theorem nonnegative_brightness_saturates (r : raster) (b : Z) :
  raster_ok r -> 0 <= b <= 255 ->
  cv2.convertScaleAbs r F32.one (F32.of_Z b)
  = map2d (fun p => BGR (Z.min 255 (chB p + b)) (Z.min 255 (chG p + b))
                        (Z.min 255 (chR p + b))) r.
Proof.
  intros Hr Hb.
  apply (convertScaleAbs_ext (fun x => Z.min 255 (x + b)) r _ _ Hr).
  intros x Hx. rewrite convertScaleAbs1_unit_contrast by (try exact Hx; lia).
  unfold channel_ok in Hx. rewrite Z.abs_eq by lia. reflexivity.
Qed.

(** With the sliders where they start (contrast 1.0, brightness 0) and no
    background loaded, a step hands the 8-bit frame back as it is and
    leaves the application as it was. *)
Theorem defaults_leave_frame_unchanged
  (self : ChromaKeyApp) (frame : raster) :
  raster_ok frame ->
  fg_contrast self = F32.one -> fg_brightness self = 0 ->
  bg_is_video self = false -> bg_image self = None ->
  step self frame = Some (frame, self).
Proof.
  intros Hr Hc Hb Hv Hi. unfold apply_chroma_key.
  rewrite Hv, Hi, Hc, Hb. cbn [andb].
  now rewrite (convertScaleAbs_default frame Hr).
Qed.

(** ** Loading and the next step *)

(** The load that succeeded last decides what the next step composites
    over, whatever was installed before: after an image, that image, and
    the cursor stays; after a video, the frame one step from its first
    one in the play direction (the second frame when playing forward,
    the last one in reverse). *)
Theorem last_load_decides
  (self : ChromaKeyApp) (frame img : raster) (frames : list raster) :
  frames <> [] ->
  let s_img := fst (load_bg_image self (Some img)) in
  let s_vid := fst (_load_background_video_worker self (Some frames)) in
  let n := Z.of_nat (length frames) in
  let i := advance_bg_index (bg_video_is_reversed self) n 0 in
  step s_img frame = Some (shown self frame img, s_img) /\
  exists raw_bg,
    nth_error frames (Z.to_nat i) = Some raw_bg /\
    step s_vid frame = Some (shown self frame raw_bg, set_bg_index s_vid i).
Proof.
  intros Hne s_img s_vid n i. split; [reflexivity|].
  assert (Hn : 1 <= n)
    by (unfold n; destruct frames; [congruence | simpl length; lia]).
  assert (Hs : s_vid
               = App (bg_color self) (tolerance self) (softness self)
                   (color_spill self) (fg_brightness self) (fg_contrast self)
                   (bg_brightness self) (bg_contrast self) (bg_image self)
                   true (bg_video_is_reversed self) n 0 frames true).
  { unfold s_vid, _load_background_video_worker. fold n.
    destruct (Z.ltb_spec n 1); [lia | reflexivity]. }
  assert (Hready : video_ready s_vid n).
  { rewrite Hs. unfold video_ready.
    cbn [bg_is_video bg_frames bg_total_frames bg_index].
    split; [reflexivity|]. split; [exact Hne|]. split; [reflexivity|].
    split; [reflexivity | lia]. }
  destruct (step_video s_vid frame n Hready) as (raw & Hnth & Hstep).
  rewrite Hs in Hnth at 1 2 3.
  cbn [bg_video_is_reversed bg_index bg_frames] in Hnth.
  exists raw. split; [exact Hnth|].
  rewrite Hstep. rewrite Hs. reflexivity.
Qed.

Lemma step_reverse_bg_check self frame b :
  step (set_reverse_bg_check self b) frame
  = option_map (fun os => (fst os, set_reverse_bg_check (snd os) b))
      (step self frame).
Proof.
  destruct self. unfold apply_chroma_key, set_reverse_bg_check.
  cbn [bg_is_video bg_frames bg_image fg_contrast fg_brightness
       bg_video_is_reversed bg_total_frames bg_index set_bg_index
       bg_contrast bg_brightness bg_color tolerance softness color_spill
       reverse_bg_check].
  destruct (bg_is_video0 && negb (is_empty bg_frames0)).
  - destruct (py_getitem bg_frames0 _); reflexivity.
  - destruct bg_image0; reflexivity.
Qed.

(** A load that fails (the video cannot be opened or has no frame, the
    image cannot be read) changes nothing of what is composited: the next
    step gives the frame it would have given and moves the cursor as it
    would have; only the reverse check box is disabled. *)
Theorem failed_load_keeps_background (self : ChromaKeyApp) (frame : raster) :
  let disabled :=
    option_map (fun os => (fst os, set_reverse_bg_check (snd os) false))
      (step self frame) in
  step (fst (_load_background_video_worker self None)) frame = disabled /\
  step (fst (_load_background_video_worker self (Some []))) frame = disabled /\
  step (fst (load_bg_image self None)) frame = disabled.
Proof.
  intros disabled. unfold disabled.
  split; [|split]; exact (step_reverse_bg_check self frame false).
Qed.

(** ** Preview and export over a video background *)

Lemma with_toggles_const d frames :
  with_toggles (fun _ => d) frames = map (fun frame => (d, frame)) frames.
Proof.
  unfold with_toggles. generalize 0%nat.
  induction frames as [|f fs IH]; intros s; [reflexivity|].
  cbn [length seq map2 map]. now rewrite IH.
Qed.

Lemma map_fst_const {A} (d : bool) (l : list A) :
  map fst (map (fun x => (d, x)) l) = repeat d (length l).
Proof. induction l as [|x l IH]; [reflexivity|]. simpl. now rewrite IH. Qed.

Lemma render_set_bg_index self i frame raw_bg :
  shown (set_bg_index self i) frame raw_bg = shown self frame raw_bg.
Proof. reflexivity. Qed.

(** A run with the check box left alone, from the cursor [i0]. *)
Lemma play_constant self n d frames i0 :
  video_ready self n -> 0 <= i0 < n ->
  exists outs self',
    play rule resize GaussianBlur (set_bg_index self i0)
      (with_toggles (fun _ => d) frames) = Some (outs, self') /\
    length outs = length frames /\
    forall k frame,
      nth_error frames k = Some frame ->
      exists raw_bg,
        nth_error (bg_frames self)
          (Z.to_nat ((if d then i0 - (Z.of_nat k + 1)
                      else i0 + Z.of_nat k + 1) mod n)) = Some raw_bg /\
        nth_error outs k = Some (shown self frame raw_bg).
Proof.
  intros Hready Hi0.
  pose proof (video_ready_step self n i0 Hready Hi0) as Hr0.
  rewrite with_toggles_const.
  destruct (play_video (map (fun frame => (d, frame)) frames) _ n Hr0)
    as (outs & self' & Hplay & _ & _ & _ & Hlen & Hk).
  exists outs, self'. split; [exact Hplay|].
  split; [now rewrite Hlen, length_map|].
  intros k frame Hnth.
  assert (Hstep : nth_error (map (fun frame => (d, frame)) frames) k
                  = Some (d, frame)) by (rewrite nth_error_map, Hnth; reflexivity).
  destruct (Hk k d frame Hstep) as (c & raw & Hc & Hraw & Hout).
  assert (Hlt : (k < length frames)%nat)
    by (apply nth_error_Some; congruence).
  rewrite map_fst_const in Hc.
  change (bg_index (set_bg_index self i0)) with i0 in Hc.
  change (bg_frames (set_bg_index self i0)) with (bg_frames self) in Hraw.
  rewrite render_set_bg_index in Hout.
  exists raw. split; [|exact Hout].
  destruct d.
  - rewrite (cursor_trace_reverse n _ i0 k Hi0 Hlt) in Hc.
    injection Hc as <-. exact Hraw.
  - rewrite (cursor_trace_forward n _ i0 k Hi0 Hlt) in Hc.
    injection Hc as <-. exact Hraw.
Qed.

Lemma something_to_play self cap n :
  video_ready self n -> nothing_to_play self (Some cap) = false.
Proof.
  intros (_ & Hne & _). unfold nothing_to_play.
  destruct (bg_image self); [reflexivity|]. now apply is_empty_false.
Qed.

(** Exporting over a video background of [n] frames, the check box left
    alone: the export never fails, writes one frame for each foreground
    frame, and does not depend on where the cursor was, since it is put
    back to 0.  As a step moves the cursor before it reads, the
    foreground frame number [k] (from 0) goes over the background frame
    [(k + 1) mod n] when playing forward, so the first frame of the
    background comes after all the others, and over the frame
    [(- (k + 1)) mod n] in reverse. *)
Theorem export_background_order
  (self : ChromaKeyApp) (cap : cv2.VideoCapture) (n : Z) :
  video_ready self n ->
  let d := bg_video_is_reversed self in
  exists outs self',
    export_composited_video rule resize GaussianBlur self (Some cap) (fun _ => d)
    = Played outs self' /\
    length outs = length (cv2.cap_frames cap) /\
    forall k frame,
      nth_error (cv2.cap_frames cap) k = Some frame ->
      exists raw_bg,
        nth_error (bg_frames self)
          (Z.to_nat ((if d then - (Z.of_nat k + 1) else Z.of_nat k + 1) mod n))
        = Some raw_bg /\
        nth_error outs k = Some (shown self frame raw_bg).
Proof.
  intros Hready d.
  assert (H0 : 0 <= 0 < n) by (destruct Hready as (_ & _ & _ & _ & H); lia).
  destruct (play_constant self n d (cv2.cap_frames cap) 0 Hready H0)
    as (outs & self' & Hplay & Hlen & Hk).
  exists outs, self'. unfold export_composited_video, export_reset.
  rewrite (something_to_play self cap n Hready), Hplay.
  split; [reflexivity|]. split; [exact Hlen|].
  intros k frame Hnth. destruct (Hk k frame Hnth) as (raw & Hraw & Hout).
  exists raw. split; [|exact Hout].
  destruct d; [exact Hraw|].
  replace (Z.of_nat k + 1) with (0 + Z.of_nat k + 1) by lia. exact Hraw.
Qed.

(** The preview over a video background of [n] frames, the check box
    left alone, never fails and shows one frame for each foreground frame.
    Playing forward it starts like the export, on the background frame
    [(k + 1) mod n] for the foreground frame [k]; in reverse the cursor is
    put on the last frame first, so the preview shows the background frame
    [(n - 2 - k) mod n], one frame further than what the export
    writes. *)
Theorem preview_background_order
  (self : ChromaKeyApp) (cap : cv2.VideoCapture) (n : Z) :
  video_ready self n ->
  let d := bg_video_is_reversed self in
  exists outs self',
    preview_composited_video rule resize GaussianBlur self (Some cap) (fun _ => d)
    = Played outs self' /\
    length outs = length (cv2.cap_frames cap) /\
    forall k frame,
      nth_error (cv2.cap_frames cap) k = Some frame ->
      exists raw_bg,
        nth_error (bg_frames self)
          (Z.to_nat ((if d then n - 2 - Z.of_nat k else Z.of_nat k + 1) mod n))
        = Some raw_bg /\
        nth_error outs k = Some (shown self frame raw_bg).
Proof.
  intros Hready d.
  assert (Hn : 0 < n) by (destruct Hready as (_ & _ & _ & _ & H); lia).
  assert (Htot : bg_total_frames self = n) by apply Hready.
  set (i0 := if d then n - 1 else 0).
  assert (Hi0 : 0 <= i0 < n) by (unfold i0; destruct d; lia).
  destruct (play_constant self n d (cv2.cap_frames cap) i0 Hready Hi0)
    as (outs & self' & Hplay & Hlen & Hk).
  exists outs, self'. unfold preview_composited_video, preview_reset.
  rewrite (something_to_play self cap n Hready), Htot.
  fold d.
  replace (if d then set_bg_index self (n - 1) else set_bg_index self 0)
    with (set_bg_index self i0) by (unfold i0; destruct d; reflexivity).
  rewrite Hplay.
  split; [reflexivity|]. split; [exact Hlen|].
  intros k frame Hnth. destruct (Hk k frame Hnth) as (raw & Hraw & Hout).
  exists raw. split; [|exact Hout].
  unfold i0 in Hraw. destruct d.
  - replace (n - 2 - Z.of_nat k) with (n - 1 - (Z.of_nat k + 1)) by lia.
    exact Hraw.
  - replace (Z.of_nat k + 1) with (0 + Z.of_nat k + 1) by lia. exact Hraw.
Qed.

(** ** Sessions *)

Local Abbreviation refresh := (update_preview rule resize GaussianBlur).
Local Abbreviation handler := (handle rule resize GaussianBlur).

Lemma with_settings_inv self tol soft spill fgb fgc bgb bgc :
  app_inv self -> app_inv (with_settings self tol soft spill fgb fgc bgb bgc).
Proof. intros H. exact H. Qed.

Lemma set_reversed_inv self b : app_inv self -> app_inv (set_reversed self b).
Proof. intros H. exact H. Qed.

Lemma set_reverse_bg_check_inv self b :
  app_inv self -> app_inv (set_reverse_bg_check self b).
Proof. intros H. exact H. Qed.

Lemma reset_inv self i :
  app_inv self ->
  (bg_is_video self = true -> 0 <= i < bg_total_frames self) ->
  app_inv (set_bg_index self i).
Proof.
  intros Hinv Hi Hv. change (bg_is_video self = true) in Hv.
  change (video_ready (set_bg_index self i) (bg_total_frames self)).
  apply video_ready_step; auto.
Qed.

Lemma preview_reset_inv self : app_inv self -> app_inv (preview_reset self).
Proof.
  intros Hinv. unfold preview_reset.
  destruct (bg_video_is_reversed self); apply reset_inv; try exact Hinv;
    intros Hv; destruct (Hinv Hv) as (_ & _ & _ & _ & H); lia.
Qed.

Lemma export_reset_inv self : app_inv self -> app_inv (export_reset self).
Proof.
  intros Hinv. unfold export_reset. apply reset_inv; [exact Hinv|].
  intros Hv. destruct (Hinv Hv) as (_ & _ & _ & _ & H). lia.
Qed.

Lemma play_total steps : forall self,
  app_inv self ->
  exists outs self',
    play rule resize GaussianBlur self steps = Some (outs, self') /\
    app_inv self' /\ length outs = length steps.
Proof.
  induction steps as [|[d frame] rest IH]; intros self Hinv.
  - exists [], self. auto.
  - destruct (step_total (set_reversed self d) frame
                (set_reversed_inv self d Hinv)) as (out & s1 & Hstep & H1).
    destruct (IH s1 H1) as (outs & s2 & Hplay & H2 & Hlen).
    exists (out :: outs), s2. cbn [play]. rewrite Hstep, Hplay.
    split; [reflexivity|]. split; [exact H2|]. simpl. now rewrite Hlen.
Qed.

Lemma update_preview_total g :
  app_inv (gui_app g) ->
  exists r g', refresh g = Some (r, g') /\ app_inv (gui_app g').
Proof.
  intros Hinv. unfold update_preview. destruct (fg_cap g) as [cap|].
  - destruct (cv2.read cap) as [[frame|] cap1].
    + destruct (step_total (gui_app g) frame Hinv) as (out & s1 & Hstep & H1).
      rewrite Hstep. eexists _, _. split; [reflexivity | exact H1].
    + eexists _, _. split; [reflexivity | exact Hinv].
  - eexists _, _. split; [reflexivity | exact Hinv].
Qed.

Lemma shown_then_total g :
  app_inv (gui_app g) ->
  exists frames g',
    shown_then [] (refresh g) = Some (frames, g') /\ app_inv (gui_app g').
Proof.
  intros Hinv. destruct (update_preview_total g Hinv) as (r & g' & Hr & H').
  rewrite Hr. destruct r; eexists _, _; split; try reflexivity; exact H'.
Qed.

Lemma handle_total g e :
  app_inv (gui_app g) ->
  exists frames g', handler g e = Some (frames, g') /\ app_inv (gui_app g').
Proof.
  intros Hinv.
  destruct e as [cap|decoded|img|b|v|v|v|v|v|v|v| |]; unfold handle; cbv zeta.
  - destruct cap as [cap|].
    + apply (shown_then_total (Gui (gui_app g) (Some cap))), Hinv.
    + eexists _, _. split; [reflexivity | exact Hinv].
  - pose proof (worker_keeps_inv (gui_app g) decoded Hinv) as H1.
    destruct (_load_background_video_worker (gui_app g) decoded) as [s1 [m|m]].
    + apply (shown_then_total (Gui s1 (fg_cap g))), H1.
    + eexists _, _. split; [reflexivity | exact H1].
  - pose proof (load_bg_image_keeps_inv (gui_app g) img Hinv) as H1.
    destruct (load_bg_image (gui_app g) img) as [s1 [m|m]].
    + apply (shown_then_total (Gui s1 (fg_cap g))), H1.
    + eexists _, _. split; [reflexivity | exact H1].
  - destruct (reverse_bg_check (gui_app g)).
    + apply (shown_then_total (Gui (set_reversed (gui_app g) b) (fg_cap g))).
      exact Hinv.
    + eexists _, _. split; [reflexivity | exact Hinv].
  - apply (shown_then_total (Gui (update_tolerance (gui_app g) v) (fg_cap g))).
    exact Hinv.
  - apply (shown_then_total (Gui (update_softness (gui_app g) v) (fg_cap g))).
    exact Hinv.
  - apply (shown_then_total
             (Gui (update_cast_removal (gui_app g) v) (fg_cap g))).
    exact Hinv.
  - apply (shown_then_total
             (Gui (update_fg_brightness (gui_app g) v) (fg_cap g))).
    exact Hinv.
  - apply (shown_then_total
             (Gui (update_fg_contrast (gui_app g) v) (fg_cap g))).
    exact Hinv.
  - apply (shown_then_total
             (Gui (update_bg_brightness (gui_app g) v) (fg_cap g))).
    exact Hinv.
  - apply (shown_then_total
             (Gui (update_bg_contrast (gui_app g) v) (fg_cap g))).
    exact Hinv.
  - unfold preview_composited_video.
    destruct (nothing_to_play (gui_app g) (fg_cap g));
      [eexists _, _; split; [reflexivity | exact Hinv]|].
    destruct (fg_cap g) as [cap|];
      [|eexists _, _; split; [reflexivity | exact Hinv]].
    destruct (play_total
                (with_toggles (fun _ => bg_video_is_reversed (gui_app g))
                   (cv2.cap_frames cap))
                (preview_reset (gui_app g)) (preview_reset_inv _ Hinv))
      as (outs & s1 & Hplay & H1 & _).
    rewrite Hplay. eexists _, _. split; [reflexivity | exact H1].
  - unfold export_composited_video.
    destruct (nothing_to_play (gui_app g) (fg_cap g));
      [eexists _, _; split; [reflexivity | exact Hinv]|].
    destruct (fg_cap g) as [cap|];
      [|eexists _, _; split; [reflexivity | exact Hinv]].
    destruct (play_total
                (with_toggles (fun _ => bg_video_is_reversed (gui_app g))
                   (cv2.cap_frames cap))
                (export_reset (gui_app g)) (export_reset_inv _ Hinv))
      as (outs & s1 & Hplay & H1 & _).
    rewrite Hplay. eexists _, _. split; [reflexivity | exact H1].
Qed.

Lemma run_total events : forall g,
  app_inv (gui_app g) ->
  exists shown g',
    run rule resize GaussianBlur g events = Some (shown, g') /\
    app_inv (gui_app g') /\ length shown = length events.
Proof.
  induction events as [|e rest IH]; intros g Hinv.
  - exists [], g. auto.
  - destruct (handle_total g e Hinv) as (frames & g1 & He & H1).
    destruct (IH g1 H1) as (shown & g2 & Hrun & H2 & Hlen).
    exists (frames :: shown), g2. cbn [run]. rewrite He, Hrun.
    split; [reflexivity|]. split; [exact H2|]. simpl. now rewrite Hlen.
Qed.

(** From the state the application starts in, no sequence of loads (good
    or failed), slider moves, clicks on the reverse check box, previews
    and exports, each handled to its end before the next, ever reads the
    background frame list out of range: every handler returns, and a
    raised video flag always comes with a frame list that is not empty,
    whose length is [bg_total_frames], and a cursor inside it. *)
Theorem session_never_fails (events : list event) :
  exists shown g,
    run rule resize GaussianBlur initial_gui events = Some (shown, g) /\
    app_inv (gui_app g) /\ length shown = length events.
Proof.
  apply run_total. intros H. discriminate H.
Qed.

(** ** binary64: the integer part of a mean *)

Lemma fexp64_eq e : fexp64 e = Z.max (e - 53) (-1074).
Proof. reflexivity. Qed.

Lemma shr_m_of_loc m l : shr_m (shr_record_of_loc m l) = m.
Proof. destruct l as [|[| |]]; reflexivity. Qed.

Lemma loc_of_shr_of_loc m l : loc_of_shr_record (shr_record_of_loc m l) = l.
Proof. destruct l as [|[| |]]; reflexivity. Qed.

(** The second half of [binary_round_aux]: a rounded mantissa of 53 bits,
    or [2 ^ 53], is put in canonical form without loss. *)
Lemma round_second64 sx q2 e1 :
  2 ^ 52 <= q2 <= 2 ^ 53 -> -1000 <= e1 <= 900 ->
  exists m e2,
    (let '(mrs, e) := shr_fexp 53 1024 q2 e1 loc_Exact in
     match shr_m mrs with
     | Z0 => S754_zero sx
     | Zpos m => if e <=? 1024 - 53 then S754_finite sx m e
                 else S754_infinity sx
     | Zneg _ => S754_nan
     end) = S754_finite sx m e2 /\
    e1 <= e2 <= e1 + 1 /\ Zpos m * 2 ^ (e2 - e1) = q2.
Proof.
  intros Hq He. destruct q2 as [|p|p]; try lia.
  unfold shr_fexp. cbn [Zdigits2 shr_record_of_loc].
  destruct (Z.eq_dec (Zpos p) (2 ^ 53)) as [Heq|Hne].
  - assert (Hd : Zpos (digits2_pos p) = 54)
      by (apply digits_unique; rewrite Heq; simpl; lia).
    rewrite Hd.
    replace (fexp64 (54 + e1) - e1) with 1 by (rewrite fexp64_eq; lia).
    cbn [shr iter_pos].
    pose proof (shr_1_spec (Build_shr_record (Zpos p) false false)
                  ltac:(simpl; lia)) as (Hm & _ & _).
    cbn [shr_m] in Hm.
    destruct (shr_1 (Build_shr_record (Zpos p) false false)) as [m r s].
    cbn [shr_m] in *. rewrite Heq in Hm.
    change (2 ^ 53 / 2) with (2 ^ 52) in Hm.
    destruct m as [|m|m]; try (simpl in Hm; lia).
    exists m, (e1 + 1).
    replace (e1 + 1 <=? 1024 - 53) with true by (symmetry; apply Z.leb_le; lia).
    split; [reflexivity|]. split; [lia|].
    replace (e1 + 1 - e1) with 1 by lia. rewrite Hm, Heq. reflexivity.
  - assert (Hd : Zpos (digits2_pos p) = 53)
      by (apply digits_unique; simpl; lia).
    rewrite Hd.
    replace (fexp64 (53 + e1) - e1) with 0 by (rewrite fexp64_eq; lia).
    cbn [shr shr_m]. exists p, e1.
    replace (e1 <=? 1024 - 53) with true by (symmetry; apply Z.leb_le; lia).
    split; [reflexivity|]. split; [lia|].
    rewrite Z.sub_diag. simpl. lia.
Qed.

(** Rounding a quotient of 53 or 54 bits, whatever lies below its last
    bit: the result is the quotient cut to 53 bits, or one more. *)
Lemma round_aux_faithful64 sx q e l :
  53 <= Zpos (digits2_pos q) <= 54 -> -1000 <= e <= 800 ->
  let e1 := e + (Zpos (digits2_pos q) - 53) in
  exists m e2,
    binary_round_aux 53 1024 sx (Zpos q) e l = S754_finite sx m e2 /\
    e1 <= e2 <= e1 + 1 /\
    Zpos q / 2 ^ (e1 - e) <= Zpos m * 2 ^ (e2 - e1)
      <= Zpos q / 2 ^ (e1 - e) + 1.
Proof.
  intros Hd He e1. pose proof (digits_bounds q) as [Hlo Hhi].
  unfold binary_round_aux, shr_fexp at 1. cbn [Zdigits2].
  replace (fexp64 (Zpos (digits2_pos q) + e) - e) with (e1 - e)
    by (unfold e1; rewrite fexp64_eq; lia).
  assert (Hcase : e1 - e = 0 \/ e1 - e = 1) by (unfold e1; lia).
  destruct Hcase as [H0|H1].
  - rewrite H0. cbn [shr].
    rewrite shr_m_of_loc, loc_of_shr_of_loc.
    assert (Hd53 : Zpos (digits2_pos q) = 53) by (unfold e1 in H0; lia).
    rewrite Hd53 in Hlo, Hhi.
    pose proof (round_nearest_even_bounds (Zpos q) l) as Hr.
    destruct (round_second64 sx (round_nearest_even (Zpos q) l) e)
      as (m & e2 & Hres & He2 & Hval); [simpl in *; lia | lia |].
    exists m, e2. split; [exact Hres|].
    replace e1 with e by lia. split; [lia|].
    rewrite Hval. simpl (2 ^ 0). rewrite Z.div_1_r. lia.
  - rewrite H1. cbn [shr iter_pos].
    assert (Hd54 : Zpos (digits2_pos q) = 54) by (unfold e1 in H1; lia).
    rewrite Hd54 in Hlo, Hhi.
    pose proof (shr_1_spec (shr_record_of_loc (Zpos q) l)
                  ltac:(rewrite shr_m_of_loc; lia)) as (Hm & _ & _).
    rewrite shr_m_of_loc in Hm.
    set (mrs := shr_1 (shr_record_of_loc (Zpos q) l)) in *.
    pose proof (round_nearest_even_bounds (shr_m mrs) (loc_of_shr_record mrs))
      as Hr.
    assert (Hq1 : 2 ^ 52 <= shr_m mrs < 2 ^ 53).
    { rewrite Hm. simpl in Hlo, Hhi. simpl. split.
      - apply Z.div_le_lower_bound; lia.
      - apply Z.div_lt_upper_bound; lia. }
    destruct (round_second64 sx
                (round_nearest_even (shr_m mrs) (loc_of_shr_record mrs))
                (e + 1))
      as (m & e2 & Hres & He2 & Hval); [simpl in *; lia | lia |].
    exists m, e2. split; [exact Hres|].
    replace e1 with (e + 1) by lia. split; [lia|].
    rewrite Hval. replace (e + 1 - e) with 1 by lia.
    change (2 ^ 1) with 2. rewrite <- Hm. lia.
Qed.

(** A positive integer of at most 53 bits in binary64. *)
Lemma of_Z64_pos p :
  Zpos (digits2_pos p) <= 53 ->
  exists m,
    F64.of_Z (Zpos p) = S754_finite false m (Zpos (digits2_pos p) - 53) /\
    Zpos m = Zpos p * 2 ^ (53 - Zpos (digits2_pos p)) /\
    Zpos (digits2_pos m) = 53.
Proof.
  intros Hd. pose proof (Pos2Z.is_pos (digits2_pos p)) as Hpos.
  unfold F64.of_Z, binary_normalize, binary_round.
  change F64.prec with 53. change F64.emax with 1024.
  replace (fexp64 (Zpos (digits2_pos p) + 0))
    with (Zpos (digits2_pos p) - 53) by (rewrite fexp64_eq; lia).
  pose proof (shl_align_val p 0 (Zpos (digits2_pos p) - 53) ltac:(lia)) as Hv.
  assert (He : snd (shl_align p 0 (Zpos (digits2_pos p) - 53))
               = Zpos (digits2_pos p) - 53).
  { unfold shl_align.
    destruct (Zpos (digits2_pos p) - 53 - 0) as [|d|d] eqn:E; cbn [snd]; lia. }
  destruct (shl_align p 0 (Zpos (digits2_pos p) - 53)) as [mz ez].
  cbn [fst snd] in Hv, He. subst ez.
  replace (0 - (Zpos (digits2_pos p) - 53)) with (53 - Zpos (digits2_pos p))
    in Hv by lia.
  assert (Hdz : Zpos (digits2_pos mz) = 53).
  { rewrite (digits_mul_pow2 p (53 - Zpos (digits2_pos p)) mz); [lia | lia |].
    exact Hv. }
  exists mz. split; [|split; [exact Hv | exact Hdz]].
  unfold binary_round_aux, shr_fexp. cbn [Zdigits2 shr_record_of_loc].
  rewrite Hdz.
  replace (fexp64 (53 + (Zpos (digits2_pos p) - 53))
           - (Zpos (digits2_pos p) - 53)) with 0
    by (rewrite fexp64_eq; lia).
  cbn [shr shr_m loc_of_shr_record round_nearest_even Zdigits2
       shr_record_of_loc].
  rewrite Hdz.
  replace (fexp64 (53 + (Zpos (digits2_pos p) - 53))
           - (Zpos (digits2_pos p) - 53)) with 0
    by (rewrite fexp64_eq; lia).
  cbn [shr shr_m].
  replace (Zpos (digits2_pos p) - 53 <=? 1024 - 53) with true
    by (symmetry; apply Z.leb_le; lia).
  reflexivity.
Qed.

Lemma div_eucl_div a b q r : Z.div_eucl a b = (q, r) -> q = a / b.
Proof. intros H. unfold Z.div. now rewrite H. Qed.

(** The division of two canonical numbers of 53 bits. *)
Lemma div64_core mx ex my ey :
  Zpos (digits2_pos mx) = 53 -> Zpos (digits2_pos my) = 53 ->
  -1000 <= ex - ey <= 1000 ->
  exists l,
    F64.div (S754_finite false mx ex) (S754_finite false my ey)
    = binary_round_aux 53 1024 false
        (Zpos mx * 2 ^ 53 / Zpos my) (ex - ey - 53) l.
Proof.
  intros Hdx Hdy He. unfold F64.div, SFdiv, SFdiv_core_binary.
  change F64.prec with 53. change F64.emax with 1024.
  cbv zeta. cbn [Zdigits2 xorb]. rewrite Hdx, Hdy.
  replace (Z.min (fexp64 (53 + ex - (53 + ey))) (ex - ey))
    with (ex - ey - 53) by (rewrite fexp64_eq; lia).
  replace (ex - ey - (ex - ey - 53)) with 53 by lia.
  cbv iota. rewrite Z.shiftl_mul_pow2 by lia.
  destruct (Z.div_eucl (Zpos mx * 2 ^ 53) (Zpos my)) as [q r] eqn:E.
  apply div_eucl_div in E. subst q.
  exists (new_location (Zpos my) r). reflexivity.
Qed.

(** Scaling a floor: cutting [s * P / n] to an integer and then by [P]
    gives the floor of [s / n], and so does the next integer, as long as
    [P] exceeds [n]. *)
Lemma floor_scale s n P q1 k :
  0 < n -> n < P ->
  q1 * n <= s * P < (q1 + 1) * n ->
  k * n <= s < (k + 1) * n ->
  k * P <= q1 /\ q1 + 1 < (k + 1) * P.
Proof.
  intros Hn HP [Hq1 Hq2] [Hk1 Hk2]. split.
  - destruct (Z.le_gt_cases (k * P) q1) as [H|H]; [exact H|]. exfalso.
    assert (H1 : (q1 + 1) * n <= k * P * n)
      by (apply Z.mul_le_mono_nonneg_r; lia).
    assert (H2 : k * n * P <= s * P)
      by (apply Z.mul_le_mono_nonneg_r; lia).
    lia.
  - destruct (Z.lt_ge_cases (q1 + 1) ((k + 1) * P)) as [H|H]; [exact H|].
    exfalso.
    assert (H1 : ((k + 1) * P - 1) * n <= q1 * n)
      by (apply Z.mul_le_mono_nonneg_r; lia).
    assert (H2 : s * P <= ((k + 1) * n - 1) * P)
      by (apply Z.mul_le_mono_nonneg_r; lia).
    lia.
Qed.

Lemma between_cancel a b c T :
  0 < T -> a * T <= b * T < c * T -> a <= b < c.
Proof.
  intros HT [H1 H2]. split.
  - now apply (Z.mul_le_mono_pos_r a b T HT).
  - now apply (Z.mul_lt_mono_pos_r T b c HT).
Qed.

(** [int(s / n)] computed in binary64 is the integer quotient, for a sum
    below [2 ^ 52] and a count below [2 ^ 53]. *)
Lemma to_int_div64 s n :
  0 <= s < 2 ^ 52 -> 0 < n < 2 ^ 53 ->
  F64.to_int (F64.div (F64.of_Z s) (F64.of_Z n)) = Some (s / n).
Proof.
  intros Hs Hn. destruct n as [|pn|pn]; try lia.
  pose proof (digits_bounds pn) as [Hnlo Hnhi].
  assert (Hdn : Zpos (digits2_pos pn) <= 53).
  { destruct (Z.le_gt_cases (Zpos (digits2_pos pn)) 53); auto.
    assert (2 ^ 53 <= 2 ^ (Zpos (digits2_pos pn) - 1))
      by (apply Z.pow_le_mono_r; lia). lia. }
  destruct (of_Z64_pos pn Hdn) as (my & Hy & Hmy & Hdy).
  rewrite Hy. destruct s as [|ps|ps]; try lia.
  - (* the sum is zero *)
    rewrite Z.div_0_l by lia. reflexivity.
  - pose proof (digits_bounds ps) as [Hslo Hshi].
    assert (Hds : Zpos (digits2_pos ps) <= 52).
    { destruct (Z.le_gt_cases (Zpos (digits2_pos ps)) 52); auto.
      assert (2 ^ 52 <= 2 ^ (Zpos (digits2_pos ps) - 1))
        by (apply Z.pow_le_mono_r; lia). lia. }
    destruct (of_Z64_pos ps ltac:(lia)) as (mx & Hx & Hmx & Hdx).
    rewrite Hx.
    set (ds := Zpos (digits2_pos ps)) in *.
    set (dn := Zpos (digits2_pos pn)) in *.
    pose proof (Pos2Z.is_pos (digits2_pos ps)) as Hds0. fold ds in Hds0.
    pose proof (Pos2Z.is_pos (digits2_pos pn)) as Hdn0. fold dn in Hdn0.
    destruct (div64_core mx (ds - 53) my (dn - 53) Hdx Hdy ltac:(lia))
      as (l & Hdiv).
    rewrite Hdiv. clear Hdiv Hx Hy.
    replace (ds - 53 - (dn - 53) - 53) with (ds - dn - 53) by lia.
    (* the quotient has 53 or 54 bits *)
    pose proof (digits_bounds mx) as [Hxlo Hxhi]. rewrite Hdx in Hxlo, Hxhi.
    pose proof (digits_bounds my) as [Hylo Hyhi]. rewrite Hdy in Hylo, Hyhi.
    change (2 ^ (53 - 1)) with (2 ^ 52) in *.
    set (q := Zpos mx * 2 ^ 53 / Zpos my).
    assert (H53 : 0 < 2 ^ 53) by (apply Z.pow_pos_nonneg; lia).
    assert (H52 : 2 ^ 53 = 2 * 2 ^ 52) by reflexivity.
    assert (Hq : 2 ^ 52 <= q < 2 ^ 54).
    { unfold q. split.
      - apply Z.div_le_lower_bound; [lia|]. nia.
      - apply Z.div_lt_upper_bound; [lia|].
        change (2 ^ 54) with (2 * 2 ^ 53). nia. }
    assert (Hqm : q * Zpos my <= Zpos mx * 2 ^ 53 < (q + 1) * Zpos my).
    { unfold q. pose proof (Z.mul_div_le (Zpos mx * 2 ^ 53) (Zpos my) ltac:(lia)).
      pose proof (Z.mul_succ_div_gt (Zpos mx * 2 ^ 53) (Zpos my) ltac:(lia)).
      lia. }
    destruct q as [|pq|pq] eqn:Eq; try lia.
    assert (Hdq : 53 <= Zpos (digits2_pos pq) <= 54).
    { pose proof (digits_bounds pq) as [Hqlo Hqhi]. split.
      - destruct (Z.le_gt_cases 53 (Zpos (digits2_pos pq))); auto.
        assert (2 ^ Zpos (digits2_pos pq) <= 2 ^ 52)
          by (apply Z.pow_le_mono_r; lia). lia.
      - destruct (Z.le_gt_cases (Zpos (digits2_pos pq)) 54); auto.
        assert (2 ^ 54 <= 2 ^ (Zpos (digits2_pos pq) - 1))
          by (apply Z.pow_le_mono_r; lia). lia. }
    destruct (round_aux_faithful64 false pq (ds - dn - 53) l Hdq ltac:(lia))
      as (m & e2 & Hres & He2 & Hval).
    rewrite Hres. clear Hres.
    set (dl := Zpos (digits2_pos pq) - 53) in *.
    replace (ds - dn - 53 + dl - (ds - dn - 53)) with dl in Hval by lia.
    set (e1 := ds - dn - 53 + dl) in *.
    set (B := - e1). set (t := e2 - e1) in *.
    assert (HB : dn <= B /\ 0 <= t <= 1 /\ 0 <= dl <= 1 /\ e2 = t - B /\
                 53 - ds + dn = B + dl)
      by (unfold B, t, e1, dl in *; lia).
    destruct HB as (HBn & Ht & Hdl & He2' & HA).
    (* the integer part is [Zpos m / 2 ^ (B - t)] *)
    assert (Hint : F64.to_int (S754_finite false m e2)
                   = Some (Zpos m / 2 ^ (B - t))).
    { unfold F64.to_int. destruct (Z.leb_spec 0 e2) as [H0|H0].
      - replace e2 with 0 by lia.
        replace (B - t) with 0 by lia. rewrite Z.shiftl_0_r.
        simpl (2 ^ 0). now rewrite Z.div_1_r.
      - rewrite Z.shiftr_div_pow2 by lia. do 3 f_equal. lia. }
    rewrite Hint. f_equal. clear Hint.
    (* powers of two, as positive numbers *)
    set (P := 2 ^ B). set (T := 2 ^ t) in Hval. set (D := 2 ^ dl) in Hval.
    set (Pt := 2 ^ (B - t)).
    set (U := 2 ^ (53 - dn)) in Hmy. set (V := 2 ^ (53 - ds)) in Hmx.
    assert (HP : 0 < P) by (apply Z.pow_pos_nonneg; lia).
    assert (HT : 0 < T) by (apply Z.pow_pos_nonneg; lia).
    assert (HD : 0 < D) by (apply Z.pow_pos_nonneg; lia).
    assert (HPt : 0 < Pt) by (apply Z.pow_pos_nonneg; lia).
    assert (HU : 0 < U) by (apply Z.pow_pos_nonneg; lia).
    assert (HV : 0 < V) by (apply Z.pow_pos_nonneg; lia).
    assert (HPT : P = Pt * T)
      by (unfold P, Pt, T; rewrite <- Z.pow_add_r by lia; f_equal; lia).
    assert (HVU : V * 2 ^ 53 = P * D * U).
    { unfold V, P, D, U. rewrite <- !Z.pow_add_r by lia. f_equal. lia. }
    assert (HPN : Zpos pn < P).
    { eapply Z.lt_le_trans; [exact Hnhi|]. apply Z.pow_le_mono_r; lia. }
    (* the quotient cut to 53 bits is the floor of [s * P / n] *)
    set (q1 := Zpos pq / D) in *.
    assert (Hq1 : q1 * D <= Zpos pq < (q1 + 1) * D).
    { unfold q1. pose proof (Z.mul_div_le (Zpos pq) D HD).
      pose proof (Z.mul_succ_div_gt (Zpos pq) D HD). lia. }
    assert (Hfl : q1 * Zpos pn <= Zpos ps * P < (q1 + 1) * Zpos pn).
    { rewrite Hmx, Hmy in Hqm.
      replace (Zpos ps * V * 2 ^ 53) with (Zpos ps * (V * 2 ^ 53)) in Hqm by lia.
      rewrite HVU in Hqm.
      assert (Hc : Zpos pq * Zpos pn <= Zpos ps * P * D
                     < (Zpos pq + 1) * Zpos pn).
      { apply (between_cancel _ _ _ U HU).
        replace (Zpos pq * Zpos pn * U) with (Zpos pq * (Zpos pn * U)) by ring.
        replace (Zpos ps * P * D * U) with (Zpos ps * (P * D * U)) by ring.
        replace ((Zpos pq + 1) * Zpos pn * U)
          with ((Zpos pq + 1) * (Zpos pn * U)) by ring.
        exact Hqm. }
      destruct Hc as [Ha Hb]. apply (between_cancel _ _ _ D HD). split.
      - apply Z.le_trans with (Zpos pq * Zpos pn); [|lia].
        replace (q1 * Zpos pn * D) with (q1 * D * Zpos pn) by ring.
        apply Z.mul_le_mono_nonneg_r; lia.
      - apply Z.lt_le_trans with ((Zpos pq + 1) * Zpos pn); [lia|].
        replace ((q1 + 1) * Zpos pn * D) with ((q1 + 1) * D * Zpos pn) by ring.
        apply Z.mul_le_mono_nonneg_r; lia. }
    set (k := Zpos ps / Zpos pn).
    assert (Hk : k * Zpos pn <= Zpos ps < (k + 1) * Zpos pn).
    { unfold k. pose proof (Z.mul_div_le (Zpos ps) (Zpos pn) ltac:(lia)).
      pose proof (Z.mul_succ_div_gt (Zpos ps) (Zpos pn) ltac:(lia)). lia. }
    assert (Hk0 : 0 <= k) by (unfold k; apply Z.div_pos; lia).
    destruct (floor_scale (Zpos ps) (Zpos pn) P q1 k ltac:(lia) HPN Hfl Hk)
      as [Hlo Hhi].
    assert (Hm : k * Pt <= Zpos m < (k + 1) * Pt).
    { apply (between_cancel _ _ _ T HT). rewrite HPT in Hlo, Hhi.
      replace (k * Pt * T) with (k * (Pt * T)) by ring.
      replace ((k + 1) * Pt * T) with ((k + 1) * (Pt * T)) by ring. lia. }
    symmetry. apply (Z.div_unique_pos (Zpos m) Pt k (Zpos m - k * Pt)); lia.
Qed.

(** ** The mean of 8-bit values *)

Lemma sum_bounds values :
  Forall channel_ok values ->
  0 <= fold_right Z.add 0 values <= 255 * Z.of_nat (length values).
Proof.
  induction 1 as [|v values Hv _ IH]; [simpl; lia|].
  cbn [fold_right length]. unfold channel_ok in Hv. lia.
Qed.

(** [int(np.mean(values))] is the integer quotient of the sum by the
    count, for fewer than [2 ^ 44] values from 0 to 255. *)
Lemma to_int_mean values :
  Forall channel_ok values -> values <> [] ->
  Z.of_nat (length values) < 2 ^ 44 ->
  F64.to_int (np_mean values)
  = Some (fold_right Z.add 0 values / Z.of_nat (length values)).
Proof.
  intros Hok Hne Hlen. pose proof (sum_bounds values Hok) as Hs.
  assert (0 < Z.of_nat (length values))
    by (destruct values; [congruence | simpl length; lia]).
  change (2 ^ 44) with 17592186044416 in Hlen.
  unfold np_mean. apply to_int_div64.
  - change (2 ^ 52) with 4503599627370496. lia.
  - change (2 ^ 53) with 9007199254740992. lia.
Qed.

Lemma channel_values_ok ch roi :
  (forall p, pixel_ok p -> channel_ok (ch p)) ->
  raster_ok roi -> Forall channel_ok (channel_values ch roi).
Proof.
  intros Hch Hok. unfold channel_values, raster_ok in *.
  apply Forall_map. apply Forall_concat in Hok.
  eapply Forall_impl; [|exact Hok]. exact Hch.
Qed.

Lemma mean_color_floor roi :
  raster_ok roi -> concat roi <> [] ->
  Z.of_nat (length (concat roi)) < 2 ^ 44 ->
  let n := Z.of_nat (length (concat roi)) in
  let total ch := fold_right Z.add 0 (channel_values ch roi) in
  mean_color roi = Some (total chR / n, total chG / n, total chB / n).
Proof.
  intros Hok Hne Hlen n total. unfold mean_color.
  assert (Hl : forall ch, length (channel_values ch roi) = length (concat roi))
    by (intros ch; unfold channel_values; apply length_map).
  assert (Hn : forall ch, channel_values ch roi <> []).
  { intros ch E. apply (f_equal (@length Z)) in E. rewrite Hl in E.
    destruct (concat roi); [congruence | discriminate]. }
  rewrite (to_int_mean (channel_values chB roi)), (to_int_mean (channel_values chG roi)),
    (to_int_mean (channel_values chR roi)); rewrite ?Hl; auto;
    apply channel_values_ok; auto; intros p Hp; apply Hp.
Qed.

Lemma mean_color_empty roi : concat roi = [] -> mean_color roi = None.
Proof.
  intros H. unfold mean_color, channel_values. rewrite H. reflexivity.
Qed.

(** ** Slices and regions *)

Lemma py_slice_inside {A} (l : list A) lo hi :
  0 <= lo <= hi -> hi <= Z.of_nat (length l) ->
  py_slice l lo hi = firstn (Z.to_nat (hi - lo)) (skipn (Z.to_nat lo) l).
Proof.
  intros Hlo Hhi. unfold py_slice. cbv zeta.
  destruct (Z.ltb_spec lo 0); [lia|]. destruct (Z.ltb_spec hi 0); [lia|].
  now rewrite !Z.min_l by lia.
Qed.

Lemma length_py_slice {A} (l : list A) lo hi :
  0 <= lo <= hi -> hi <= Z.of_nat (length l) ->
  length (py_slice l lo hi) = Z.to_nat (hi - lo).
Proof.
  intros Hlo Hhi. rewrite py_slice_inside by assumption.
  rewrite length_firstn, length_skipn. lia.
Qed.

Lemma nth_error_py_slice {A} (l : list A) lo hi i :
  0 <= lo <= hi -> hi <= Z.of_nat (length l) ->
  (i < Z.to_nat (hi - lo))%nat ->
  nth_error (py_slice l lo hi) i = nth_error l (Z.to_nat lo + i).
Proof.
  intros Hlo Hhi Hi. rewrite py_slice_inside by assumption.
  rewrite nth_error_firstn.
  destruct (Nat.ltb_spec i (Z.to_nat (hi - lo))); [|lia].
  apply nth_error_skipn.
Qed.

Lemma Forall_py_slice {A} (P : A -> Prop) (l : list A) lo hi :
  Forall P l -> Forall P (py_slice l lo hi).
Proof.
  intros H. unfold py_slice. cbv zeta.
  set (a := Z.to_nat _). set (b := Z.to_nat _).
  assert (Hs : Forall P (skipn b l)).
  { rewrite <- (firstn_skipn b l) in H. now apply Forall_app in H. }
  rewrite <- (firstn_skipn a (skipn b l)) in Hs. now apply Forall_app in Hs.
Qed.

Lemma region_ok frame ya yb xa xb :
  raster_ok frame -> raster_ok (region frame ya yb xa xb).
Proof.
  intros H. unfold region, raster_ok in *. apply Forall_map.
  eapply Forall_impl; [|apply Forall_py_slice, H].
  intros row Hrow. now apply Forall_py_slice.
Qed.

Lemma region_shape frame h w ya yb xa xb :
  has_shape h w frame ->
  0 <= ya <= yb -> yb <= Z.of_nat h -> 0 <= xa <= xb -> xb <= Z.of_nat w ->
  has_shape (Z.to_nat (yb - ya)) (Z.to_nat (xb - xa))
    (region frame ya yb xa xb).
Proof.
  intros [Hl Hr] Hy Hyb Hx Hxb. unfold region. split.
  - rewrite length_map. apply length_py_slice; [exact Hy | lia].
  - apply Forall_map.
    eapply Forall_impl; [|apply Forall_py_slice, Hr].
    intros row Hrow. cbv beta in *. apply length_py_slice; [exact Hx | lia].
Qed.

Lemma at_region frame h w ya yb xa xb i j :
  has_shape h w frame ->
  0 <= ya <= yb -> yb <= Z.of_nat h -> 0 <= xa <= xb -> xb <= Z.of_nat w ->
  (i < Z.to_nat (yb - ya))%nat -> (j < Z.to_nat (xb - xa))%nat ->
  at_ (region frame ya yb xa xb) i j
  = at_ frame (Z.to_nat ya + i) (Z.to_nat xa + j).
Proof.
  intros [Hl Hr] Hy Hyb Hx Hxb Hi Hj. unfold at_, region.
  rewrite nth_error_map, (nth_error_py_slice frame ya yb i Hy) by lia.
  destruct (nth_error frame (Z.to_nat ya + i)) as [row|] eqn:E;
    [|reflexivity].
  cbn [option_map]. rewrite Forall_forall in Hr.
  pose proof (Hr row (nth_error_In _ _ E)) as Hrow.
  apply nth_error_py_slice; [exact Hx | lia | exact Hj].
Qed.

Lemma region_count frame h w ya yb xa xb :
  has_shape h w frame ->
  0 <= ya <= yb -> yb <= Z.of_nat h -> 0 <= xa <= xb -> xb <= Z.of_nat w ->
  Z.of_nat (length (concat (region frame ya yb xa xb)))
  = (yb - ya) * (xb - xa).
Proof.
  intros Hf Hy Hyb Hx Hxb.
  rewrite (length_concat_shape _ _ _
             (region_shape frame h w ya yb xa xb Hf Hy Hyb Hx Hxb)).
  rewrite Nat2Z.inj_mul, !Z2Nat.id by lia. reflexivity.
Qed.

(** ** The colour picker *)

Lemma read_at cap frame :
  nth_error (cv2.cap_frames cap) (cv2.cap_pos cap) = Some frame ->
  cv2.read cap
  = (Some frame, cv2.Capture (cv2.cap_frames cap) (S (cv2.cap_pos cap))).
Proof. intros H. unfold cv2.read. now rewrite H. Qed.

(** The release of the button over a box inside the frame. *)
Lemma release_inside self box fg_cap frame x y h w :
  nth_error (cv2.cap_frames fg_cap) (cv2.cap_pos fg_cap) = Some frame ->
  has_shape h w frame -> raster_ok frame ->
  let x0 := Z.min (Picker.x0 box) x in
  let x1 := Z.max (Picker.x0 box) x in
  let y0 := Z.min (Picker.y0 box) y in
  let y1 := Z.max (Picker.y0 box) y in
  0 <= x0 -> x0 < x1 -> x1 <= Z.of_nat w ->
  0 <= y0 -> y0 < y1 -> y1 <= Z.of_nat h ->
  (y1 - y0) * (x1 - x0) < 2 ^ 44 ->
  let roi := region frame y0 y1 x0 x1 in
  let n := (y1 - y0) * (x1 - x0) in
  let total ch := fold_right Z.add 0 (channel_values ch roi) in
  _pick_color_callback self box fg_cap EVENT_LBUTTONUP x y
  = Some (set_bg_color self (total chR / n, total chG / n, total chB / n),
          Picker.State false (Picker.x0 box) (Picker.y0 box) x y true,
          cv2.Capture (cv2.cap_frames fg_cap) (S (cv2.cap_pos fg_cap))).
Proof.
  intros Hread Hf Hok x0 x1 y0 y1 Hx0 Hx Hx1 Hy0 Hy Hy1 Hn roi n total.
  pose proof (region_count frame h w y0 y1 x0 x1 Hf
                ltac:(lia) Hy1 ltac:(lia) Hx1) as Hcount.
  fold roi n in Hcount.
  unfold _pick_color_callback. fold x0 x1 y0 y1. cbv zeta.
  rewrite (read_at fg_cap frame Hread).
  destruct (Z.ltb_spec x0 x1); [|lia]. destruct (Z.ltb_spec y0 y1); [|lia].
  cbn [andb]. fold roi.
  assert (Hne : concat roi <> []).
  { intros E. rewrite E in Hcount. simpl in Hcount.
    assert (0 < n) by (unfold n; apply Z.mul_pos_pos; lia). lia. }
  rewrite (mean_color_floor roi (region_ok frame y0 y1 x0 x1 Hok) Hne)
    by (rewrite Hcount; exact Hn).
  cbv zeta. rewrite Hcount. reflexivity.
Qed.

(** Releasing the button over a box inside the frame: the key colour
    becomes, channel by channel, the integer quotient of the sum of the
    channel over the box by the number of its pixels; the box holds the
    rows from [y0] to [y1 - 1] and the columns from [x0] to [x1 - 1],
    whichever corner the drag started from. *)
Theorem picked_colour_is_floor_of_mean
  (self : ChromaKeyApp) (box : Picker.state) (fg_cap : cv2.VideoCapture)
  (frame : raster) (x y : Z) (h w : nat) :
  nth_error (cv2.cap_frames fg_cap) (cv2.cap_pos fg_cap) = Some frame ->
  has_shape h w frame -> raster_ok frame ->
  let x0 := Z.min (Picker.x0 box) x in
  let x1 := Z.max (Picker.x0 box) x in
  let y0 := Z.min (Picker.y0 box) y in
  let y1 := Z.max (Picker.y0 box) y in
  0 <= x0 -> x0 < x1 -> x1 <= Z.of_nat w ->
  0 <= y0 -> y0 < y1 -> y1 <= Z.of_nat h ->
  (y1 - y0) * (x1 - x0) < 2 ^ 44 ->
  let roi := region frame y0 y1 x0 x1 in
  let n := (y1 - y0) * (x1 - x0) in
  let total ch := fold_right Z.add 0 (channel_values ch roi) in
  (forall i j,
     (i < Z.to_nat (y1 - y0))%nat -> (j < Z.to_nat (x1 - x0))%nat ->
     at_ roi i j = at_ frame (Z.to_nat y0 + i) (Z.to_nat x0 + j)) /\
  Z.of_nat (length (concat roi)) = n /\
  _pick_color_callback self box fg_cap EVENT_LBUTTONUP x y
  = Some (set_bg_color self (total chR / n, total chG / n, total chB / n),
          Picker.State false (Picker.x0 box) (Picker.y0 box) x y true,
          cv2.Capture (cv2.cap_frames fg_cap) (S (cv2.cap_pos fg_cap))).
Proof.
  intros Hread Hf Hok x0 x1 y0 y1 Hx0 Hx Hx1 Hy0 Hy Hy1 Hn roi n total.
  split; [|split].
  - intros i j Hi Hj. apply (at_region frame h w); auto; lia.
  - apply (region_count frame h w); auto; lia.
  - exact (release_inside self box fg_cap frame x y h w Hread Hf Hok
             Hx0 Hx Hx1 Hy0 Hy Hy1 Hn).
Qed.

Lemma sum_constant v values :
  Forall (eq v) values ->
  fold_right Z.add 0 values = v * Z.of_nat (length values).
Proof.
  induction 1 as [|u values Hu _ IH]; [simpl; lia|].
  cbn [fold_right length]. rewrite IH, <- Hu. lia.
Qed.

Lemma Forall2d_of_at {A} (P : A -> Prop) (r : list (list A)) :
  (forall i j p, at_ r i j = Some p -> P p) -> Forall (Forall P) r.
Proof.
  intros H. apply Forall_forall. intros row Hrow.
  apply Forall_forall. intros p Hp.
  destruct (In_nth_error _ _ Hrow) as [i Hi].
  destruct (In_nth_error _ _ Hp) as [j Hj].
  apply (H i j). unfold at_. now rewrite Hi.
Qed.

(** Picking inside an area of one colour hands that colour to the core:
    the box is averaged to the colour itself, it is stored as (R, G, B),
    and every later call of the core gets it back as the (B, G, R) key. *)
Theorem picking_a_uniform_area_keys_its_colour
  (self : ChromaKeyApp) (box : Picker.state) (fg_cap : cv2.VideoCapture)
  (frame : raster) (x y : Z) (h w : nat) (c : pixel) :
  nth_error (cv2.cap_frames fg_cap) (cv2.cap_pos fg_cap) = Some frame ->
  has_shape h w frame -> raster_ok frame ->
  let x0 := Z.min (Picker.x0 box) x in
  let x1 := Z.max (Picker.x0 box) x in
  let y0 := Z.min (Picker.y0 box) y in
  let y1 := Z.max (Picker.y0 box) y in
  0 <= x0 -> x0 < x1 -> x1 <= Z.of_nat w ->
  0 <= y0 -> y0 < y1 -> y1 <= Z.of_nat h ->
  (y1 - y0) * (x1 - x0) < 2 ^ 44 ->
  (forall i j p,
     (Z.to_nat y0 <= i < Z.to_nat y1)%nat ->
     (Z.to_nat x0 <= j < Z.to_nat x1)%nat ->
     at_ frame i j = Some p -> p = c) ->
  exists self' box' fg_cap',
    _pick_color_callback self box fg_cap EVENT_LBUTTONUP x y
    = Some (self', box', fg_cap') /\
    bg_color self' = (chR c, chG c, chB c) /\
    Picker.color_picked box' = true /\
    forall adjusted_foreground bg_source,
      call_core rule resize GaussianBlur self' adjusted_foreground bg_source
      = fst (perform_chroma_key rule resize GaussianBlur adjusted_foreground
               (ImageBackground bg_source) c
               (tolerance self) (softness self) (color_spill self)).
Proof.
  intros Hread Hf Hok x0 x1 y0 y1 Hx0 Hx Hx1 Hy0 Hy Hy1 Hn Huni.
  pose proof (region_count frame h w y0 y1 x0 x1 Hf
                ltac:(lia) Hy1 ltac:(lia) Hx1) as Hcount.
  set (roi := region frame y0 y1 x0 x1) in *.
  set (n := (y1 - y0) * (x1 - x0)) in *.
  assert (Hcall :
    _pick_color_callback self box fg_cap EVENT_LBUTTONUP x y
    = Some (set_bg_color self
              (fold_right Z.add 0 (channel_values chR roi) / n,
               fold_right Z.add 0 (channel_values chG roi) / n,
               fold_right Z.add 0 (channel_values chB roi) / n),
            Picker.State false (Picker.x0 box) (Picker.y0 box) x y true,
            cv2.Capture (cv2.cap_frames fg_cap) (S (cv2.cap_pos fg_cap))))
    by exact (release_inside self box fg_cap frame x y h w
                Hread Hf Hok Hx0 Hx Hx1 Hy0 Hy Hy1 Hn).
  assert (Hn0 : 0 < n) by (unfold n; apply Z.mul_pos_pos; lia).
  assert (Hall : Forall (eq c) (concat roi)).
  { apply Forall_concat, Forall2d_of_at. intros i j p Hp.
    pose proof (region_shape frame h w y0 y1 x0 x1 Hf
                  ltac:(lia) Hy1 ltac:(lia) Hx1) as Hs.
    destruct (at_has_shape _ _ _ i j p Hs Hp) as [Hi Hj].
    unfold roi in Hp.
    rewrite (at_region frame h w y0 y1 x0 x1 i j Hf) in Hp by (auto; lia).
    symmetry. apply (Huni _ _ p) in Hp; [exact Hp | lia | lia]. }
  assert (Htot : forall ch,
             fold_right Z.add 0 (channel_values ch roi) / n = ch c).
  { intros ch. unfold channel_values.
    rewrite (sum_constant (ch c) (map ch (concat roi))).
    - rewrite length_map, Hcount. apply Z.div_mul. lia.
    - apply Forall_map. eapply Forall_impl; [|exact Hall].
      intros p Hp. now rewrite Hp. }
  rewrite !Htot in Hcall.
  eexists _, _, _. split; [exact Hcall|].
  split; [reflexivity|]. split; [reflexivity|].
  intros fg bg. unfold call_core, set_bg_color.
  cbn [bg_color tolerance softness color_spill]. now destruct c.
Qed.

(** A release that leaves no area (the button comes up in the column or
    in the row it went down in), or for which no frame can be read, keeps
    the key colour as it is; the picking is over all the same. *)
Theorem selection_without_area_keeps_colour
  (self : ChromaKeyApp) (box : Picker.state) (fg_cap : cv2.VideoCapture)
  (x y : Z) :
  Picker.x0 box = x \/ Picker.y0 box = y \/
  nth_error (cv2.cap_frames fg_cap) (cv2.cap_pos fg_cap) = None ->
  _pick_color_callback self box fg_cap EVENT_LBUTTONUP x y
  = Some (self,
          Picker.State false (Picker.x0 box) (Picker.y0 box) x y true,
          snd (cv2.read fg_cap)).
Proof.
  intros H. unfold _pick_color_callback. cbv zeta.
  destruct (cv2.read fg_cap) as [[frame|] cap'] eqn:E; cbn [snd];
    [|reflexivity].
  destruct H as [H|[H|H]].
  - rewrite H, Z.min_id, Z.max_id, Z.ltb_irrefl. reflexivity.
  - rewrite H, Z.min_id, Z.max_id, Z.ltb_irrefl, andb_false_r. reflexivity.
  - unfold cv2.read in E. rewrite H in E. discriminate.
Qed.

(** The coordinates are not checked against the frame: a box that lies
    to the right of the frame or below it is an empty region, its mean is
    a NaN, and converting it to an integer raises. *)
Theorem selection_outside_frame_raises
  (self : ChromaKeyApp) (box : Picker.state) (fg_cap : cv2.VideoCapture)
  (frame : raster) (x y : Z) (h w : nat) :
  nth_error (cv2.cap_frames fg_cap) (cv2.cap_pos fg_cap) = Some frame ->
  has_shape h w frame ->
  let x0 := Z.min (Picker.x0 box) x in
  let x1 := Z.max (Picker.x0 box) x in
  let y0 := Z.min (Picker.y0 box) y in
  let y1 := Z.max (Picker.y0 box) y in
  x0 < x1 -> y0 < y1 ->
  Z.of_nat w <= x0 \/ Z.of_nat h <= y0 ->
  _pick_color_callback self box fg_cap EVENT_LBUTTONUP x y = None.
Proof.
  intros Hread [Hl Hr] x0 x1 y0 y1 Hx Hy Hout.
  unfold _pick_color_callback. fold x0 x1 y0 y1. cbv zeta.
  rewrite (read_at fg_cap frame Hread).
  destruct (Z.ltb_spec x0 x1); [|lia]. destruct (Z.ltb_spec y0 y1); [|lia].
  cbn [andb]. rewrite mean_color_empty; [reflexivity|].
  unfold region. destruct Hout as [Hw|Hh].
  - apply concat_nil_Forall, Forall_map.
    eapply Forall_impl; [|apply Forall_py_slice, Hr].
    intros row Hrow. cbv beta in Hrow. unfold py_slice. cbv zeta.
    rewrite Hrow.
    destruct (Z.ltb_spec x0 0); [lia|]. destruct (Z.ltb_spec x1 0); [lia|].
    rewrite !Z.min_r by lia. now rewrite Z.sub_diag.
  - replace (py_slice frame y0 y1) with (@nil (list pixel)); [reflexivity|].
    unfold py_slice. cbv zeta. rewrite Hl.
    destruct (Z.ltb_spec y0 0); [lia|]. destruct (Z.ltb_spec y1 0); [lia|].
    rewrite !Z.min_r by lia. now rewrite Z.sub_diag.
Qed.

(** ** The size of what is exported *)








(** ** The blend formula, written out *)

(** C1 (amended). For a frame and a background image of the same size
    the output has that size, and at every position the blue and red
    channels are [alpha * background + (1 - alpha) * frame], computed in
    binary32, clipped to 0..255 and truncated to 8 bits; so is the green
    channel when the spill suppression is not positive, and when it is
    positive the spill suppression is subtracted from the green blend
    (and the difference clipped) before the final clip.  The formula is
    written out on the binary32 operations: where the matte is 1.0 the
    pixel that comes out is the background pixel, where it is 0.0 the
    frame pixel (8-bit rasters, no spill suppression). *)
Theorem C1_size_and_blend
  (frame bg : raster) (key : pixel) (tol soft spill : Z) (h w : nat) :
  (0 < h)%nat -> (0 < w)%nat ->
  has_shape h w frame -> has_shape h w bg ->
  let out := fst (perform frame (ImageBackground bg) key tol soft spill) in
  let alpha := matte (key_mask rule frame key tol) soft in
  has_shape h w out /\
  forall i j, (i < h)%nat -> (j < w)%nat ->
    exists a b f p,
      at_ alpha i j = Some a /\ at_ bg i j = Some b /\
      at_ frame i j = Some f /\ at_ out i j = Some p /\
      pixel_ok p /\
      let mix := fun background foreground : Z =>
        F32.add (F32.mul a (F32.of_Z background))
                (F32.mul (F32.sub (F32.of_Z 1) a) (F32.of_Z foreground)) in
      let to_8bit := fun x : F32.t =>
        F32.astype_uint8 (F32.clip x (F32.of_Z 0) (F32.of_Z 255)) in
      chB p = to_8bit (mix (chB b) (chB f)) /\
      chR p = to_8bit (mix (chR b) (chR f)) /\
      chG p =
        (if 0 <? spill
         then to_8bit (F32.clip (F32.sub (mix (chG b) (chG f))
                                         (F32.of_Z spill))
                                (F32.of_Z 0) (F32.of_Z 255))
         else to_8bit (mix (chG b) (chG f))) /\
      (spill <= 0 -> pixel_ok b -> pixel_ok f ->
       (a = F32.of_Z 1 -> p = b) /\ (a = F32.of_Z 0 -> p = f)).
Proof.
  intros Hh Hw Hf Hb out alpha.
  assert (Ha : has_shape h w alpha)
    by (apply has_shape_matte, has_shape_key_mask, Hf).
  unfold out. rewrite (perform_image _ _ _ _ _ _ h w Hh Hw Hf Hb).
  cbn [fst]. split.
  - now apply has_shape_composite.
  - intros i j Hi Hj.
    destruct (has_shape_at h w alpha i j Ha Hi Hj) as [a Ea].
    destruct (has_shape_at h w bg i j Hb Hi Hj) as [b Eb].
    destruct (has_shape_at h w frame i j Hf Hi Hj) as [f Ef].
    exists a, b, f, (finish1 (spill1 spill (blend_pixel a b f))).
    rewrite at_composite. fold alpha. rewrite Ea, Eb, Ef.
    split; [reflexivity|]. split; [reflexivity|]. split; [reflexivity|].
    split; [reflexivity|].
    split; [apply finish1_ok|].
    cbv zeta.
    split; [unfold spill1; destruct (0 <? spill); reflexivity|].
    split; [unfold spill1; destruct (0 <? spill); reflexivity|].
    split; [unfold spill1; destruct (0 <? spill); reflexivity|].
    intros Hsp (B1 & B2 & B3) (F1 & F2 & F3).
    rewrite (spill1_off spill _ Hsp). unfold blend_pixel. split.
    + intros Hone. change (F32.of_Z 1) with F32.one in Hone. subst a.
      rewrite (blend1_one _ _ B1 F1), (blend1_one _ _ B2 F2),
        (blend1_one _ _ B3 F3).
      apply finish1_exact. unfold pixel_ok; auto.
    + intros Hzero. change (F32.of_Z 0) with F32.zero in Hzero. subst a.
      rewrite (blend1_zero _ _ B1 F1), (blend1_zero _ _ B2 F2),
        (blend1_zero _ _ B3 F3).
      apply finish1_exact. unfold pixel_ok; auto.
Qed.

(** ** A frame of the key colour *)

(** A frame made of one colour that the mask accepts is replaced by the
    background image, with softness 0 and no spill suppression. *)
Lemma uniform_keyed_frame key tol frame bg h w :
  pixel_ok key -> is_key rule key tol key = true ->
  (0 < h)%nat -> (0 < w)%nat ->
  has_shape h w frame -> has_shape h w bg -> raster_ok bg ->
  (forall i j p, at_ frame i j = Some p -> p = key) ->
  fst (perform frame (ImageBackground bg) key tol 0 0) = bg.
Proof.
  intros Hk Hkey Hh Hw Hf Hb Hok Huni.
  rewrite (perform_image _ _ _ _ _ _ h w Hh Hw Hf Hb). cbn [fst].
  pose proof (has_shape_composite frame bg key tol 0 0 h w Hf Hb) as Hout.
  apply (at_ext h w); [exact Hout | exact Hb |].
  intros i j. destruct (at_ bg i j) as [b|] eqn:Eb.
  - destruct (at_has_shape h w bg i j b Hb Eb) as [Hi Hj].
    destruct (has_shape_at h w frame i j Hf Hi Hj) as [f Ef].
    pose proof (Huni i j f Ef); subst f.
    rewrite (at_composite_hard frame bg key tol 0 0 i j key b
               ltac:(lia) Hk (at_raster_ok bg i j b Hok Eb) Ef Eb).
    rewrite Hkey. reflexivity.
  - rewrite at_composite, Eb.
    destruct (at_ (matte _ _) i j); reflexivity.
Qed.

(** C2 (amended). For every key colour whose saturation and value are
    both at least 50, if every pixel of the frame is the key colour, then
    with tolerance 0, softness 0 and spill suppression 0 the output is the
    background image exactly; and on the scenario of the specification (a
    2x2 frame of (0,255,0) over a 2x2 background of (255,0,0), tolerance
    10) the output is the background.  Both hold under either promotion
    rule. *)
Theorem C2_uniform_key_frame_gives_background
  (key : pixel) (frame bg : raster) (h w : nat) :
  pixel_ok key -> 49 < sat key -> 49 < val key ->
  (0 < h)%nat -> (0 < w)%nat ->
  has_shape h w frame -> has_shape h w bg -> raster_ok bg ->
  (forall i j p, at_ frame i j = Some p -> p = key) ->
  fst (perform frame (ImageBackground bg) key 0 0 0) = bg /\
  fst (perform [[BGR 0 255 0; BGR 0 255 0]; [BGR 0 255 0; BGR 0 255 0]]
         (ImageBackground
            [[BGR 255 0 0; BGR 255 0 0]; [BGR 255 0 0; BGR 255 0 0]])
         (BGR 0 255 0) 10 0 0)
  = [[BGR 255 0 0; BGR 255 0 0]; [BGR 255 0 0; BGR 255 0 0]].
Proof.
  intros Hk Hs Hv Hh Hw Hf Hb Hok Huni. split.
  - apply (uniform_keyed_frame key 0 frame bg h w); try assumption.
    unfold is_key. rewrite (key_matches_itself key Hk Hs Hv). reflexivity.
  - apply (uniform_keyed_frame (BGR 0 255 0) 10 _ _ 2 2).
    + unfold pixel_ok, channel_ok; simpl; lia.
    + destruct rule; vm_compute; reflexivity.
    + lia.
    + lia.
    + split; [reflexivity | repeat constructor].
    + split; [reflexivity | repeat constructor].
    + repeat constructor; simpl; lia.
    + intros [|[|i]] [|[|j]] p H; simpl in H; try discriminate;
        try (now injection H as <-).
      * destruct j; discriminate.
      * destruct j; discriminate.
      * destruct i; discriminate.
      * destruct i; discriminate.
      * destruct i; discriminate.
Qed.

(** ** The compositor on a store *)

Lemma row_is_blend (a : list F32.t) : forall (b f : list pixel),
  map2 Heap.plus
    (map2 Heap.times (map Heap.triple a) (map Heap.to_float b))
    (map2 Heap.times (map Heap.one_minus (map Heap.triple a))
       (map Heap.to_float f))
  = map2 (fun x bf => blend_pixel x (fst bf) (snd bf)) a (map2 pair b f).
Proof.
  induction a as [|x a IH]; intros [|p b] [|q f]; cbn [map map2];
    try reflexivity.
  f_equal. apply IH.
Qed.

Lemma combined_is_blend (a : list (list F32.t)) : forall (b f : raster),
  zip2d Heap.plus
    (zip2d Heap.times (map2d Heap.triple a) (map2d Heap.to_float b))
    (zip2d Heap.times (map2d Heap.one_minus (map2d Heap.triple a))
       (map2d Heap.to_float f))
  = blend a b f.
Proof.
  unfold blend, zip2d, map2d.
  induction a as [|x a IH]; intros [|p b] [|q f]; cbn [map map2];
    try reflexivity.
  f_equal; [apply row_is_blend | apply IH].
Qed.

Lemma spilled_in_place s (c : list (list fpixel)) :
  map2d finish1 (if 0 <? s then map2d (Heap.spill_green s) c else c)
  = map2d (fun x => finish1 (spill1 s x)) c.
Proof.
  unfold map2d, spill1, Heap.spill_green.
  destruct (0 <? s).
  - rewrite map_map. apply map_ext. intros row. now rewrite map_map.
  - reflexivity.
Qed.

Lemma new_app hp l a :
  Heap.new a (hp ++ l)
  = Some ((length hp + length l)%nat, hp ++ (l ++ [a])).
Proof. unfold Heap.new. now rewrite length_app, app_assoc. Qed.

Lemma get_app hp l i a :
  nth_error l i = Some a ->
  Heap.get (length hp + i)%nat (hp ++ l) = Some (a, hp ++ l).
Proof.
  intros H. unfold Heap.get.
  rewrite nth_error_app2 by lia.
  replace (length hp + i - length hp)%nat with i by lia. now rewrite H.
Qed.

Lemma get_old hp l r a :
  nth_error hp r = Some a -> Heap.get r (hp ++ l) = Some (a, hp ++ l).
Proof.
  intros H. unfold Heap.get.
  rewrite nth_error_app1 by (apply nth_error_Some; congruence).
  now rewrite H.
Qed.

Lemma replace_app hp : forall l i a,
  Heap.replace (hp ++ l) (length hp + i)%nat a = hp ++ Heap.replace l i a.
Proof.
  induction hp as [|x hp IH]; intros l i a; cbn [app length Nat.add].
  - reflexivity.
  - cbn [Heap.replace]. now rewrite IH.
Qed.

Lemma put_app hp l i a :
  (i < length l)%nat ->
  Heap.put (length hp + i)%nat a (hp ++ l)
  = Some (tt, hp ++ Heap.replace l i a).
Proof.
  intros H. unfold Heap.put. rewrite length_app.
  destruct (Nat.ltb_spec (length hp + i) (length hp + length l)); [|lia].
  now rewrite replace_app.
Qed.

Lemma kept_app hp l : Heap.kept hp (hp ++ l).
Proof.
  intros r a H. rewrite nth_error_app1; [exact H|].
  apply nth_error_Some. congruence.
Qed.


Lemma heap_composite hp frame bg_resized f b key tol soft spill :
  np.fits rule tol = true ->
  nth_error hp frame = Some (Heap.U8 f) ->
  nth_error hp bg_resized = Some (Heap.U8 b) ->
  exists l',
    Heap.composite rule GaussianBlur frame bg_resized key tol soft spill hp
    = Some ((length hp + 12)%nat, hp ++ l') /\
    nth_error l' 12
    = Some (Heap.U8 (composite rule GaussianBlur f b key tol soft spill)).
Proof.
  intros Hfit Hf Hb.
  replace (Heap.composite rule GaussianBlur frame bg_resized key tol soft
             spill hp)
    with (Heap.composite rule GaussianBlur frame bg_resized key tol soft
            spill (hp ++ [])) by now rewrite app_nil_r.
  unfold Heap.composite, Heap.get_u8, Heap.get_hsv, Heap.get_bounds,
    Heap.get_mask, Heap.get_f32x1, Heap.get_f32x3, Heap.bind, Heap.ret,
    Heap.fail.
  rewrite (get_old hp _ frame _ Hf). cbv beta iota.
  rewrite new_app. cbn [length app Nat.add]. cbv beta iota.
  rewrite new_app. cbn [length app Nat.add]. cbv beta iota.
  erewrite get_app by reflexivity. cbv beta iota.
  rewrite new_app. cbn [length app Nat.add]. cbv beta iota.
  erewrite get_app by reflexivity. cbv beta iota.
  change (at_ (cv2.cvtColor_BGR2HSV [[key]]) 0 0)
    with (Some (cv2.bgr2hsv key)). cbv beta iota.
  rewrite Hfit. cbn [negb]. cbv beta iota.
  rewrite new_app. cbn [length app Nat.add]. cbv beta iota.
  rewrite new_app. cbn [length app Nat.add]. cbv beta iota.
  erewrite get_app by reflexivity. cbv beta iota.
  erewrite get_app by reflexivity. cbv beta iota.
  erewrite get_app by reflexivity. cbv beta iota.
  rewrite new_app. cbn [length app Nat.add]. cbv beta iota.
  erewrite get_app by reflexivity. cbv beta iota.
  rewrite new_app. cbn [length app Nat.add]. cbv beta iota.
  erewrite get_app by reflexivity. cbv beta iota.
  rewrite new_app. cbn [length app Nat.add]. cbv beta iota.
  erewrite get_app by reflexivity. cbv beta iota.
  rewrite new_app. cbn [length app Nat.add]. cbv beta iota.
  erewrite get_app by reflexivity. cbv beta iota.
  rewrite (get_old hp _ bg_resized _ Hb). cbv beta iota.
  rewrite new_app. cbn [length app Nat.add]. cbv beta iota.
  erewrite get_app by reflexivity. cbv beta iota.
  rewrite (get_old hp _ frame _ Hf). cbv beta iota.
  rewrite new_app. cbn [length app Nat.add]. cbv beta iota.
  erewrite get_app by reflexivity. cbv beta iota.
  erewrite get_app by reflexivity. cbv beta iota.
  rewrite new_app. cbn [length app Nat.add]. cbv beta iota.
  rewrite combined_is_blend.
  set (alpha := GaussianBlur _ _).
  assert (Hpure : composite rule GaussianBlur f b key tol soft spill
                  = map2d (fun x => finish1 (spill1 spill x))
                      (blend alpha b f)) by reflexivity.
  pose proof (spilled_in_place spill (blend alpha b f)) as Hsp.
  rewrite <- Hsp in Hpure. clear Hsp.
  destruct (0 <? spill).
  - erewrite get_app by reflexivity. cbv beta iota.
    rewrite put_app by (cbn [length]; lia).
    cbn [Heap.replace]. cbv beta iota.
    erewrite get_app by reflexivity. cbv beta iota.
    rewrite new_app. cbn [length app Nat.add].
    eexists. split; [reflexivity|]. cbn [nth_error]. now rewrite Hpure.
  - cbv beta iota.
    erewrite get_app by reflexivity. cbv beta iota.
    rewrite new_app. cbn [length app Nat.add].
    eexists. split; [reflexivity|]. cbn [nth_error]. now rewrite Hpure.
Qed.

Lemma heap_perform hp frame f s bg key tol soft spill :
  np.fits rule tol = true ->
  nth_error hp frame = Some (Heap.U8 f) ->
  denotes hp s bg ->
  exists out l,
    Heap.perform_chroma_key rule resize GaussianBlur frame s key tol soft
      spill hp
    = Some ((out,
             source_after s
               (snd (perform_chroma_key rule resize GaussianBlur f bg key
                       tol soft spill))),
            hp ++ l) /\
    nth_error (hp ++ l) out
    = Some (Heap.U8 (fst (perform_chroma_key rule resize GaussianBlur f bg
                            key tol soft spill))) /\
    match s with
    | Heap.NoSource => out = frame /\ l = []
    | Heap.ImageSource _ => (length hp <= out)%nat
    | Heap.VideoSource _ => out = frame /\ l = [] \/ (length hp <= out)%nat
    end.
Proof.
  intros Hfit Hf Hs. destruct s as [|r|cap], bg as [|img|cap']; try contradiction.
  - exists frame, []. rewrite app_nil_r.
    cbn [Heap.perform_chroma_key perform_chroma_key fst snd source_after].
    split; [reflexivity|]. split; [exact Hf|]. now split.
  - cbn [denotes] in Hs.
    unfold Heap.perform_chroma_key, perform_chroma_key.
    unfold Heap.get_u8 at 1. unfold Heap.bind at 1 2. unfold Heap.get.
    rewrite Hf. cbv beta iota. unfold Heap.ret at 1.
    destruct (shape f) as [h w].
    unfold Heap.get_u8 at 1. unfold Heap.bind at 1 2. unfold Heap.get.
    rewrite Hs. cbv beta iota. unfold Heap.ret at 1.
    unfold Heap.bind at 1. unfold Heap.new at 1. cbv beta iota.
    assert (Hf1 : nth_error (hp ++ [Heap.U8 (resize img w h)]) frame
                  = Some (Heap.U8 f)) by (now apply kept_app).
    assert (Hb1 : nth_error (hp ++ [Heap.U8 (resize img w h)]) (length hp)
                  = Some (Heap.U8 (resize img w h))).
    { rewrite nth_error_app2 by lia. now rewrite Nat.sub_diag. }
    destruct (heap_composite _ frame (length hp) f (resize img w h) key tol
                soft spill Hfit Hf1 Hb1) as (l' & Hrun & Hout).
    unfold Heap.bind. rewrite Hrun. unfold Heap.ret.
    rewrite <- app_assoc.
    exists (length (hp ++ [Heap.U8 (resize img w h)]) + 12)%nat,
      ([Heap.U8 (resize img w h)] ++ l').
    split; [reflexivity|]. cbn [fst snd]. split.
    + rewrite app_assoc, nth_error_app2 by lia.
      replace (length (hp ++ [Heap.U8 (resize img w h)]) + 12
               - length (hp ++ [Heap.U8 (resize img w h)]))%nat
        with 12%nat by lia.
      exact Hout.
    + rewrite length_app. lia.
  - cbn [denotes] in Hs. subst cap'.
    unfold Heap.perform_chroma_key, perform_chroma_key.
    unfold Heap.get_u8 at 1. unfold Heap.bind at 1 2. unfold Heap.get.
    rewrite Hf. cbv beta iota. unfold Heap.ret at 1.
    destruct (shape f) as [h w].
    destruct (cv2.read cap) as [ret0 cap1].
    destruct (match ret0 with
              | Some _ => (ret0, cap1)
              | None => cv2.read (cv2.set_pos_frames cap1 0)
              end) as [[decoded|] cap2].
    + unfold Heap.bind at 1. unfold Heap.new at 1. cbv beta iota.
      unfold Heap.get_u8 at 1. unfold Heap.bind at 1 2. unfold Heap.get.
      assert (Hd : nth_error (hp ++ [Heap.U8 decoded]) (length hp)
                   = Some (Heap.U8 decoded)).
      { rewrite nth_error_app2 by lia. now rewrite Nat.sub_diag. }
      rewrite Hd. cbv beta iota. unfold Heap.ret at 1.
      unfold Heap.bind at 1. unfold Heap.new at 1. cbv beta iota.
      set (hp2 := (hp ++ [Heap.U8 decoded])
                  ++ [Heap.U8 (resize decoded w h)]).
      assert (Hf2 : nth_error hp2 frame = Some (Heap.U8 f)).
      { unfold hp2. rewrite <- app_assoc. now apply kept_app. }
      assert (Hb2 : nth_error hp2 (length (hp ++ [Heap.U8 decoded]))
                    = Some (Heap.U8 (resize decoded w h))).
      { unfold hp2. rewrite nth_error_app2 by lia.
        now rewrite Nat.sub_diag. }
      destruct (heap_composite hp2 frame _ f (resize decoded w h) key tol
                  soft spill Hfit Hf2 Hb2) as (l' & Hrun & Hout).
      unfold Heap.bind. rewrite Hrun. unfold Heap.ret.
      exists (length hp2 + 12)%nat,
        ([Heap.U8 decoded; Heap.U8 (resize decoded w h)] ++ l').
      assert (E : hp2 ++ l'
                  = hp ++ [Heap.U8 decoded; Heap.U8 (resize decoded w h)] ++ l').
      { unfold hp2. now rewrite <- !app_assoc. }
      rewrite <- E. split; [reflexivity|]. cbn [fst snd]. split.
      * rewrite nth_error_app2 by lia.
        replace (length hp2 + 12 - length hp2)%nat with 12%nat by lia.
        exact Hout.
      * right. unfold hp2. rewrite !length_app. lia.
    + exists frame, []. rewrite app_nil_r.
      unfold Heap.ret. cbn [fst snd].
      split; [reflexivity|]. split; [exact Hf|]. now left.
Qed.

(** C8 (amended).  The call is followed on a store of arrays, where a
    write into an argument would show.  Whatever the background source
    is, every array that was in the store before the call, the frame and
    the background image among them, is there unchanged after it, and the
    array handed back holds the value of the function; it is a new array,
    or the frame itself when there is nothing to composite over.  With no
    background or with a background image the source is left as it was,
    and a second call on the store the first one left gives the same
    raster again.  With a video capture the call reads a frame: the
    capture is left one position after the frame it used, and a second
    call on the same capture composites over the following frame. *)
Theorem C8_arrays_kept_capture_read
  (hp : Heap.heap) (frame : Heap.ref) (f : raster) (s : Heap.source)
  (bg : background) (key : pixel) (tol soft spill : Z) :
  np.fits rule tol = true ->
  nth_error hp frame = Some (Heap.U8 f) ->
  denotes hp s bg ->
  exists out hp1 s1,
    Heap.perform_chroma_key rule resize GaussianBlur frame s key tol soft
      spill hp
    = Some ((out, s1), hp1) /\
    Heap.kept hp hp1 /\
    nth_error hp1 out
    = Some (Heap.U8 (fst (perform_chroma_key rule resize GaussianBlur f bg
                            key tol soft spill))) /\
    (out = frame /\ hp1 = hp \/ (length hp <= out)%nat) /\
    match s with
    | Heap.VideoSource cap =>
        cv2.cap_frames cap <> [] ->
        let n := length (cv2.cap_frames cap) in
        let pos := next_read n (cv2.cap_pos cap) in
        let pos' := next_read n (S pos) in
        exists g g' out2 hp2,
          nth_error (cv2.cap_frames cap) pos = Some g /\
          nth_error (cv2.cap_frames cap) pos' = Some g' /\
          s1 = Heap.VideoSource (cv2.Capture (cv2.cap_frames cap) (S pos)) /\
          nth_error hp1 out
          = Some (Heap.U8 (fst (perform_chroma_key rule resize GaussianBlur
                                  f (ImageBackground g) key tol soft
                                  spill))) /\
          Heap.perform_chroma_key rule resize GaussianBlur frame s1 key tol
            soft spill hp1
          = Some ((out2,
                   Heap.VideoSource
                     (cv2.Capture (cv2.cap_frames cap) (S pos'))),
                  hp2) /\
          Heap.kept hp1 hp2 /\
          nth_error hp2 out2
          = Some (Heap.U8 (fst (perform_chroma_key rule resize GaussianBlur
                                  f (ImageBackground g') key tol soft
                                  spill)))
    | Heap.ImageSource _ =>
        (length hp <= out)%nat /\ s1 = s /\
        exists out2 hp2,
          Heap.perform_chroma_key rule resize GaussianBlur frame s key tol
            soft spill hp1
          = Some ((out2, s), hp2) /\
          Heap.kept hp1 hp2 /\
          nth_error hp2 out2 = nth_error hp1 out
    | Heap.NoSource => out = frame /\ hp1 = hp /\ s1 = s
    end.
Proof.
  intros Hfit Hf Hs.
  destruct (heap_perform hp frame f s bg key tol soft spill Hfit Hf Hs)
    as (out & l & Hrun & Hout & Hfresh).
  exists out, (hp ++ l), (source_after s
     (snd (perform_chroma_key rule resize GaussianBlur f bg key tol soft spill))).
  split; [exact Hrun|]. split; [apply kept_app|]. split; [exact Hout|].
  split.
  { destruct s as [|r|cap].
    - destruct Hfresh as [-> ->]. left. now rewrite app_nil_r.
    - now right.
    - destruct Hfresh as [[-> ->]|H];
        [left; now rewrite app_nil_r | now right]. }
  pose proof (kept_app hp l frame _ Hf) as Hf1.
  destruct s as [|r|cap], bg as [|img|cap']; try contradiction.
  - destruct Hfresh as [-> ->]. rewrite app_nil_r.
    cbn [perform_chroma_key snd source_after]. auto.
  - cbn [denotes] in Hs.
    assert (Hsnd : snd (perform_chroma_key rule resize GaussianBlur f
                          (ImageBackground img) key tol soft spill)
                   = ImageBackground img).
    { unfold perform_chroma_key. now destruct (shape f). }
    rewrite Hsnd. cbn [source_after]. split; [exact Hfresh|].
    split; [reflexivity|].
    destruct (heap_perform (hp ++ l) frame f (Heap.ImageSource r)
                (ImageBackground img) key tol soft spill Hfit Hf1
                (kept_app hp l r _ Hs))
      as (out2 & l2 & Hrun2 & Hout2 & _).
    rewrite Hsnd in Hrun2. cbn [source_after] in Hrun2.
    exists out2, ((hp ++ l) ++ l2). split; [exact Hrun2|].
    split; [apply kept_app|]. now rewrite Hout2, Hout.
  - cbn [denotes] in Hs. subst cap'. intros Hne n pos pos'.
    destruct (perform_video_once f cap key tol soft spill Hne)
      as (g & Hg & Hcall).
    fold n in Hg, Hcall. fold pos in Hg, Hcall.
    set (cap1 := cv2.Capture (cv2.cap_frames cap) (S pos)) in *.
    assert (Hne1 : cv2.cap_frames cap1 <> []) by exact Hne.
    destruct (perform_video_once f cap1 key tol soft spill Hne1)
      as (g' & Hg' & Hcall').
    cbn [cv2.cap_frames cv2.cap_pos cap1] in Hg', Hcall'.
    fold n in Hg', Hcall'. fold pos' in Hg', Hcall'.
    destruct (heap_perform (hp ++ l) frame f (Heap.VideoSource cap1)
                (VideoBackground cap1) key tol soft spill Hfit Hf1 eq_refl)
      as (out2 & l2 & Hrun2 & Hout2 & _).
    rewrite Hcall' in Hrun2, Hout2. cbn [fst snd source_after] in Hrun2, Hout2.
    rewrite Hcall in Hout |- *. cbn [fst snd source_after] in Hout |- *.
    exists g, g', out2, ((hp ++ l) ++ l2).
    split; [exact Hg|]. split; [exact Hg'|]. split; [reflexivity|].
    split; [exact Hout|]. split; [exact Hrun2|].
    split; [apply kept_app | exact Hout2].
Qed.

(** ** The transition band and the reach of the blur *)










(** *** Counting the band *)











(** *** Neighbours on the grid *)






(** The matte before the blur. *)
Local Abbreviation hard_matte mask :=
  (map2d (fun m => F32.div (F32.of_Z m) f255) mask).






(** ** A tolerance that does not fit *)

Lemma heap_composite_overflow r0 hp frame bg_resized f key tol soft spill :
  np.fits r0 tol = false ->
  nth_error hp frame = Some (Heap.U8 f) ->
  Heap.composite r0 GaussianBlur frame bg_resized key tol soft spill hp
  = None.
Proof.
  intros Hfit Hf.
  replace (Heap.composite r0 GaussianBlur frame bg_resized key tol soft
             spill hp)
    with (Heap.composite r0 GaussianBlur frame bg_resized key tol soft
            spill (hp ++ [])) by now rewrite app_nil_r.
  unfold Heap.composite, Heap.get_u8, Heap.get_hsv, Heap.get_bounds,
    Heap.get_mask, Heap.get_f32x1, Heap.get_f32x3, Heap.bind, Heap.ret,
    Heap.fail.
  rewrite (get_old hp _ frame _ Hf). cbv beta iota.
  rewrite new_app. cbn [length app Nat.add]. cbv beta iota.
  rewrite new_app. cbn [length app Nat.add]. cbv beta iota.
  erewrite get_app by reflexivity. cbv beta iota.
  rewrite new_app. cbn [length app Nat.add]. cbv beta iota.
  erewrite get_app by reflexivity. cbv beta iota.
  change (at_ (cv2.cvtColor_BGR2HSV [[key]]) 0 0)
    with (Some (cv2.bgr2hsv key)). cbv beta iota.
  rewrite Hfit. reflexivity.
Qed.

Lemma heap_overflow r0 hp frame r f img key tol soft spill :
  np.fits r0 tol = false ->
  nth_error hp frame = Some (Heap.U8 f) ->
  nth_error hp r = Some (Heap.U8 img) ->
  Heap.perform_chroma_key r0 resize GaussianBlur frame (Heap.ImageSource r)
    key tol soft spill hp = None.
Proof.
  intros Hfit Hf Hi. unfold Heap.perform_chroma_key.
  unfold Heap.get_u8 at 1. unfold Heap.bind at 1 2. unfold Heap.get.
  rewrite Hf. cbv beta iota. unfold Heap.ret at 1.
  destruct (shape f) as [h w].
  unfold Heap.get_u8 at 1. unfold Heap.bind at 1 2. unfold Heap.get.
  rewrite Hi. cbv beta iota. unfold Heap.ret at 1.
  unfold Heap.bind at 1. unfold Heap.new at 1. cbv beta iota.
  unfold Heap.bind.
  rewrite (heap_composite_overflow r0 _ frame (length hp) f key tol soft
             spill Hfit (kept_app hp _ frame _ Hf)).
  reflexivity.
Qed.

(** C3.  The mask is the test [is_key] on every pixel, under either
    promotion rule.  Before NumPy 2 ([np.Legacy]) that test is the one of
    the claim: hue in [keyHue - tolerance, keyHue + tolerance] clamped to
    0..180, saturation and value at 50 or more.  From NumPy 2 on
    ([np.Weak]) it is the claim's test only while nothing wraps
    ([tolerance <= keyHue] and [keyHue + tolerance <= 255]); a tolerance
    above the key hue, by less than 77, wraps the lower bound around
    above every hue, and no pixel is keyed at all, although the key colour
    itself passes the claim's test; a tolerance outside 0..255 is refused:
    the call on a frame and a background image fails ([OverflowError])
    instead of clamping.  On the default key colour (0,255,0) with tolerance 61,
    and on a red key with the default tolerance 25, a pixel of the key
    colour is not keyed. *)
Theorem C3_hue_bounds_wrap_around_in_uint8 :
  (forall r0 frame key tol i j p,
     at_ frame i j = Some p ->
     at_ (key_mask r0 frame key tol) i j
     = Some (if is_key r0 key tol p then 255 else 0)) /\
  (forall key tol p,
     pixel_ok key -> pixel_ok p -> - 2 ^ 62 <= tol <= 2 ^ 62 ->
     np.fits np.Legacy tol = true /\
     is_key np.Legacy key tol p = spec_is_key key tol p) /\
  (forall key tol p,
     pixel_ok key -> pixel_ok p ->
     0 <= tol <= hue key -> hue key + tol <= 255 ->
     np.fits np.Weak tol = true /\
     is_key np.Weak key tol p = spec_is_key key tol p) /\
  (forall key tol p,
     pixel_ok key -> pixel_ok p ->
     hue key < tol < hue key + 77 -> tol <= 255 ->
     np.fits np.Weak tol = true /\
     is_key np.Weak key tol p = false) /\
  (forall key tol,
     pixel_ok key -> 50 <= sat key -> 50 <= val key -> 0 <= tol ->
     spec_is_key key tol key = true) /\
  (forall tol, np.fits np.Weak tol = false <-> tol < 0 \/ 255 < tol) /\
  (forall hp frame r f img key tol soft spill,
     nth_error hp frame = Some (Heap.U8 f) ->
     nth_error hp r = Some (Heap.U8 img) ->
     tol < 0 \/ 255 < tol ->
     Heap.perform_chroma_key np.Weak resize GaussianBlur frame
       (Heap.ImageSource r) key tol soft spill hp = None) /\
  (at_ (key_mask np.Weak [[BGR 0 255 0]] (BGR 0 255 0) 61) 0 0 = Some 0 /\
   spec_is_key (BGR 0 255 0) 61 (BGR 0 255 0) = true) /\
  (at_ (key_mask np.Weak [[BGR 0 0 255]] (BGR 0 0 255) 25) 0 0 = Some 0 /\
   spec_is_key (BGR 0 0 255) 25 (BGR 0 0 255) = true).
Proof.
  assert (Hfits : forall tol,
            np.fits np.Weak tol = false <-> tol < 0 \/ 255 < tol).
  { intros tol. pose proof (np_fits_weak tol) as H.
    destruct (np.fits np.Weak tol).
    + split; [discriminate|]. intros H'. destruct H as [H _].
      specialize (H eq_refl). lia.
    + split; [|reflexivity]. intros _.
      destruct (Z_lt_le_dec tol 0) as [|H0]; [now left|].
      destruct (Z_lt_le_dec 255 tol) as [|H1]; [now right|].
      destruct H as [_ H]. specialize (H (conj H0 H1)). discriminate. }
  split; [|split; [|split; [|split; [|split; [|split; [|split; [|split]]]]]]].
  - intros r0 frame key tol i j p Hat.
    now rewrite at_key_mask_is_key, Hat.
  - intros key tol p Hk Hp Ht. pose proof (hue_range key Hk). split.
    + unfold np.fits. apply andb_true_iff. rewrite Z.leb_le, Z.ltb_lt. lia.
    + apply is_key_no_wrap; [exact Hp | |]; unfold np.sub, np.add;
        apply np_int64_small; lia.
  - intros key tol p Hk Hp Ht Hup. pose proof (hue_range key Hk). split.
    + apply np_fits_weak. lia.
    + apply is_key_no_wrap; [exact Hp | |]; unfold np.sub, np.add;
        apply np_uint8_small; lia.
  - intros key tol p Hk Hp Ht Ht'. pose proof (hue_range key Hk). split.
    + apply np_fits_weak. lia.
    + now apply is_key_weak_wrapped.
  - intros key tol Hk Hs Hv Ht. pose proof (hue_range key Hk).
    apply spec_is_key_spec. lia.
  - exact Hfits.
  - intros hp frame r f img key tol soft spill Hf Hi Ht.
    apply (heap_overflow np.Weak hp frame r f img key tol soft spill);
      [now apply Hfits | exact Hf | exact Hi].
  - split; vm_compute; reflexivity.
  - split; vm_compute; reflexivity.
Qed.

(** ** Further edge behaviour of the mask and the matte *)

Lemma np_fits_weak_out tol : tol < 0 \/ 255 < tol -> np.fits np.Weak tol = false.
Proof.
  intros H. destruct (np.fits np.Weak tol) eqn:E; [|reflexivity].
  apply np_fits_weak in E. lia.
Qed.

(** With softness 0 (or below) the matte is the mask itself: exactly 1.0
    on the keyed pixels and exactly 0.0 on the others, of the size of the
    frame, with no value in between. *)
Theorem zero_softness_leaves_a_hard_matte
  (frame : raster) (key : pixel) (tol s : Z) (h w : nat) :
  has_shape h w frame -> s <= 0 ->
  has_shape h w (matte (key_mask rule frame key tol) s) /\
  band_width (matte (key_mask rule frame key tol) s) = 0%nat /\
  forall i j p,
    at_ frame i j = Some p ->
    at_ (matte (key_mask rule frame key tol) s) i j
    = Some (if is_key rule key tol p then F32.one else F32.zero).
Proof.
  intros Hf Hs. split; [|split].
  - apply has_shape_matte, has_shape_key_mask, Hf.
  - apply band_width_binary, matte_hard_binary;
      [exact Hs | apply key_mask_binary].
  - intros i j p Hat. rewrite (at_matte_hard _ _ _ _ _ _ Hs), Hat.
    cbn [option_map]. f_equal. unfold is_key.
    destruct (inRange1_255 (cv2.bgr2hsv p)
                (Z.max 0 (np.sub rule (hue key) tol), 50, 50)
                (Z.min 180 (np.add rule (hue key) tol), 255, 255))
      as [-> | ->].
    + exact alpha_of_key.
    + exact alpha_of_nonkey.
Qed.

(** Under the rule of NumPy 2 a tolerance above the hue of the key
    colour, by less than 77, switches the keying off: the mask is 0
    throughout and, with softness and spill suppression 0, the frame comes
    back as it is, key-coloured pixels included. *)
Theorem tolerance_above_key_hue_keys_nothing
  (frame bg : raster) (key : pixel) (tol soft spill : Z) (h w : nat) :
  rule = np.Weak ->
  pixel_ok key -> hue key < tol < hue key + 77 -> tol <= 255 ->
  (0 < h)%nat -> (0 < w)%nat ->
  has_shape h w frame -> has_shape h w bg ->
  raster_ok frame -> raster_ok bg -> soft <= 0 -> spill <= 0 ->
  (forall i j m, at_ (key_mask rule frame key tol) i j = Some m -> m = 0) /\
  fst (perform frame (ImageBackground bg) key tol soft spill) = frame.
Proof.
  intros Hrule Hk Ht Ht' Hh Hw Hf Hb Rf Rb Hs Hsp.
  assert (Hno : forall i j p, at_ frame i j = Some p ->
                              is_key rule key tol p = false).
  { intros i j p Hat. rewrite Hrule.
    exact (is_key_weak_wrapped key tol p Hk
             (at_raster_ok frame i j p Rf Hat) Ht Ht'). }
  split.
  - intros i j m. rewrite at_key_mask_is_key.
    destruct (at_ frame i j) as [p|] eqn:Hat; [|discriminate].
    cbn [option_map]. rewrite (Hno i j p Hat). congruence.
  - now apply (no_key_no_change frame bg key tol soft spill h w).
Qed.

(** Under the rule of NumPy 2 a tolerance below 0 or above 255 is not
    clamped: a call with a background image fails, at the first hue
    bound; a call without a background still hands the frame back, since
    it returns before the bounds are computed. *)
Theorem out_of_range_tolerance_fails
  (hp : Heap.heap) (frame r : Heap.ref) (f img : raster) (key : pixel)
  (tol soft spill : Z) :
  rule = np.Weak -> tol < 0 \/ 255 < tol ->
  nth_error hp frame = Some (Heap.U8 f) ->
  nth_error hp r = Some (Heap.U8 img) ->
  Heap.perform_chroma_key rule resize GaussianBlur frame (Heap.ImageSource r)
    key tol soft spill hp = None /\
  Heap.perform_chroma_key rule resize GaussianBlur frame Heap.NoSource
    key tol soft spill hp = Some ((frame, Heap.NoSource), hp).
Proof.
  intros Hrule Ht Hf Hi. split; [|reflexivity].
  apply (heap_overflow rule hp frame r f img key tol soft spill);
    [rewrite Hrule; now apply np_fits_weak_out | exact Hf | exact Hi].
Qed.
End Compositor.

Lemma blur_ref_shape_odd a k h w :
  0 < k -> Z.odd k = true -> has_shape h w a -> has_shape h w (blur_ref a k).
Proof. intros _ _. apply blur_ref_shape. Qed.


(** C1, as stated, fails on the green channel when the spill suppression
    is positive: on a one-pixel key-coloured frame over a background of
    green 100, with spill suppression 50, the matte is 1.0 and the blend
    [alpha * 100 + (1 - alpha) * 255] is 100, but the output green is
    50. *)
Lemma C1_counterexample :
  let frame := [[BGR 0 255 0]] in
  let bg := [[BGR 255 100 0]] in
  let out := fst (perform_chroma_key np.Weak resize_ref blur_ref frame
                    (ImageBackground bg) (BGR 0 255 0) 10 0 50) in
  let alpha :=
    alpha_map blur_ref (key_mask np.Weak frame (BGR 0 255 0) 10) 0 in
  exists a p,
    at_ alpha 0 0 = Some a /\ at_ out 0 0 = Some p /\
    let blended :=
      F32.astype_uint8
        (F32.clip (F32.add (F32.mul a (F32.of_Z 100))
                           (F32.mul (F32.sub (F32.of_Z 1) a) (F32.of_Z 255)))
                  (F32.of_Z 0) (F32.of_Z 255)) in
    chG p = 50 /\ blended = 100 /\ chG p <> blended.
Proof.
  exists F32.one, (BGR 255 50 0). vm_compute.
  repeat split; discriminate.
Qed.

Lemma green_pixel_ok : pixel_ok (BGR 0 255 0).
Proof. unfold pixel_ok, channel_ok; simpl; lia. Qed.






(** C7, as stated, fails in its second half: a compositing call on a
    video capture without any frame does absorb the empty sequence.  The
    first read fails, the capture is rewound, the second read fails too,
    and the frame is handed back unchanged, with nothing reported. *)
Lemma C7_counterexample :
  let frame := [[BGR 0 255 0; BGR 10 20 30]] in
  let empty := cv2.Capture [] 0 in
  cv2.read empty = (None, empty) /\
  perform_chroma_key np.Weak resize_ref blur_ref frame (VideoBackground empty)
    (BGR 0 255 0) 10 0 50
  = (frame, VideoBackground empty).
Proof. split; reflexivity. Qed.

(** C5 at the non-key pixel of a frame of one row and two columns, spill
    suppression 50: green 20 becomes 0. *)
Lemma C5_spill_reduces_green_by_s_witness :
  let frame := [[BGR 0 255 0; BGR 10 20 30]] in
  let bg := [[BGR 255 100 0; BGR 1 2 3]] in
  let out0 := fst (perform_chroma_key np.Weak resize_ref blur_ref frame
                     (ImageBackground bg) (BGR 0 255 0) 10 0 0) in
  let outs := fst (perform_chroma_key np.Weak resize_ref blur_ref frame
                     (ImageBackground bg) (BGR 0 255 0) 10 0 50) in
  let alpha := alpha_map blur_ref (key_mask np.Weak frame (BGR 0 255 0) 10) 0 in
  exists a b f p0 ps,
    at_ alpha 0 1 = Some a /\ at_ bg 0 1 = Some b /\
    at_ frame 0 1 = Some f /\
    at_ out0 0 1 = Some p0 /\ at_ outs 0 1 = Some ps /\
    chB ps = chB p0 /\ chR ps = chR p0 /\
    (below_256 (blend1 a (chG b) (chG f)) = true ->
     chG ps = Z.max 0 (Z.min 255 (chG p0 - 50))) /\
    (unit_range a = true -> pixel_ok b -> pixel_ok f ->
     chG ps = Z.max 0 (Z.min 255 (chG p0 - 50))) /\
    (0 <= 0 -> pixel_ok b -> pixel_ok f ->
     chG ps = Z.max 0 (Z.min 255 (chG p0 - 50))).
Proof.
  apply (C5_spill_reduces_green_by_s np.Weak resize_ref blur_ref resize_ref_same
           blur_ref_one blur_ref_shape_odd
           [[BGR 0 255 0; BGR 10 20 30]] [[BGR 255 100 0; BGR 1 2 3]]
           (BGR 0 255 0) 10 0 50 1 2).
  - lia.
  - lia.
  - lia.
  - split; [reflexivity | repeat constructor].
  - split; [reflexivity | repeat constructor].
  - lia.
  - lia.
Defined.

(** Spill suppression 50 on concrete frames.  On the 2x2 scenario of the
    specification the green channel of the output is already 0 and stays
    0; on a background of green 100 it drops to 50 on the key pixel, and
    the green 20 of a pixel that is not keyed drops to 0. *)
Example spill_scenario :
  fst (perform_chroma_key np.Weak resize_ref blur_ref
         [[BGR 0 255 0; BGR 0 255 0]; [BGR 0 255 0; BGR 0 255 0]]
         (ImageBackground
            [[BGR 255 0 0; BGR 255 0 0]; [BGR 255 0 0; BGR 255 0 0]])
         (BGR 0 255 0) 10 0 50)
  = [[BGR 255 0 0; BGR 255 0 0]; [BGR 255 0 0; BGR 255 0 0]] /\
  fst (perform_chroma_key np.Weak resize_ref blur_ref
         [[BGR 0 255 0; BGR 10 20 30]]
         (ImageBackground [[BGR 255 100 0; BGR 1 2 3]]) (BGR 0 255 0) 10 0 0)
  = [[BGR 255 100 0; BGR 10 20 30]] /\
  fst (perform_chroma_key np.Weak resize_ref blur_ref
         [[BGR 0 255 0; BGR 10 20 30]]
         (ImageBackground [[BGR 255 100 0; BGR 1 2 3]]) (BGR 0 255 0) 10 0 50)
  = [[BGR 255 50 0; BGR 10 0 30]].
Proof. repeat split; vm_compute; reflexivity. Qed.

(** C6 on a background video of three frames, freshly loaded. *)
Lemma C6_stepping_wraps_both_ways_witness :
  let f0 := [[BGR 0 0 0]] in
  let f1 := [[BGR 1 1 1]] in
  let f2 := [[BGR 2 2 2]] in
  let self := fst (_load_background_video_worker initial_app
                     (Some [f0; f1; f2])) in
  video_ready self 3 /\
  cursor_trace 3 (repeat false 4) 0 = [1; 2; 0; 1] /\
  cursor_trace 3 (repeat true 4) 0 = [2; 1; 0; 2] /\
  exists outs self',
    play np.Weak resize_ref blur_ref self
      [(false, [[BGR 9 9 9]]); (false, [[BGR 9 9 9]]); (true, [[BGR 9 9 9]])]
    = Some (outs, self') /\
    bg_index self' = cursor_after 3 [false; false; true] 0.
Proof.
  intros f0 f1 f2 self.
  assert (Hready : video_ready self 3).
  { unfold video_ready; cbn. repeat split; try discriminate; lia. }
  split; [exact Hready|].
  split; [reflexivity|]. split; [reflexivity|].
  destruct (C6_stepping_wraps_both_ways np.Weak resize_ref blur_ref self 3
              [(false, [[BGR 9 9 9]]); (false, [[BGR 9 9 9]]);
               (true, [[BGR 9 9 9]])] Hready)
    as (_ & _ & _ & (outs & self' & Hplay & Hcur & _) & _).
  exists outs, self'. split; [exact Hplay | exact Hcur].
Defined.

(** ** The further properties on concrete inputs *)

Lemma has_shapeb_shape {A} h w (r : list (list A)) :
  has_shapeb h w r = true -> has_shape h w r.
Proof.
  unfold has_shapeb. intros H. apply andb_prop in H as [Hl Hr].
  apply Nat.eqb_eq in Hl. split; [exact Hl|].
  apply Forall_forall. intros row Hin.
  rewrite forallb_forall in Hr. apply Nat.eqb_eq, Hr, Hin.
Qed.

Lemma resize_ref_shape r h w :
  is_image r -> (0 < h)%nat -> (0 < w)%nat -> has_shape h w (resize_ref r w h).
Proof.
  intros _ _ _. unfold resize_ref.
  destruct (has_shapeb h w r) eqn:E; [now apply has_shapeb_shape|].
  destruct (shape r) as [h0 w0]. split.
  - now rewrite length_map, length_seq.
  - apply Forall_map, Forall_forall. intros i _.
    now rewrite length_map, length_seq.
Qed.

(** A grey pixel under a green key and tolerance 100. *)
Lemma gray_and_dark_pixels_are_kept_witness :
  at_ (key_mask np.Weak [[BGR 128 128 128]] (BGR 0 255 0) 100) 0 0 = Some 0.
Proof.
  apply (gray_and_dark_pixels_are_kept np.Weak [[BGR 128 128 128]]
           (BGR 0 255 0) 100 0 0 (BGR 128 128 128)).
  - reflexivity.
  - left. split; reflexivity.
Defined.

(** Under the rule of NumPy 2, a green pixel keyed on green (hue 60) at
    tolerance 25 is keyed at tolerance 50, and is not at tolerance 61. *)
Lemma mask_grows_with_tolerance_witness :
  at_ (key_mask np.Weak [[BGR 0 255 0]] (BGR 0 255 0) 50) 0 0 = Some 255 /\
  at_ (key_mask np.Weak [[BGR 0 255 0]] (BGR 0 255 0) 61) 0 0 = Some 0.
Proof.
  assert (Rf : raster_ok [[BGR 0 255 0]])
    by (repeat constructor; simpl; lia).
  assert (H25 : at_ (key_mask np.Weak [[BGR 0 255 0]] (BGR 0 255 0) 25) 0 0
                = Some 255) by (vm_compute; reflexivity).
  split.
  - apply (proj1 (mask_grows_with_tolerance np.Weak [[BGR 0 255 0]]
                    (BGR 0 255 0) 25 50 0 0 green_pixel_ok Rf
                    ltac:(lia) H25)); reflexivity.
  - apply (proj2 (mask_grows_with_tolerance np.Weak [[BGR 0 255 0]]
                    (BGR 0 255 0) 25 61 0 0 green_pixel_ok Rf
                    ltac:(lia) H25)).
    + reflexivity.
    + change (hue (BGR 0 255 0)) with 60. lia.
    + lia.
Defined.

(** A kept pixel next to a keyed one, with spill suppression 50. *)
Lemma hard_matte_selects_pixels_witness :
  exists m,
    at_ (key_mask np.Weak [[BGR 0 255 0; BGR 10 20 30]] (BGR 0 255 0) 10) 0 1
    = Some m /\
    (m = 255 \/ m = 0) /\
    at_ (fst (perform_chroma_key np.Weak resize_ref blur_ref
                [[BGR 0 255 0; BGR 10 20 30]]
                (ImageBackground [[BGR 255 100 0; BGR 1 2 3]])
                (BGR 0 255 0) 10 0 50)) 0 1
    = Some (let q := if m =? 255 then BGR 1 2 3 else BGR 10 20 30 in
            if 0 <? 50 then BGR (chB q) (Z.max 0 (chG q - 50)) (chR q)
            else q).
Proof.
  apply (hard_matte_selects_pixels np.Weak resize_ref blur_ref resize_ref_same
           blur_ref_one
           [[BGR 0 255 0; BGR 10 20 30]] [[BGR 255 100 0; BGR 1 2 3]]
           (BGR 0 255 0) 10 0 50 1 2 0 1 (BGR 10 20 30) (BGR 1 2 3)).
  - reflexivity.
  - lia.
  - lia.
  - split; [reflexivity | repeat constructor].
  - split; [reflexivity | repeat constructor].
  - repeat constructor; simpl; lia.
  - repeat constructor; simpl; lia.
  - lia.
  - reflexivity.
  - reflexivity.
Defined.

(** A grey frame under a green key with tolerance 100. *)
Lemma unkeyed_frame_is_returned_witness :
  fst (perform_chroma_key np.Weak resize_ref blur_ref [[BGR 128 128 128]]
         (ImageBackground [[BGR 255 0 0]]) (BGR 0 255 0) 100 0 0)
  = [[BGR 128 128 128]].
Proof.
  apply (unkeyed_frame_is_returned np.Weak resize_ref blur_ref resize_ref_same
           blur_ref_one blur_ref_shape_odd
           [[BGR 128 128 128]] [[BGR 255 0 0]] (BGR 0 255 0) 100 0 0 1 1).
  - reflexivity.
  - lia.
  - lia.
  - split; [reflexivity | repeat constructor].
  - split; [reflexivity | repeat constructor].
  - repeat constructor; simpl; lia.
  - repeat constructor; simpl; lia.
  - lia.
  - lia.
  - right. intros [|i] [|j] p H; simpl in H; try discriminate.
    + injection H as <-. left. split; reflexivity.
    + destruct j; discriminate.
    + destruct i; discriminate.
    + destruct i; discriminate.
Defined.

(** Three calls on a capture of two frames. *)
Lemma video_background_cycles_witness :
  let frames := [ [[BGR 0 255 0]]; [[BGR 0 255 0]]; [[BGR 0 255 0]] ] in
  let cap := cv2.Capture [ [[BGR 255 255 255]]; [[BGR 0 0 0]] ] 0 in
  let n := length (cv2.cap_frames cap) in
  let outs :=
    fst (perform_all np.Weak resize_ref blur_ref frames (VideoBackground cap)
           (BGR 0 255 0) 10 0 0) in
  length outs = length frames /\
  forall k frame,
    nth_error frames k = Some frame ->
    exists f,
      nth_error (cv2.cap_frames cap) ((cv2.cap_pos cap + k) mod n) = Some f /\
      nth_error outs k
      = Some (fst (perform_chroma_key np.Weak resize_ref blur_ref frame
                     (ImageBackground f) (BGR 0 255 0) 10 0 0)).
Proof.
  apply (video_background_cycles np.Weak resize_ref blur_ref
           [ [[BGR 0 255 0]]; [[BGR 0 255 0]]; [[BGR 0 255 0]] ]
           (cv2.Capture [ [[BGR 255 255 255]]; [[BGR 0 0 0]] ] 0)
           (BGR 0 255 0) 10 0 0).
  - simpl; discriminate.
  - simpl; lia.
Defined.

(** A frame of one row and two columns over an image of two rows and one
    column. *)
Lemma output_has_frame_size_witness :
  let frame := [[BGR 0 255 0; BGR 10 20 30]] in
  let out :=
    fst (perform_chroma_key np.Weak resize_ref blur_ref frame
           (ImageBackground [[BGR 255 100 0]; [BGR 1 2 3]])
           (BGR 0 255 0) 10 2 5) in
  has_shape 1 2 out /\ (raster_ok frame -> raster_ok out).
Proof.
  apply (output_has_frame_size np.Weak resize_ref blur_ref blur_ref_shape_odd
           resize_ref_shape
           [[BGR 0 255 0; BGR 10 20 30]]
           (ImageBackground [[BGR 255 100 0]; [BGR 1 2 3]])
           (BGR 0 255 0) 10 2 5 1 2).
  - lia.
  - lia.
  - split; [reflexivity | repeat constructor].
  - exists 2%nat, 1%nat. split; [lia|]. split; [lia|].
    split; [reflexivity | repeat constructor].
Defined.

(** The last frame of a video of five. *)
Lemma stepping_round_trips_witness :
  advance_bg_index true 5 (advance_bg_index false 5 4) = 4 /\
  advance_bg_index false 5 (advance_bg_index true 5 4) = 4 /\
  cursor_after 5 (repeat false (Z.to_nat 5)) 4 = 4 /\
  cursor_after 5 (repeat true (Z.to_nat 5)) 4 = 4.
Proof. apply (stepping_round_trips 5 4). lia. Defined.

(** Brightness 10 on a pixel with a channel at 250. *)
Lemma nonnegative_brightness_saturates_witness :
  cv2.convertScaleAbs [[BGR 250 0 100]] F32.one (F32.of_Z 10)
  = map2d (fun p => BGR (Z.min 255 (chB p + 10)) (Z.min 255 (chG p + 10))
                        (Z.min 255 (chR p + 10))) [[BGR 250 0 100]].
Proof.
  apply (nonnegative_brightness_saturates [[BGR 250 0 100]] 10).
  - repeat constructor; simpl; lia.
  - lia.
Defined.

(** The application as it starts. *)
Lemma defaults_leave_frame_unchanged_witness :
  apply_chroma_key np.Weak resize_ref blur_ref initial_app [[BGR 1 2 3]]
  = Some ([[BGR 1 2 3]], initial_app).
Proof.
  apply (defaults_leave_frame_unchanged np.Weak resize_ref blur_ref initial_app
           [[BGR 1 2 3]]).
  - repeat constructor; simpl; lia.
  - reflexivity.
  - reflexivity.
  - reflexivity.
  - reflexivity.
Defined.

(** An image and a video of two frames loaded into the starting state. *)
Lemma last_load_decides_witness :
  let self := initial_app in
  let frame := [[BGR 0 255 0]] in
  let img := [[BGR 9 9 9]] in
  let frames := [ [[BGR 255 255 255]]; [[BGR 0 0 0]] ] in
  let s_img := fst (load_bg_image self (Some img)) in
  let s_vid := fst (_load_background_video_worker self (Some frames)) in
  let n := Z.of_nat (length frames) in
  let i := advance_bg_index (bg_video_is_reversed self) n 0 in
  apply_chroma_key np.Weak resize_ref blur_ref s_img frame
  = Some (render np.Weak resize_ref blur_ref self frame img, s_img) /\
  exists raw_bg,
    nth_error frames (Z.to_nat i) = Some raw_bg /\
    apply_chroma_key np.Weak resize_ref blur_ref s_vid frame
    = Some (render np.Weak resize_ref blur_ref self frame raw_bg,
            set_bg_index s_vid i).
Proof.
  apply (last_load_decides np.Weak resize_ref blur_ref initial_app [[BGR 0 255 0]]
           [[BGR 9 9 9]] [ [[BGR 255 255 255]]; [[BGR 0 0 0]] ]).
  discriminate.
Defined.

(** Two foreground frames exported over a video of three frames. *)
Lemma export_background_order_witness :
  let self :=
    fst (_load_background_video_worker initial_app
           (Some [ [[BGR 1 1 1]]; [[BGR 2 2 2]]; [[BGR 3 3 3]] ])) in
  let cap := cv2.Capture [ [[BGR 0 255 0]]; [[BGR 7 7 7]] ] 0 in
  let d := bg_video_is_reversed self in
  exists outs self',
    export_composited_video np.Weak resize_ref blur_ref self (Some cap) (fun _ => d)
    = Played outs self' /\
    length outs = length (cv2.cap_frames cap) /\
    forall k frame,
      nth_error (cv2.cap_frames cap) k = Some frame ->
      exists raw_bg,
        nth_error (bg_frames self)
          (Z.to_nat ((if d then - (Z.of_nat k + 1) else Z.of_nat k + 1) mod 3))
        = Some raw_bg /\
        nth_error outs k = Some (render np.Weak resize_ref blur_ref self frame raw_bg).
Proof.
  apply (export_background_order np.Weak resize_ref blur_ref
           (fst (_load_background_video_worker initial_app
                   (Some [ [[BGR 1 1 1]]; [[BGR 2 2 2]]; [[BGR 3 3 3]] ])))
           (cv2.Capture [ [[BGR 0 255 0]]; [[BGR 7 7 7]] ] 0) 3).
  unfold video_ready; simpl.
  split; [reflexivity|]. split; [discriminate|]. split; [reflexivity|].
  split; [reflexivity | lia].
Defined.

(** Two foreground frames previewed in reverse over a video of three. *)
Lemma preview_background_order_witness :
  let self :=
    set_reversed
      (fst (_load_background_video_worker initial_app
              (Some [ [[BGR 1 1 1]]; [[BGR 2 2 2]]; [[BGR 3 3 3]] ])))
      true in
  let cap := cv2.Capture [ [[BGR 0 255 0]]; [[BGR 7 7 7]] ] 0 in
  let d := bg_video_is_reversed self in
  exists outs self',
    preview_composited_video np.Weak resize_ref blur_ref self (Some cap) (fun _ => d)
    = Played outs self' /\
    length outs = length (cv2.cap_frames cap) /\
    forall k frame,
      nth_error (cv2.cap_frames cap) k = Some frame ->
      exists raw_bg,
        nth_error (bg_frames self)
          (Z.to_nat ((if d then 3 - 2 - Z.of_nat k else Z.of_nat k + 1) mod 3))
        = Some raw_bg /\
        nth_error outs k = Some (render np.Weak resize_ref blur_ref self frame raw_bg).
Proof.
  apply (preview_background_order np.Weak resize_ref blur_ref
           (set_reversed
              (fst (_load_background_video_worker initial_app
                      (Some [ [[BGR 1 1 1]]; [[BGR 2 2 2]]; [[BGR 3 3 3]] ])))
              true)
           (cv2.Capture [ [[BGR 0 255 0]]; [[BGR 7 7 7]] ] 0) 3).
  unfold video_ready; simpl.
  split; [reflexivity|]. split; [discriminate|]. split; [reflexivity|].
  split; [reflexivity | lia].
Defined.

(** A drag from the top left corner over the first row of a 2x2 frame. *)
Lemma picked_colour_is_floor_of_mean_witness :
  let frame := [[BGR 1 2 3; BGR 2 3 5]; [BGR 10 20 30; BGR 11 21 31]] in
  let fg_cap := cv2.Capture [frame] 0 in
  let box := Picker.State true 0 0 0 0 false in
  let roi := region frame 0 1 0 2 in
  let n := (1 - 0) * (2 - 0) in
  let total ch := fold_right Z.add 0 (channel_values ch roi) in
  (forall i j,
     (i < Z.to_nat (1 - 0))%nat -> (j < Z.to_nat (2 - 0))%nat ->
     at_ roi i j = at_ frame (Z.to_nat 0 + i) (Z.to_nat 0 + j)) /\
  Z.of_nat (length (concat roi)) = n /\
  _pick_color_callback initial_app box fg_cap EVENT_LBUTTONUP 2 1
  = Some (set_bg_color initial_app
            (total chR / n, total chG / n, total chB / n),
          Picker.State false 0 0 2 1 true,
          cv2.Capture [frame] 1).
Proof.
  apply (picked_colour_is_floor_of_mean initial_app
           (Picker.State true 0 0 0 0 false)
           (cv2.Capture
              [[[BGR 1 2 3; BGR 2 3 5]; [BGR 10 20 30; BGR 11 21 31]]] 0)
           [[BGR 1 2 3; BGR 2 3 5]; [BGR 10 20 30; BGR 11 21 31]]
           2 1 2 2).
  - reflexivity.
  - split; [reflexivity | repeat constructor].
  - repeat constructor; simpl; lia.
  - simpl; lia.
  - simpl; lia.
  - simpl; lia.
  - simpl; lia.
  - simpl; lia.
  - simpl; lia.
  - vm_compute; reflexivity.
Defined.

(** A drag from the bottom right corner back to the top left one, over a
    green 2x2 frame. *)
Lemma picking_a_uniform_area_keys_its_colour_witness :
  let frame := [[BGR 0 255 0; BGR 0 255 0]; [BGR 0 255 0; BGR 0 255 0]] in
  exists self' box' fg_cap',
    _pick_color_callback initial_app (Picker.State true 2 2 2 2 false)
      (cv2.Capture [frame] 0) EVENT_LBUTTONUP 0 0
    = Some (self', box', fg_cap') /\
    bg_color self' = (chR (BGR 0 255 0), chG (BGR 0 255 0), chB (BGR 0 255 0)) /\
    Picker.color_picked box' = true /\
    forall adjusted_foreground bg_source,
      call_core np.Weak resize_ref blur_ref self' adjusted_foreground bg_source
      = fst (perform_chroma_key np.Weak resize_ref blur_ref adjusted_foreground
               (ImageBackground bg_source) (BGR 0 255 0)
               (tolerance initial_app) (softness initial_app)
               (color_spill initial_app)).
Proof.
  apply (picking_a_uniform_area_keys_its_colour np.Weak resize_ref blur_ref
           initial_app (Picker.State true 2 2 2 2 false)
           (cv2.Capture
              [[[BGR 0 255 0; BGR 0 255 0]; [BGR 0 255 0; BGR 0 255 0]]] 0)
           [[BGR 0 255 0; BGR 0 255 0]; [BGR 0 255 0; BGR 0 255 0]]
           0 0 2 2 (BGR 0 255 0)).
  - reflexivity.
  - split; [reflexivity | repeat constructor].
  - repeat constructor; simpl; lia.
  - simpl; lia.
  - simpl; lia.
  - simpl; lia.
  - simpl; lia.
  - simpl; lia.
  - simpl; lia.
  - vm_compute; reflexivity.
  - intros [|[|i]] [|[|j]] p _ _ H; simpl in H; try discriminate;
      try (now injection H as <-).
    + destruct j; discriminate.
    + destruct j; discriminate.
    + destruct i; discriminate.
    + destruct i; discriminate.
    + destruct i; discriminate.
Defined.

(** A click without a drag. *)
Lemma selection_without_area_keeps_colour_witness :
  _pick_color_callback initial_app (Picker.State true 5 7 5 7 false)
    (cv2.Capture [[[BGR 1 2 3]]] 0) EVENT_LBUTTONUP 5 7
  = Some (initial_app, Picker.State false 5 7 5 7 true,
          snd (cv2.read (cv2.Capture [[[BGR 1 2 3]]] 0))).
Proof.
  apply (selection_without_area_keeps_colour initial_app
           (Picker.State true 5 7 5 7 false)
           (cv2.Capture [[[BGR 1 2 3]]] 0) 5 7).
  left. reflexivity.
Defined.

(** A box to the right of a frame of one pixel. *)
Lemma selection_outside_frame_raises_witness :
  _pick_color_callback initial_app (Picker.State true 3 0 3 0 false)
    (cv2.Capture [[[BGR 1 2 3]]] 0) EVENT_LBUTTONUP 6 1
  = None.
Proof.
  apply (selection_outside_frame_raises initial_app
           (Picker.State true 3 0 3 0 false)
           (cv2.Capture [[[BGR 1 2 3]]] 0) [[BGR 1 2 3]] 6 1 1 1).
  - reflexivity.
  - split; [reflexivity | repeat constructor].
  - simpl; lia.
  - simpl; lia.
  - left. simpl; lia.
Defined.


(** C1 (amended) on a frame of one row and two columns, softness 1 and
    spill suppression 50, with the reference filters. *)
Lemma C1_size_and_blend_witness :
  let frame := [[BGR 0 255 0; BGR 10 20 30]] in
  let bg := [[BGR 255 100 0; BGR 1 2 3]] in
  let out := fst (perform_chroma_key np.Weak resize_ref blur_ref frame
                    (ImageBackground bg) (BGR 0 255 0) 10 1 50) in
  let alpha :=
    alpha_map blur_ref (key_mask np.Weak frame (BGR 0 255 0) 10) 1 in
  has_shape 1 2 out /\
  forall i j, (i < 1)%nat -> (j < 2)%nat ->
    exists a b f p,
      at_ alpha i j = Some a /\ at_ bg i j = Some b /\
      at_ frame i j = Some f /\ at_ out i j = Some p /\
      pixel_ok p /\
      let mix := fun background foreground : Z =>
        F32.add (F32.mul a (F32.of_Z background))
                (F32.mul (F32.sub (F32.of_Z 1) a) (F32.of_Z foreground)) in
      let to_8bit := fun x : F32.t =>
        F32.astype_uint8 (F32.clip x (F32.of_Z 0) (F32.of_Z 255)) in
      chB p = to_8bit (mix (chB b) (chB f)) /\
      chR p = to_8bit (mix (chR b) (chR f)) /\
      chG p =
        (if 0 <? 50
         then to_8bit (F32.clip (F32.sub (mix (chG b) (chG f))
                                         (F32.of_Z 50))
                                (F32.of_Z 0) (F32.of_Z 255))
         else to_8bit (mix (chG b) (chG f))) /\
      (50 <= 0 -> pixel_ok b -> pixel_ok f ->
       (a = F32.of_Z 1 -> p = b) /\ (a = F32.of_Z 0 -> p = f)).
Proof.
  apply (C1_size_and_blend np.Weak resize_ref blur_ref resize_ref_same
           blur_ref_shape_odd
           [[BGR 0 255 0; BGR 10 20 30]] [[BGR 255 100 0; BGR 1 2 3]]
           (BGR 0 255 0) 10 1 50 1 2).
  - lia.
  - lia.
  - split; [reflexivity | repeat constructor].
  - split; [reflexivity | repeat constructor].
Defined.

(** C2 (amended) on a frame of two pixels of the key colour (255,0,0),
    tolerance 0, under the rule of NumPy 2. *)
Lemma C2_uniform_key_frame_gives_background_witness :
  fst (perform_chroma_key np.Weak resize_ref blur_ref
         [[BGR 255 0 0; BGR 255 0 0]]
         (ImageBackground [[BGR 1 2 3; BGR 40 50 60]])
         (BGR 255 0 0) 0 0 0)
  = [[BGR 1 2 3; BGR 40 50 60]] /\
  fst (perform_chroma_key np.Weak resize_ref blur_ref
         [[BGR 0 255 0; BGR 0 255 0]; [BGR 0 255 0; BGR 0 255 0]]
         (ImageBackground
            [[BGR 255 0 0; BGR 255 0 0]; [BGR 255 0 0; BGR 255 0 0]])
         (BGR 0 255 0) 10 0 0)
  = [[BGR 255 0 0; BGR 255 0 0]; [BGR 255 0 0; BGR 255 0 0]].
Proof.
  apply (C2_uniform_key_frame_gives_background np.Weak resize_ref blur_ref
           resize_ref_same blur_ref_one blur_ref_shape_odd
           (BGR 255 0 0) [[BGR 255 0 0; BGR 255 0 0]]
           [[BGR 1 2 3; BGR 40 50 60]] 1 2).
  - unfold pixel_ok, channel_ok; simpl; lia.
  - vm_compute; reflexivity.
  - vm_compute; reflexivity.
  - lia.
  - lia.
  - split; [reflexivity | repeat constructor].
  - split; [reflexivity | repeat constructor].
  - repeat constructor; simpl; lia.
  - intros [|i] [|[|j]] p H; simpl in H; try discriminate;
      try (now injection H as <-).
    + destruct j; discriminate.
    + destruct i; discriminate.
    + destruct i; discriminate.
    + destruct i; discriminate.
Defined.

(** C2, as stated, fails for a key colour that the saturation and value
    gate excludes: a black frame keyed on black, with tolerance 0, comes
    back black, not replaced by the background, under either promotion
    rule. *)
Lemma C2_counterexample :
  let key := BGR 0 0 0 in
  let frame := [[key]] in
  let bg := [[BGR 255 255 255]] in
  (forall i j p, at_ frame i j = Some p -> p = key) /\
  fst (perform_chroma_key np.Legacy resize_ref blur_ref frame
         (ImageBackground bg) key 0 0 0) = frame /\
  fst (perform_chroma_key np.Weak resize_ref blur_ref frame
         (ImageBackground bg) key 0 0 0) = frame /\
  frame <> bg.
Proof.
  split; [|split; [|split]].
  - intros [|i] [|j] p H; simpl in H; try discriminate.
    + now injection H as <-.
    + destruct j; discriminate.
    + destruct i; discriminate.
    + destruct i; discriminate.
  - vm_compute; reflexivity.
  - vm_compute; reflexivity.
  - discriminate.
Qed.

(** C8 (amended) on a store of two arrays, the frame and a background
    image of its size: the call leaves both as they were. *)
Lemma C8_arrays_kept_capture_read_witness :
  let frame := [[BGR 0 255 0; BGR 10 20 30]] in
  let img := [[BGR 255 100 0; BGR 1 2 3]] in
  let hp := [Heap.U8 frame; Heap.U8 img] in
  exists out hp1,
    Heap.perform_chroma_key np.Weak resize_ref blur_ref 0%nat
      (Heap.ImageSource 1%nat) (BGR 0 255 0) 10 0 50 hp
    = Some ((out, Heap.ImageSource 1%nat), hp1) /\
    nth_error hp1 0%nat = Some (Heap.U8 frame) /\
    nth_error hp1 1%nat = Some (Heap.U8 img) /\
    nth_error hp1 out
    = Some (Heap.U8 (fst (perform_chroma_key np.Weak resize_ref blur_ref
                            frame (ImageBackground img) (BGR 0 255 0) 10 0
                            50))).
Proof.
  intros frame img hp.
  destruct (C8_arrays_kept_capture_read np.Weak resize_ref blur_ref hp 0%nat
              frame (Heap.ImageSource 1%nat) (ImageBackground img)
              (BGR 0 255 0) 10 0 50 eq_refl eq_refl eq_refl)
    as (out & hp1 & s1 & Hrun & Hkept & Hout & _ & _ & Hs1 & _).
  exists out, hp1. rewrite Hs1 in Hrun.
  split; [exact Hrun|].
  split; [exact (Hkept 0%nat _ eq_refl)|].
  split; [exact (Hkept 1%nat _ eq_refl) | exact Hout].
Defined.

(** C8, as stated, fails for a video capture: the call reads a frame
    from the capture, which is left one position further, and a second
    call with the same arguments composites over the next frame. *)
Lemma C8_counterexample :
  let frame := [[BGR 0 255 0]] in
  let cap := cv2.Capture [ [[BGR 255 255 255]]; [[BGR 0 0 0]] ] 0 in
  let call := Heap.perform_chroma_key np.Weak resize_ref blur_ref 0%nat in
  match call (Heap.VideoSource cap) (BGR 0 255 0) 10 0 0 [Heap.U8 frame] with
  | Some ((out1, s1), hp1) =>
      match call s1 (BGR 0 255 0) 10 0 0 hp1 with
      | Some ((out2, s2), hp2) =>
          nth_error hp1 out1 = Some (Heap.U8 [[BGR 255 255 255]]) /\
          nth_error hp2 out2 = Some (Heap.U8 [[BGR 0 0 0]]) /\
          s1 = Heap.VideoSource
                 (cv2.Capture [ [[BGR 255 255 255]]; [[BGR 0 0 0]] ] 1%nat) /\
          s1 <> Heap.VideoSource cap
      | None => False
      end
  | None => False
  end.
Proof.
  vm_compute. repeat split; discriminate.
Qed.

(** *** The stand-in blur is of the expected kind *)







(** A key pixel next to a black one, softness 0. *)
Lemma zero_softness_leaves_a_hard_matte_witness :
  let frame := [[BGR 0 255 0; BGR 0 0 0]] in
  let alpha := alpha_map blur_ref (key_mask np.Weak frame (BGR 0 255 0) 10) 0 in
  has_shape 1 2 alpha /\
  band_width alpha = 0%nat /\
  forall i j p,
    at_ frame i j = Some p ->
    at_ alpha i j
    = Some (if is_key np.Weak (BGR 0 255 0) 10 p then F32.one else F32.zero).
Proof.
  apply (zero_softness_leaves_a_hard_matte np.Weak blur_ref blur_ref_one
           blur_ref_shape_odd [[BGR 0 255 0; BGR 0 0 0]] (BGR 0 255 0) 10 0
           1 2).
  - split; [reflexivity | repeat constructor].
  - lia.
Defined.

(** A green frame keyed on green (hue 60) with tolerance 61, under the
    rule of NumPy 2: nothing is replaced. *)
Lemma tolerance_above_key_hue_keys_nothing_witness :
  fst (perform_chroma_key np.Weak resize_ref blur_ref [[BGR 0 255 0]]
         (ImageBackground [[BGR 255 0 0]]) (BGR 0 255 0) 61 0 0)
  = [[BGR 0 255 0]].
Proof.
  apply (tolerance_above_key_hue_keys_nothing np.Weak resize_ref blur_ref
           resize_ref_same blur_ref_one blur_ref_shape_odd
           [[BGR 0 255 0]] [[BGR 255 0 0]] (BGR 0 255 0) 61 0 0 1 1).
  - reflexivity.
  - exact green_pixel_ok.
  - change (hue (BGR 0 255 0)) with 60. lia.
  - lia.
  - lia.
  - lia.
  - split; [reflexivity | repeat constructor].
  - split; [reflexivity | repeat constructor].
  - repeat constructor; simpl; lia.
  - repeat constructor; simpl; lia.
  - lia.
  - lia.
Defined.

(** Tolerance 300 on a store of a frame and a background image, under the
    rule of NumPy 2. *)
Lemma out_of_range_tolerance_fails_witness :
  let hp := [Heap.U8 [[BGR 0 255 0]]; Heap.U8 [[BGR 255 0 0]]] in
  Heap.perform_chroma_key np.Weak resize_ref blur_ref 0%nat
    (Heap.ImageSource 1%nat) (BGR 0 255 0) 300 0 0 hp = None /\
  Heap.perform_chroma_key np.Weak resize_ref blur_ref 0%nat Heap.NoSource
    (BGR 0 255 0) 300 0 0 hp = Some ((0%nat, Heap.NoSource), hp).
Proof.
  apply (out_of_range_tolerance_fails np.Weak resize_ref blur_ref
           [Heap.U8 [[BGR 0 255 0]]; Heap.U8 [[BGR 255 0 0]]] 0%nat 1%nat
           [[BGR 0 255 0]] [[BGR 255 0 0]] (BGR 0 255 0) 300 0 0).
  - reflexivity.
  - right. lia.
  - reflexivity.
  - reflexivity.
Defined.
